(** * Twende: connectivity and session coordination layer

    A shallow embedding of the client code of the Twende transit
    application that deals with the real-time channel and the session:

    - [frontend/shared/hooks.ts], section "WebSocket client for real-time
      features": the classes [WebSocketService] (socket.io transport) and
      [NativeWebSocketService] (raw WebSocket transport), with their
      reconnection policy, outbound [send], inbound [handleMessage] and the
      [on]/[off]/[emit] listener table;
    - [frontend/shared/hooks.ts], section "Authentication utilities":
      [AuthProvider] ([login], [register], [logout], [refreshToken],
      [clearAuth]) and the token utilities [isTokenExpired],
      [getTokenExpiration], [getTokenTimeUntilExpiry];
    - [frontend/shared/api.ts]: the axios client built by [createApiClient]
      with its request and response interceptors, [ApiService.logout] and
      the storage helpers.

    JavaScript objects used as dictionaries are finite maps ([gmap]),
    functions compared by reference are identifiers, numbers that the code
    only uses as small integers are [Z], and platform functions that are
    not part of the repository ([JSON.parse], [atob], the network, the
    clock) are parameters of the sections that use them. *)

From Stdlib Require Import ZArith QArith Qabs List Ascii String Bool Lia Lqa.
From stdpp Require Import base option list gmap strings.

Import ListNotations.
Local Open Scope string_scope.
Local Open Scope list_scope.

(** ** JavaScript completions

    A JavaScript call either returns normally or throws.  [Normal] and
    [Thrown] both carry the state the call leaves behind. *)

Inductive Completion (S : Type) : Type :=
| Normal (s : S)
| Thrown (e : string) (s : S).
Arguments Normal {S} s.
Arguments Thrown {S} e s.

Definition state_of {S} (c : Completion S) : S :=
  match c with Normal s => s | Thrown _ s => s end.

Definition returns_normally {S} (c : Completion S) : Prop :=
  match c with Normal _ => True | Thrown _ _ => False end.

(** ** JavaScript values that come out of [JSON.parse]

    [JSON.parse] itself belongs to the platform; its results are values of
    this type.  A number is a rational (the code only compares and
    subtracts them).  [undefined] is not a JSON value: a JavaScript value
    that may be [undefined] is an [option JSON]. *)

#[local] Unset Elimination Schemes.
Inductive JSON : Type :=
| JNull
| JBool (b : bool)
| JNum (q : Q)
| JStr (s : string)
| JArr (items : list JSON)
| JObj (fields : list (string * JSON)).
#[local] Set Elimination Schemes.

Abbreviation JSValue := (option JSON).

Fixpoint lookup_field (name : string) (fields : list (string * JSON))
  : JSValue :=
  match fields with
  | [] => None
  | (k, v) :: rest => if String.eqb k name then Some v else lookup_field name rest
  end.

(** Property read [v.name] for the names this code reads ([type], [data],
    [exp]): reading a property of [null] throws a [TypeError]; an object
    gives the field or [undefined]; a boolean, number, string or array has
    no own property of these names and gives [undefined]. *)
Definition get_prop (v : JSON) (name : string) : option JSValue :=
  match v with
  | JNull => None
  | JObj fields => Some (lookup_field name fields)
  | _ => Some None
  end.

(** JavaScript truthiness of a string that may be [null], as in
    [if (!token || !userString)] and [if (refreshToken)]. *)
Definition truthy (v : option string) : bool :=
  match v with
  | None => false
  | Some s => negb (String.eqb s "")
  end.

(** ** The listener table ([on], [off], [emit])

    Both services carry the same "event emitter functionality":
    [private listeners: { [key: string]: Function[] } = {}].  A callback is
    a JavaScript function, compared by reference ([cb !== callback]); it is
    represented by an identifier.  Invoking a callback is recorded as an
    [Invocation]; what the callback then does belongs to feature code and
    is not modelled.  The table is a plain object used as a dictionary,
    keyed by the event names the services and their callers use.

    [Emitter] gives what the three methods do to the table's own keys and
    the order in which [emit] calls the listeners, for an event name that
    is not a member of [Object.prototype] and listeners that return.
    [EventEmitter] below gives the methods as they are called, with the
    two things this leaves out: the [TypeError] on an inherited name and
    the listener that throws. *)

Module Emitter.

Abbreviation Callback := nat.
Abbreviation Data := (option JSON).

Abbreviation Listeners := (gmap string (list Callback)).

Record Invocation := Invoke {
  inv_event : string;
  inv_callback : Callback;
  inv_data : Data
}.

(** [on(event, callback)]: create the array when the key is missing, then
    [push]. *)
Definition on (event : string) (callback : Callback) (listeners : Listeners)
  : Listeners :=
  match listeners !! event with
  | None => <[event := [callback]]> listeners
  | Some cbs => <[event := cbs ++ [callback]]> listeners
  end.

(** [off(event, callback)]: when the key exists, replace the array by
    [filter(cb => cb !== callback)]; otherwise do nothing. *)
Definition off (event : string) (callback : Callback) (listeners : Listeners)
  : Listeners :=
  match listeners !! event with
  | Some cbs =>
      <[event := List.filter (fun cb => negb (Nat.eqb cb callback)) cbs]> listeners
  | None => listeners
  end.

(** [emit(event, data)]: when the key exists, call every callback of the
    array, in order, with [data]. *)
Definition emit (event : string) (data : Data) (listeners : Listeners)
  : list Invocation :=
  match listeners !! event with
  | Some cbs => List.map (fun cb => Invoke event cb data) cbs
  | None => []
  end.

(** What feature code and the transport can do with the table once a
    listener has been removed. *)
Inductive Op :=
| OpOn (event : string) (callback : Callback)
| OpOff (event : string) (callback : Callback)
| OpEmit (event : string) (data : Data).

(** The callback is registered again for the event somewhere in [ops]. *)
Definition resubscribes (event : string) (callback : Callback) (ops : list Op)
  : Prop :=
  In (OpOn event callback) ops.

(** The callback is registered for the event in the table. *)
Definition registered (event : string) (callback : Callback)
    (listeners : Listeners) : Prop :=
  exists cbs, listeners !! event = Some cbs /\ In callback cbs.

(** The callbacks that [regs] registers for [event], in order. *)
Definition callbacks_for (event : string) (regs : list (string * Callback))
  : list Callback :=
  List.map snd (List.filter (fun r => String.eqb r.1 event) regs).

End Emitter.

(** ** The listener methods as they are called

    Two facts of the JavaScript decide what a call of [on], [off] or
    [emit] does besides what [Emitter] says.

    - [this.listeners] is a plain object.  The read [this.listeners[event]]
      of a key the table does not own falls through to [Object.prototype]:
      for the name of one of its members ('toString', 'constructor',
      '__proto__', ...) it gives that member, which is truthy and has no
      [push], [filter] or [forEach], so each of the three methods throws a
      [TypeError] and leaves the table as it was.
    - [forEach(callback => callback(data))] has no [try]: a listener that
      throws ends the dispatch, the listeners after it are not called, and
      the exception leaves [emit].

    Which names [Object.prototype] has and which listener throws on which
    data are not the repository's; they are parameters (whether a listener
    throws is taken to depend on the listener and the data only).  A listener is
    still only called: what it does to the table itself (a listener may
    call [on] or [off]) happens in operations of its own, which do not
    change the dispatch under way ([off] installs a new array, and
    [forEach] does not visit what [push] appends during the loop). *)

Module EventEmitter.

Import Emitter.

(** Applies [f] to what a call leaves behind. *)
Definition map_state {S T} (f : S -> T) (c : Completion S) : Completion T :=
  match c with
  | Normal s => Normal (f s)
  | Thrown e s => Thrown e (f s)
  end.

Section Calls.

(** [event] names a member of [Object.prototype]. *)
Variable inherited : string -> bool.
(** The exception [callback(data)] throws, [None] when it returns. *)
Variable throws : Callback -> Data -> option string.

(** [on(event, callback)]:
<<
    if (!this.listeners[event]) { this.listeners[event] = []; }
    this.listeners[event].push(callback);
>> *)
Definition on (event : string) (callback : Callback) (listeners : Listeners)
  : Completion Listeners :=
  match listeners !! event with
  | Some cbs => Normal (<[event := cbs ++ [callback]]> listeners)
  | None =>
      if inherited event then Thrown "TypeError" listeners
      else Normal (<[event := [callback]]> listeners)
  end.

(** [off(event, callback)]:
<<
    if (this.listeners[event]) {
      this.listeners[event] = this.listeners[event].filter(cb => cb !== callback);
    }
>> *)
Definition off (event : string) (callback : Callback) (listeners : Listeners)
  : Completion Listeners :=
  match listeners !! event with
  | Some cbs =>
      Normal (<[event := List.filter (fun cb => negb (Nat.eqb cb callback)) cbs]>
                listeners)
  | None =>
      if inherited event then Thrown "TypeError" listeners else Normal listeners
  end.

(** [cbs.forEach(callback => callback(data))]: the calls made, oldest
    first; the call that throws is the last one. *)
Fixpoint forEach (event : string) (data : Data) (cbs : list Callback)
  : Completion (list Invocation) :=
  match cbs with
  | [] => Normal []
  | cb :: rest =>
      match throws cb data with
      | Some e => Thrown e [Invoke event cb data]
      | None => map_state (cons (Invoke event cb data)) (forEach event data rest)
      end
  end.

(** [emit(event, data)]:
<<
    if (this.listeners[event]) {
      this.listeners[event].forEach(callback => callback(data));
    }
>> *)
Definition emit (event : string) (data : Data) (listeners : Listeners)
  : Completion (list Invocation) :=
  match listeners !! event with
  | Some cbs => forEach event data cbs
  | None => if inherited event then Thrown "TypeError" [] else Normal []
  end.

(** Runs the operations in order, each a call of its own (a call that
    throws does not stop the later ones); returns the final table and
    every invocation made, oldest first. *)
Fixpoint run (ops : list Op) (listeners : Listeners)
  : Listeners * list Invocation :=
  match ops with
  | [] => (listeners, [])
  | OpOn e cb :: rest => run rest (state_of (on e cb listeners))
  | OpOff e cb :: rest => run rest (state_of (off e cb listeners))
  | OpEmit e d :: rest =>
      let invs := state_of (emit e d listeners) in
      let '(l', invs') := run rest listeners in
      (l', invs ++ invs')
  end.

(** Registers the listeners of [regs], in order, by calls of [on]. *)
Definition subscribe_all (regs : list (string * Callback)) (listeners : Listeners)
  : Listeners :=
  fold_left (fun l r => state_of (on r.1 r.2 l)) regs listeners.

End Calls.

(** The invocations of callbacks other than [callback]. *)
Definition without (callback : Callback) (invs : list Invocation)
  : list Invocation :=
  List.filter (fun i => negb (Nat.eqb (inv_callback i) callback)) invs.

End EventEmitter.

(** ** The real-time services

    [NativeWebSocketService] is modelled in full; [WebSocketService] (the
    socket.io variant) has the same fields, the same [handleReconnect], the
    same listener table and the same shape of [connect], and differs in how
    it sends (one guarded [socket.emit] per method) and in that socket.io
    dispatches inbound events by name.

    The transport is the platform's: the model keeps, for every channel the
    service ever opened, its [readyState] and the frames handed to it. *)

Module WS.

Import Emitter.

Inductive ReadyState := CONNECTING | OPEN | CLOSING | CLOSED.

(** One transport channel: what it was opened with, its state, and the
    frames given to its [send], oldest first. *)
Record Socket := mkSocket {
  sock_url : string;
  sock_token : string;
  readyState : ReadyState;
  sock_sent : list string
}.

(** A timer armed by [setTimeout(..., delay)]; [fired] once it has run. *)
Record Timer := mkTimer { delay : Z; fired : bool }.

Inductive LogEntry :=
| LogNoAuth                 (* 'No auth token or user found, skipping WebSocket connection' *)
| LogConnectError           (* 'Native WebSocket connection error:' *)
| LogConnected              (* 'Native WebSocket connected' *)
| LogDisconnected           (* 'Native WebSocket disconnected:' *)
| LogSocketError            (* 'Native WebSocket error:' *)
| LogParseError             (* 'Error parsing WebSocket message:' *)
| LogUnknownType (t : JSValue)  (* 'Unknown message type:' *)
| LogAttempt (n : Z)        (* 'Attempting to reconnect (n/max)' *)
| LogMaxAttempts.           (* 'Max reconnection attempts reached' *)

(** The fields of the service object ([ws], [url], [reconnectAttempts],
    [listeners]) together with the environment it acts on: the
    [AsyncStorage] entries, the channels opened so far ([ws] is an index
    into them), the timers armed so far, the console, and the listener
    invocations made so far. *)
Record World := mkWorld {
  ws : option nat;
  url : string;
  reconnectAttempts : Z;
  listeners : gmap string (list Callback);
  storage : gmap string string;
  sockets : list Socket;
  timers : list Timer;
  console : list LogEntry;
  invoked : list Invocation
}.

(** [private maxReconnectAttempts = 5; private reconnectDelay = 1000;]
    (never assigned again). *)
Definition maxReconnectAttempts : Z := 5.
Definition reconnectDelay : Z := 1000.

Definition set_ws (v : option nat) (w : World) : World :=
  mkWorld v (url w) (reconnectAttempts w) (listeners w) (storage w)
          (sockets w) (timers w) (console w) (invoked w).
Definition set_url (v : string) (w : World) : World :=
  mkWorld (ws w) v (reconnectAttempts w) (listeners w) (storage w)
          (sockets w) (timers w) (console w) (invoked w).
Definition set_reconnectAttempts (v : Z) (w : World) : World :=
  mkWorld (ws w) (url w) v (listeners w) (storage w)
          (sockets w) (timers w) (console w) (invoked w).
Definition set_sockets (v : list Socket) (w : World) : World :=
  mkWorld (ws w) (url w) (reconnectAttempts w) (listeners w) (storage w)
          v (timers w) (console w) (invoked w).
Definition set_timers (v : list Timer) (w : World) : World :=
  mkWorld (ws w) (url w) (reconnectAttempts w) (listeners w) (storage w)
          (sockets w) v (console w) (invoked w).
Definition log (e : LogEntry) (w : World) : World :=
  mkWorld (ws w) (url w) (reconnectAttempts w) (listeners w) (storage w)
          (sockets w) (timers w) (console w ++ [e]) (invoked w).
Definition record_invocations (invs : list Invocation) (w : World) : World :=
  mkWorld (ws w) (url w) (reconnectAttempts w) (listeners w) (storage w)
          (sockets w) (timers w) (console w) (invoked w ++ invs).

(** [this.ws?.readyState]: [undefined] when [ws] is [null]. *)
Definition current_readyState (w : World) : option ReadyState :=
  match ws w with
  | Some i => readyState <$> (sockets w !! i)
  | None => None
  end.

(** [isConnected()]: [this.ws?.readyState === WebSocket.OPEN] (for the
    socket.io service, [this.socket?.connected || false]). *)
Definition isConnected (w : World) : bool :=
  match current_readyState w with
  | Some OPEN => true
  | _ => false
  end.

(** Every frame handed to any channel so far. *)
Definition transmitted (w : World) : list string :=
  concat (List.map sock_sent (sockets w)).

(** The delays of all timers armed so far, oldest first. *)
Definition scheduled_delays (w : World) : list Z :=
  List.map delay (timers w).

Definition pending_timers (w : World) : list Timer :=
  List.filter (fun t => negb (fired t)) (timers w).

(** [handleReconnect()], the same text in both classes:
<<
    if (this.reconnectAttempts < this.maxReconnectAttempts) {
      this.reconnectAttempts++;
      const delay = this.reconnectDelay * Math.pow(2, this.reconnectAttempts - 1);
      setTimeout(() => { console.log(...); this.connect(); }, delay);
    } else {
      console.error('Max reconnection attempts reached');
    }
>>
    [reconnectAttempts] starts at 0 and is only incremented or reset to 0,
    so the exponent is never negative. *)
Definition handleReconnect (w : World) : World :=
  if (reconnectAttempts w <? maxReconnectAttempts)%Z then
    let w1 := set_reconnectAttempts (reconnectAttempts w + 1)%Z w in
    let delay := (reconnectDelay * 2 ^ (reconnectAttempts w1 - 1))%Z in
    set_timers (timers w1 ++ [mkTimer delay false]) w1
  else
    log LogMaxAttempts w.

(** [try { body } catch (error) { handler }]. *)
Definition try_catch {S} (body : Completion S) (handler : string -> S -> Completion S)
  : Completion S :=
  match body with
  | Normal s => Normal s
  | Thrown e s => handler e s
  end.

(** [this.emit(event, data)] on the service's own table. *)
Definition emit_listeners (event : string) (data : Data) (w : World) : World :=
  record_invocations (emit event data (listeners w)) w.

Definition is_type (t : JSValue) (name : string) : bool :=
  match t with
  | Some (JStr s) => String.eqb s name
  | _ => false
  end.

(** [handleMessage(message)]: the [switch (message.type)] of
    [NativeWebSocketService].  Reading [message.type] throws when
    [message] is [null]. *)
Definition handleMessage (message : JSON) (w : World) : Completion World :=
  match get_prop message "type", get_prop message "data" with
  | Some t, Some data =>
      if is_type t "driver_location_update" then
        Normal (emit_listeners "location_update" data w)
      else if is_type t "booking_update" then
        Normal (emit_listeners "booking_update" data w)
      else if is_type t "schedule_status_update" then
        Normal (emit_listeners "schedule_update" data w)
      else if is_type t "notification" then
        Normal (emit_listeners "notification" data w)
      else
        Normal (log (LogUnknownType t) w)
  | _, _ => Thrown "TypeError" w
  end.

(** [WebSocket.prototype.send] of the platform: throws on a channel that
    is still connecting, queues the frame on an open one, and discards it
    on a closing or closed one. *)
Definition socket_send (i : nat) (frame : string) (w : World) : Completion World :=
  match sockets w !! i with
  | Some s =>
      match readyState s with
      | CONNECTING => Thrown "InvalidStateError" w
      | OPEN =>
          Normal (set_sockets
                    (<[i := mkSocket (sock_url s) (sock_token s) OPEN
                                     (sock_sent s ++ [frame])]> (sockets w)) w)
      | _ => Normal w
      end
  | None => Thrown "TypeError" w
  end.

Section Platform.

(** [JSON.parse(text)]: [None] when it throws a [SyntaxError]. *)
Variable JSON_parse : string -> option JSON.
(** [JSON.stringify(value)] on plain data. *)
Variable JSON_stringify : JSON -> string.
(** The string [`${WS_BASE_URL}/ws/user/${JSON.parse(userString).id}/`];
    [None] when [JSON.parse] or the property read throws. *)
Variable user_url : string -> option string.
(** The socket.io packet for [socket.emit(name, payload)]. *)
Variable io_packet : string -> JSON -> string.

(** [connect()] of [NativeWebSocketService] ([WebSocketService.connect]
    has the same shape with [this.socket = io(WS_BASE_URL, ...)] in place
    of [this.url = ...; this.ws = new WebSocket(...)]; for it [user_url]
    is [WS_BASE_URL] whenever the user record parses):
<<
  try {
    const token = await AsyncStorage.getItem('access_token');
    const userString = await AsyncStorage.getItem('user');
    if (!token || !userString) { console.log(...); return; }
    const user = JSON.parse(userString);
    this.url = `${WS_BASE_URL}/ws/user/${user.id}/`;
    this.ws = new WebSocket(this.url, [], { headers: ... });
    this.setupEventListeners();
  } catch (error) { console.error(...); }
>>
    The new channel is appended to [sockets] and [ws] points to it;
    the handlers that [setupEventListeners] installs on it are the
    cases of [handle] below. *)
Definition connect (w : World) : World :=
  let token := storage w !! "access_token" in
  let userString := storage w !! "user" in
  if negb (truthy token) || negb (truthy userString) then log LogNoAuth w
  else
    match token, userString with
    | Some token, Some userString =>
        match user_url userString with
        | None => log LogConnectError w
        | Some u =>
            let w1 := set_url u w in
            let w2 := set_sockets (sockets w1 ++ [mkSocket u token CONNECTING []]) w1 in
            set_ws (Some (length (sockets w1))) w2
        end
    | _, _ => log LogNoAuth w
    end.

(** [ws.onmessage]:
<<
  try { const message = JSON.parse(event.data); this.handleMessage(message); }
  catch (error) { console.error('Error parsing WebSocket message:', error); }
>> *)
Definition onmessage (frame : string) (w : World) : Completion World :=
  try_catch
    (match JSON_parse frame with
     | None => Thrown "SyntaxError" w
     | Some message => handleMessage message w
     end)
    (fun _ w' => Normal (log LogParseError w')).

(** [send(message)]:
    [if (this.ws?.readyState === WebSocket.OPEN) this.ws.send(JSON.stringify(message));] *)
Definition send (message : JSON) (w : World) : Completion World :=
  match ws w with
  | Some i =>
      match readyState <$> (sockets w !! i) with
      | Some OPEN => socket_send i (JSON_stringify message) w
      | _ => Normal w
      end
  | None => Normal w
  end.

(** The outbound methods of [NativeWebSocketService]. *)
Definition subscribeToSchedule (scheduleId : Z) (w : World) : Completion World :=
  send (JObj [("type", JStr "subscribe_to_schedule");
              ("schedule_id", JNum (inject_Z scheduleId))]) w.

Definition unsubscribeFromSchedule (scheduleId : Z) (w : World) : Completion World :=
  send (JObj [("type", JStr "unsubscribe_from_schedule");
              ("schedule_id", JNum (inject_Z scheduleId))]) w.

Definition updateDriverLocation (location : JSON) (w : World) : Completion World :=
  send (JObj [("type", JStr "location_update"); ("data", location)]) w.

Definition updateDriverStatus (status : JSON) (w : World) : Completion World :=
  send (JObj [("type", JStr "status_update"); ("data", status)]) w.

(** The outbound methods of the socket.io [WebSocketService], each of
    the form [if (this.socket?.connected) this.socket.emit(name, payload);]. *)
Definition io_emit_if_connected (name : string) (payload : JSON) (w : World)
  : Completion World :=
  match ws w with
  | Some i =>
      match readyState <$> (sockets w !! i) with
      | Some OPEN => socket_send i (io_packet name payload) w
      | _ => Normal w
      end
  | None => Normal w
  end.

Definition io_subscribeToSchedule (scheduleId : Z) :=
  io_emit_if_connected "subscribe_to_schedule"
    (JObj [("schedule_id", JNum (inject_Z scheduleId))]).
Definition io_unsubscribeFromSchedule (scheduleId : Z) :=
  io_emit_if_connected "unsubscribe_from_schedule"
    (JObj [("schedule_id", JNum (inject_Z scheduleId))]).
Definition io_updateDriverLocation (location : JSON) :=
  io_emit_if_connected "location_update" location.
Definition io_updateDriverStatus (status : JSON) :=
  io_emit_if_connected "status_update" status.
Definition io_getLocation (scheduleId : Z) :=
  io_emit_if_connected "get_location"
    (JObj [("schedule_id", JNum (inject_Z scheduleId))]).

(** What the platform can deliver to the service: the handlers installed
    by [setupEventListeners] on every channel it opens, and the expiry of
    a reconnection timer.  [SockOpen] and [SockClose] are [onopen] and
    [onclose] (socket.io: 'connect' and 'disconnect'); [SockError] and
    [SockMessage] are [onerror] and [onmessage] of the raw WebSocket;
    [IoConnectError] and [IoEvent] are socket.io's 'connect_error' and its
    named events. *)
Inductive Event :=
| SockOpen (i : nat)
| SockClose (i : nat)
| SockError (i : nat)
| SockMessage (i : nat) (frame : string)
| IoConnectError (i : nat)
| IoEvent (i : nat) (name : string) (data : Data)
| TimerFires (j : nat).

(** The platform changes the state of a channel. *)
Definition set_readyState (i : nat) (r : ReadyState) (w : World) : World :=
  match sockets w !! i with
  | Some s =>
      set_sockets (<[i := mkSocket (sock_url s) (sock_token s) r (sock_sent s)]>
                     (sockets w)) w
  | None => w
  end.

(** One turn of the event loop.  An event for a channel the service
    never opened, or for a timer that is not pending, does nothing. *)
Definition handle (w : World) (ev : Event) : World :=
  match ev with
  | SockOpen i =>
      match sockets w !! i with
      | Some _ =>
          (* onopen: console.log; this.reconnectAttempts = 0 *)
          set_reconnectAttempts 0 (log LogConnected (set_readyState i OPEN w))
      | None => w
      end
  | SockClose i =>
      match sockets w !! i with
      | Some _ =>
          (* onclose: console.log; this.handleReconnect() *)
          handleReconnect (log LogDisconnected (set_readyState i CLOSED w))
      | None => w
      end
  | SockError i =>
      match sockets w !! i with
      | Some _ => log LogSocketError w
      | None => w
      end
  | SockMessage i frame =>
      match sockets w !! i with
      | Some _ => state_of (onmessage frame w)
      | None => w
      end
  | IoConnectError i =>
      match sockets w !! i with
      | Some _ =>
          (* 'connect_error': console.error; this.handleReconnect() *)
          handleReconnect (log LogConnectError w)
      | None => w
      end
  | IoEvent i name data =>
      match sockets w !! i with
      | Some _ =>
          (* this.socket.on(name, (data) => this.emit(topic, data)) for the
             four names; no handler for any other name *)
          if String.eqb name "driver_location_update" then
            emit_listeners "location_update" data w
          else if String.eqb name "booking_update" then
            emit_listeners "booking_update" data w
          else if String.eqb name "schedule_status_update" then
            emit_listeners "schedule_update" data w
          else if String.eqb name "notification" then
            emit_listeners "notification" data w
          else w
      | None => w
      end
  | TimerFires j =>
      match timers w !! j with
      | Some t =>
          if fired t then w
          else
            (* console.log(`Attempting to reconnect (...)`); this.connect() *)
            connect (log (LogAttempt (reconnectAttempts w))
                       (set_timers (<[j := mkTimer (delay t) true]> (timers w)) w))
      | None => w
      end
  end.

Definition run (evs : list Event) (w : World) : World :=
  fold_left handle evs w.

(** An event other than a channel opening. *)
Definition not_open (ev : Event) : Prop :=
  match ev with SockOpen _ => False | _ => True end.

(** What happens around the service: the platform delivers an event, or
    other code leaves [AsyncStorage] with the entries [st].
    [AsyncStorage] is shared with the rest of the application: between two
    events of the service the gateway can store a refreshed access token
    and a logout can remove the session. *)
Inductive Step :=
| Delivered (ev : Event)
| Stored (st : gmap string string).

Definition step (w : World) (x : Step) : World :=
  match x with
  | Delivered ev => handle w ev
  | Stored st =>
      mkWorld (ws w) (url w) (reconnectAttempts w) (listeners w) st
              (sockets w) (timers w) (console w) (invoked w)
  end.

Definition steps (xs : list Step) (w : World) : World := fold_left step xs w.

End Platform.

(** The message types [handleMessage] routes. *)
Definition known_type (t : JSValue) : bool :=
  is_type t "driver_location_update" || is_type t "booking_update"
  || is_type t "schedule_status_update" || is_type t "notification".

(** The reconnection delays the spec lists. *)
Definition backoff_sequence : list Z := [1000; 2000; 4000; 8000; 16000]%Z.

(** What [handleReconnect] maintains as long as no channel opens: the
    delays armed so far are the first [reconnectAttempts] entries of the
    sequence. *)
Definition backoff_inv (w : World) : Prop :=
  (0 <= reconnectAttempts w <= 5)%Z /\
  scheduled_delays w = firstn (Z.to_nat (reconnectAttempts w)) backoff_sequence.

(** The state the constructor starts from, before its [this.connect()]. *)
Definition initial (st : gmap string string) : World :=
  mkWorld None "" 0 ∅ st [] [] [] [].

(** The spec's [ConnectionState].  The classes keep no such field; it is
    read off the service as follows: [Connected] and [Connecting] are the
    current channel being open or opening; otherwise [Reconnecting] when
    a reconnection timer is pending, [Failed] when none is pending and
    the attempts are used up, and [Disconnected] in the remaining case. *)
Inductive ConnectionState :=
| Disconnected | Connecting | Connected | Reconnecting | Failed.

Definition connectionState (w : World) : ConnectionState :=
  match current_readyState w with
  | Some OPEN => Connected
  | Some CONNECTING => Connecting
  | _ =>
      match pending_timers w with
      | _ :: _ => Reconnecting
      | [] =>
          if (maxReconnectAttempts <=? reconnectAttempts w)%Z then Failed
          else Disconnected
      end
  end.

(** [WebSocket.prototype.close] of the platform: starts the closing
    handshake of a channel that is opening or open; the [close] event
    ([SockClose]) comes later.  On a closing or closed channel it does
    nothing. *)
Definition socket_close (i : nat) (w : World) : World :=
  match sockets w !! i with
  | Some s =>
      match readyState s with
      | CONNECTING | OPEN => set_readyState i CLOSING w
      | _ => w
      end
  | None => w
  end.

(** [disconnect()]: [if (this.ws) { this.ws.close(); this.ws = null; }].
    The handlers installed on the channel stay installed. *)
Definition disconnect (w : World) : World :=
  match ws w with
  | Some i => set_ws None (socket_close i w)
  | None => w
  end.

(** The topic under which each inbound message type is re-emitted, in
    [handleMessage] and in the socket.io handlers alike. *)
Definition topic_of (name : string) : option string :=
  if String.eqb name "driver_location_update" then Some "location_update"
  else if String.eqb name "booking_update" then Some "booking_update"
  else if String.eqb name "schedule_status_update" then Some "schedule_update"
  else if String.eqb name "notification" then Some "notification"
  else None.

(** Every channel opened so far carries a token that is not empty and
    that was the access token of one of the stores in [seen]. *)
Definition channels_authorized (seen : list (gmap string string)) (w : World) : Prop :=
  Forall (fun s => sock_token s <> ""
                   /\ exists st, In st seen
                                 /\ st !! "access_token" = Some (sock_token s))
         (sockets w).

(** The contents [AsyncStorage] had during a run: at the start and
    after each write. *)
Definition stores_seen (st : gmap string string) (xs : list Step)
  : list (gmap string string) :=
  st :: omap (fun x => match x with Stored st' => Some st' | Delivered _ => None end) xs.

(** The timers that have fired. *)
Definition fired_timers (w : World) : list Timer :=
  List.filter fired (timers w).

End WS.

(** ** The request gateway ([frontend/shared/api.ts])

    The client built by [createApiClient] is asynchronous code: every
    [await] is a point where the function is suspended and another
    callback can run.  An asynchronous function is embedded as a program
    of the operations it awaits ([Prog]); [Gateway.run] executes a program
    to completion against a server, and [Gateway.advance] executes it up to
    its next network call, which is how overlapping calls are modelled. *)

Module Gateway.

(** An axios request config, with the fields this code reads or writes:
    the [Authorization] header and the [_retry] marker. *)
Record Config := mkConfig {
  cfg_method : string;
  cfg_url : string;
  cfg_data : JSValue;
  cfg_Authorization : option string;
  cfg_retry : bool
}.

Definition set_Authorization (h : string) (c : Config) : Config :=
  mkConfig (cfg_method c) (cfg_url c) (cfg_data c) (Some h) (cfg_retry c).
Definition set_retry (b : bool) (c : Config) : Config :=
  mkConfig (cfg_method c) (cfg_url c) (cfg_data c) (cfg_Authorization c) b.

(** A network call: a request sent by the client instance, or the
    [axios.post(`${API_BASE_URL}/auth/token/refresh/`, { refresh })] that
    the response interceptor makes with the global axios (no
    interceptors, no [Authorization] header). *)
Inductive NetCall :=
| ClientCall (config : Config)
| RefreshCall (refresh : string).

(** What comes back: a response with a status, or no response at all (a
    network error or the 10 s timeout; [error.response] is [undefined]). *)
Inductive HttpResult :=
| Response (status : Z) (data : JSON)
| NoResponse.

(** axios resolves a response whose status is 2xx and rejects any other. *)
Definition ok_status (status : Z) : bool :=
  ((200 <=? status) && (status <? 300))%Z.

(** The rejection axios produces: [error.config] and [error.response]. *)
Record AxiosError := mkError {
  err_config : Config;
  err_response : HttpResult
}.

(** [error.response?.status]. *)
Definition err_status (e : AxiosError) : option Z :=
  match err_response e with
  | Response status _ => Some status
  | NoResponse => None
  end.

Inductive Outcome :=
| Resolved (status : Z) (data : JSON)
| Rejected (error : AxiosError).

(** Programs over [AsyncStorage] and the network. *)
Inductive Prog (A : Type) : Type :=
| Ret (a : A)
| GetItem (key : string) (k : option string -> Prog A)
| SetItem (key value : string) (k : Prog A)
| MultiSet (entries : list (string * string)) (k : Prog A)
| MultiRemove (keys : list string) (k : Prog A)
| Net (call : NetCall) (k : HttpResult -> Prog A).
Arguments Ret {A} a.
Arguments GetItem {A} key k.
Arguments SetItem {A} key value k.
Arguments MultiSet {A} entries k.
Arguments MultiRemove {A} keys k.
Arguments Net {A} call k.

Fixpoint bind {A B} (p : Prog A) (f : A -> Prog B) : Prog B :=
  match p with
  | Ret a => f a
  | GetItem key k => GetItem key (fun v => bind (k v) f)
  | SetItem key value k => SetItem key value (bind k f)
  | MultiSet entries k => MultiSet entries (bind k f)
  | MultiRemove keys k => MultiRemove keys (bind k f)
  | Net call k => Net call (fun r => bind (k r) f)
  end.

Definition getItem (key : string) : Prog (option string) := GetItem key Ret.
Definition setItem (key value : string) : Prog unit := SetItem key value (Ret tt).
Definition multiSet (entries : list (string * string)) : Prog unit :=
  MultiSet entries (Ret tt).
Definition multiRemove (keys : list string) : Prog unit := MultiRemove keys (Ret tt).
Definition net (call : NetCall) : Prog HttpResult := Net call Ret.

#[global] Instance Prog_ret : MRet Prog := @Ret.
#[global] Instance Prog_bind : MBind Prog := fun A B f p => bind p f.

(** [const { access } = response.data] followed by
    [AsyncStorage.setItem('access_token', access)]: the token when the
    body is an object whose [access] is a string; [None] when the
    destructuring throws ([data] is [null]) or [setItem] rejects the
    value ([access] missing or not a string). *)
Definition access_of (data : JSON) : option string :=
  match get_prop data "access" with
  | Some (Some (JStr a)) => Some a
  | _ => None
  end.

Definition session_keys : list string := ["access_token"; "refresh_token"; "user"].

(** The request interceptor:
<<
    const token = await AsyncStorage.getItem('access_token');
    if (token) { config.headers.Authorization = `Bearer ${token}`; }
    return config;
>> *)
Definition with_stored_token (token : option string) (config : Config) : Config :=
  match token with
  | Some t =>
      if truthy token then set_Authorization ("Bearer " ++ t)%string config
      else config
  | None => config
  end.

(** The response interceptor, on a rejected request:
<<
    const originalRequest = error.config;
    if (error.response?.status === 401 && !originalRequest._retry) {
      originalRequest._retry = true;
      try {
        const refreshToken = await AsyncStorage.getItem('refresh_token');
        if (refreshToken) {
          const response = await axios.post(`${API_BASE_URL}/auth/token/refresh/`,
                                            { refresh: refreshToken });
          const { access } = response.data;
          await AsyncStorage.setItem('access_token', access);
          originalRequest.headers.Authorization = `Bearer ${access}`;
          return client(originalRequest);
        }
      } catch (refreshError) {
        await AsyncStorage.multiRemove(['access_token', 'refresh_token', 'user']);
      }
    }
    return Promise.reject(error);
>>
    [client] is the instance itself.  [return client(originalRequest)]
    returns the promise without awaiting it, so a rejection of the retried
    request is not caught by the [catch] block: it becomes the rejection
    of the whole call.  [originalRequest] and [error.config] are the same
    object, so the error carries the marker once it is set. *)
Definition on_rejected (client : Config -> Prog (option Outcome))
    (config : Config) (res : HttpResult) : Prog (option Outcome) :=
  let status := match res with Response st _ => Some st | NoResponse => None end in
  if bool_decide (status = Some 401%Z) && negb (cfg_retry config) then
    let originalRequest := set_retry true config in
    let error := mkError originalRequest res in
    let catch := multiRemove session_keys ;; mret (Some (Rejected error)) in
    refreshToken ← getItem "refresh_token" ;
    match refreshToken with
    | Some rt =>
        if truthy refreshToken then
          response ← net (RefreshCall rt) ;
          match response with
          | Response st data =>
              if ok_status st then
                match access_of data with
                | Some access =>
                    setItem "access_token" access ;;
                    client (set_Authorization ("Bearer " ++ access)%string originalRequest)
                | None => catch
                end
              else catch
          | NoResponse => catch
          end
        else mret (Some (Rejected error))
    | None => mret (Some (Rejected error))
    end
  else mret (Some (Rejected (mkError config res))).

(** The client instance: request interceptor, network, response
    interceptor.  The response interceptor uses the instance again for the
    retry, so the definition takes [fuel]; [None] is "out of fuel", which
    two units are shown to exclude. *)
Fixpoint client (fuel : nat) (config : Config) : Prog (option Outcome) :=
  match fuel with
  | O => mret None
  | S fuel' =>
      token ← getItem "access_token" ;
      let config := with_stored_token token config in
      res ← net (ClientCall config) ;
      match res with
      | Response status data =>
          if ok_status status then mret (Some (Resolved status data))
          else on_rejected (client fuel') config res
      | NoResponse => on_rejected (client fuel') config res
      end
  end.

(** Two units of fuel are enough (see [client_fuel]); the exported
    instance is [apiClient = createApiClient()]. *)
Definition apiClient (config : Config) : Prog (option Outcome) :=
  client 2 config.

Definition request (method url : string) (data : JSValue) : Config :=
  mkConfig method url data None false.

(** [ApiService.logout]:
<<
    await apiClient.post('/auth/logout/');
    await AsyncStorage.multiRemove(['access_token', 'refresh_token', 'user']);
>>
    A rejected [post] is a thrown exception at the first [await]: the
    second line does not run. *)
Definition ApiService_logout : Prog (option Outcome) :=
  r ← apiClient (request "post" "/auth/logout/" None) ;
  match r with
  | Some (Resolved status data) =>
      multiRemove session_keys ;; mret (Some (Resolved status data))
  | other => mret other
  end.

(** [storeAuthTokens], [storeUser], [clearStoredData]. *)
Definition storeAuthTokens (access refresh : string) : Prog unit :=
  multiSet [("access_token", access); ("refresh_token", refresh)].
Definition storeUser (user : string) : Prog unit :=
  setItem "user" user.
Definition clearStoredData : Prog unit :=
  multiRemove session_keys.

(** The environment of the gateway: the [AsyncStorage] entries and the
    network calls made so far, oldest first. *)
Record World := mkWorld {
  storage : gmap string string;
  netlog : list NetCall
}.

(** A server answers a call knowing the calls made before it. *)
Definition Server := list NetCall -> NetCall -> HttpResult.

Definition remove_keys (keys : list string) (st : gmap string string)
  : gmap string string :=
  foldr delete st keys.

Definition set_entries (entries : list (string * string)) (st : gmap string string)
  : gmap string string :=
  fold_left (fun m kv => <[kv.1 := kv.2]> m) entries st.

(** Runs a program to completion: storage operations act on [storage],
    a network call is logged and answered by the server. *)
Fixpoint run {A} (srv : Server) (p : Prog A) (w : World) : World * A :=
  match p with
  | Ret a => (w, a)
  | GetItem key k => run srv (k (storage w !! key)) w
  | SetItem key value k => run srv k (mkWorld (<[key := value]> (storage w)) (netlog w))
  | MultiSet entries k => run srv k (mkWorld (set_entries entries (storage w)) (netlog w))
  | MultiRemove keys k => run srv k (mkWorld (remove_keys keys (storage w)) (netlog w))
  | Net call k =>
      run srv (k (srv (netlog w) call)) (mkWorld (storage w) (netlog w ++ [call]))
  end.

(** A call that has been started: finished, or suspended at a network
    call whose answer has not arrived. *)
Inductive Task (A : Type) : Type :=
| Done (a : A)
| Awaiting (call : NetCall) (k : HttpResult -> Prog A).
Arguments Done {A} a.
Arguments Awaiting {A} call k.

(** Runs a program up to its next network call; the call is sent
    (logged) and the program is suspended on it. *)
Fixpoint advance {A} (p : Prog A) (w : World) : World * Task A :=
  match p with
  | Ret a => (w, Done a)
  | GetItem key k => advance (k (storage w !! key)) w
  | SetItem key value k => advance k (mkWorld (<[key := value]> (storage w)) (netlog w))
  | MultiSet entries k => advance k (mkWorld (set_entries entries (storage w)) (netlog w))
  | MultiRemove keys k => advance k (mkWorld (remove_keys keys (storage w)) (netlog w))
  | Net call k => (mkWorld (storage w) (netlog w ++ [call]), Awaiting call k)
  end.

(** The answer to the network call of a suspended task arrives. *)
Definition deliver {A} (r : HttpResult) (t : Task A) (w : World) : World * Task A :=
  match t with
  | Done a => (w, Done a)
  | Awaiting _ k => advance (k r) w
  end.

(** Overlapping calls: a pool of started tasks and a schedule that
    starts new calls and delivers answers to suspended ones. *)
Inductive Action (A : Type) : Type :=
| Start (p : Prog A)
| Deliver (i : nat) (r : HttpResult).
Arguments Start {A} p.
Arguments Deliver {A} i r.

Definition act {A} (wp : World * list (Task A)) (a : Action A)
  : World * list (Task A) :=
  let '(w, pool) := wp in
  match a with
  | Start p =>
      let '(w', t) := advance p w in (w', pool ++ [t])
  | Deliver i r =>
      match pool !! i with
      | Some t => let '(w', t') := deliver r t w in (w', <[i := t']> pool)
      | None => (w, pool)
      end
  end.

Definition schedule {A} (actions : list (Action A)) (wp : World * list (Task A))
  : World * list (Task A) :=
  fold_left act actions wp.

Definition is_refresh (c : NetCall) : bool :=
  match c with RefreshCall _ => true | ClientCall _ => false end.

(** The network refresh calls among [calls]. *)
Definition refresh_calls (calls : list NetCall) : list NetCall :=
  List.filter is_refresh calls.

(** The requests sent by the client instance among [calls]. *)
Definition client_calls (calls : list NetCall) : list Config :=
  omap (fun c => match c with ClientCall cfg => Some cfg | RefreshCall _ => None end)
       calls.

(** Both tokens stored, or neither. *)
Definition tokens_paired (st : gmap string string) : Prop :=
  is_Some (st !! "access_token") <-> is_Some (st !! "refresh_token").

(** The session operations of the gateway side: storing the tokens after
    a login or registration, storing the user, clearing, logging out, and
    any request sent through the client (which may take the refresh
    path).  [run_ops] is their use one after the other, each operation
    settled before the next is started; nothing in the code enforces
    that, and [overlapped] below is their use without it. *)
Inductive Op :=
| OpStoreAuthTokens (access refresh : string)
| OpStoreUser (user : string)
| OpClearStoredData
| OpLogout
| OpRequest (config : Config).

Definition run_op (srv : Server) (w : World) (op : Op) : World :=
  match op with
  | OpStoreAuthTokens a r => (run srv (storeAuthTokens a r) w).1
  | OpStoreUser u => (run srv (storeUser u) w).1
  | OpClearStoredData => (run srv clearStoredData w).1
  | OpLogout => (run srv ApiService_logout w).1
  | OpRequest config => (run srv (apiClient config) w).1
  end.

Definition run_ops (srv : Server) (ops : list Op) (w : World) : World :=
  fold_left (run_op srv) ops w.

(** The program of a session operation, its result dropped. *)
Definition op_prog (op : Op) : Prog unit :=
  match op with
  | OpStoreAuthTokens a r => storeAuthTokens a r
  | OpStoreUser u => storeUser u
  | OpClearStoredData => clearStoredData
  | OpLogout => ApiService_logout ;; mret tt
  | OpRequest config => apiClient config ;; mret tt
  end.

(** A started operation between two [await]s: it can go on, it waits for
    the answer to a network call, or it has ended. *)
Inductive Thread (A : Type) : Type :=
| Running (p : Prog A)
| Waiting (call : NetCall) (k : HttpResult -> Prog A)
| Ended (a : A).
Arguments Running {A} p.
Arguments Waiting {A} call k.
Arguments Ended {A} a.

(** Runs an operation up to its next [await]: one storage operation, or
    the sending of one network call. *)
Definition resume {A} (t : Thread A) (w : World) : World * Thread A :=
  match t with
  | Running (Ret a) => (w, Ended a)
  | Running (GetItem key k) => (w, Running (k (storage w !! key)))
  | Running (SetItem key value k) =>
      (mkWorld (<[key := value]> (storage w)) (netlog w), Running k)
  | Running (MultiSet entries k) =>
      (mkWorld (set_entries entries (storage w)) (netlog w), Running k)
  | Running (MultiRemove keys k) =>
      (mkWorld (remove_keys keys (storage w)) (netlog w), Running k)
  | Running (Net call k) =>
      (mkWorld (storage w) (netlog w ++ [call]), Waiting call k)
  | Waiting call k => (w, Waiting call k)
  | Ended a => (w, Ended a)
  end.

Fixpoint resume_n {A} (n : nat) (t : Thread A) (w : World) : World * Thread A :=
  match n with
  | O => (w, t)
  | S n' => let '(w', t') := resume t w in resume_n n' t' w'
  end.

(** Session operations that overlap.  Every [await] is a point where
    another operation can run: a new operation is started; or operation
    number [i] goes on for [n] steps, each up to its next [await]; or the
    answer to the network call that operation [i] waits for arrives.  Any
    number of operations can be under way, and answers can arrive in any
    order. *)
Inductive Overlap :=
| Begin (op : Op)
| Resume (i n : nat)
| Answer (i : nat) (r : HttpResult).

Definition overlap (wp : World * list (Thread unit)) (o : Overlap)
  : World * list (Thread unit) :=
  let '(w, pool) := wp in
  match o with
  | Begin op => (w, pool ++ [Running (op_prog op)])
  | Resume i n =>
      match pool !! i with
      | Some t => let '(w', t') := resume_n n t w in (w', <[i := t']> pool)
      | None => (w, pool)
      end
  | Answer i r =>
      match pool !! i with
      | Some (Waiting _ k) => (w, <[i := Running (k r)]> pool)
      | _ => (w, pool)
      end
  end.

Definition overlapped (os : list Overlap) (w : World) : World :=
  (fold_left overlap os (w, [])).1.

(** A stored refresh token comes with a stored access token. *)
Definition refresh_has_access (st : gmap string string) : Prop :=
  is_Some (st !! "refresh_token") -> is_Some (st !! "access_token").

(** The writes a program can make to [AsyncStorage] are of three kinds:
    [setItem] of a key other than 'refresh_token', [multiSet] of the two
    tokens together, and [multiRemove] of the three session keys. *)
Inductive session_writes {A : Type} : Prog A -> Prop :=
| sw_Ret a : session_writes (Ret a)
| sw_GetItem key k :
    (forall v, session_writes (k v)) -> session_writes (GetItem key k)
| sw_SetItem key value k :
    key <> "refresh_token" -> session_writes k -> session_writes (SetItem key value k)
| sw_MultiSet a r k :
    session_writes k ->
    session_writes (MultiSet [("access_token", a); ("refresh_token", r)] k)
| sw_MultiRemove k :
    session_writes k -> session_writes (MultiRemove session_keys k)
| sw_Net call k :
    (forall r, session_writes (k r)) -> session_writes (Net call k).

(** A started operation whose remaining writes are of these kinds. *)
Definition thread_session_writes {A : Type} (t : Thread A) : Prop :=
  match t with
  | Running p => session_writes p
  | Waiting _ k => forall r, session_writes (k r)
  | Ended _ => True
  end.

(** The calls made between two worlds. *)
Definition new_calls (w w' : World) : list NetCall :=
  drop (length (netlog w)) (netlog w').

(** The access token a refresh answer yields, if it yields one. *)
Definition refreshed_access (r : HttpResult) : option string :=
  match r with
  | Response st data => if ok_status st then access_of data else None
  | NoResponse => None
  end.

(** How a request that is not retried settles. *)
Definition settle (config : Config) (r : HttpResult) : Outcome :=
  match r with
  | Response st data =>
      if ok_status st then Resolved st data else Rejected (mkError config r)
  | NoResponse => Rejected (mkError config r)
  end.

(** Starts every call, in order, before any answer arrives. *)
Definition start_all {A} (ps : list (Prog A)) (w : World) : World * list (Task A) :=
  fold_left (fun wp p => let '(w', t) := advance p wp.1 in (w', wp.2 ++ [t]))
            ps (w, []).

(** Delivers to each suspended task, in order, the answer to its call. *)
Definition deliver_each {A} (rs : list HttpResult) (pool : list (Task A)) (w : World)
  : World * list (Task A) :=
  fold_left (fun wp rt => let '(w', t) := deliver rt.1 rt.2 wp.1 in (w', wp.2 ++ [t]))
            (zip rs pool) (w, []).

(** The task is suspended on this network call. *)
Definition awaiting {A} (call : NetCall) (t : Task A) : Prop :=
  match t with
  | Awaiting c _ => c = call
  | Done _ => False
  end.

(** A suspended task that, on a 401 answer, sends a refresh call with
    the stored token [rt] and suspends on it. *)
Definition refreshes_on_401 {A} (rt : string) (t : Task A) : Prop :=
  forall d w', storage w' !! "refresh_token" = Some rt ->
    exists k, deliver (Response 401 d) t w'
              = (mkWorld (storage w') (netlog w' ++ [RefreshCall rt]),
                 Awaiting (RefreshCall rt) k).

(** [getStoredTokens]:
<<
    const [access, refresh] = await AsyncStorage.multiGet(['access_token', 'refresh_token']);
    return { access: access[1], refresh: refresh[1] };
>>
    [multiGet] reads both keys in one storage operation; here the two
    reads follow each other with nothing in between. *)
Definition getStoredTokens : Prog (option string * option string) :=
  access ← getItem "access_token" ;
  refresh ← getItem "refresh_token" ;
  mret (access, refresh).

Section Parsing.

(** [JSON.parse(text)]: [None] when it throws. *)
Variable JSON_parse : string -> option JSON.

(** [getStoredUser]:
<<
    const userString = await AsyncStorage.getItem('user');
    return userString ? JSON.parse(userString) : null;
>>
    The result is [None] when [JSON.parse] throws. *)
Definition getStoredUser : Prog (option JSON) :=
  userString ← getItem "user" ;
  match userString with
  | Some text => if truthy userString then mret (JSON_parse text) else mret (Some JNull)
  | None => mret (Some JNull)
  end.

End Parsing.

End Gateway.



(** ** The session provider ([AuthProvider] in [frontend/shared/hooks.ts])

    The provider keeps the session in React state backed by
    [localStorage] ([useLocalStorage]) and talks to the server through the
    [api] object of [useApi].  Each of [login], [register] and
    [refreshToken] awaits exactly one [api.post]: it is embedded as the
    part that runs when it is called (up to the [await]) and the part that
    runs when the answer arrives. *)

Module Auth.

(** [AUTH_TOKEN_KEY], [REFRESH_TOKEN_KEY], [USER_DATA_KEY]
    ([frontend/shared/constants.ts]). *)
Definition AUTH_TOKEN_KEY : string := "twende_auth_token".
Definition REFRESH_TOKEN_KEY : string := "twende_refresh_token".
Definition USER_DATA_KEY : string := "twende_user_data".

(** [response.data] of the auth endpoints ([AuthResponse]); a field that
    is missing or [null] is [None]. *)
Record AuthResponse := mkAuthResponse {
  access : option string;
  refresh : option string;
  resp_user : JSValue
}.

(** How an [api.post] settles; a body that is not an object makes the
    property reads throw inside the same [try], which is the rejected
    case. *)
Inductive PostResult :=
| PostResolved (data : AuthResponse)
| PostRejected.

Record Post := mkPost { post_url : string; post_body : option string }.

(** The provider's state: [user], [isLoading], the three
    [useLocalStorage] cells with the [localStorage] entries behind them
    (an entry holds [JSON.stringify] of the value, represented by the
    value), and what the provider has done with the [api] object.

    [useApi] is not under [src/]: the [api] object is a parameter of the
    provider, and only the provider's calls on it are recorded.  The
    answers to [api.post] are given with each operation ([PostResult]);
    [posts] are the [api.post] calls made so far; [apiToken] is the
    argument of the last [api.setAuthToken] call, [None] before any such
    call and after a call of [api.clearAuthToken].  What the object does
    with the token is not modelled.  [errors_logged] counts the
    [console.error] calls. *)
Record State := mkState {
  user : JSValue;
  isLoading : bool;
  authToken : option string;
  refreshTokenValue : option string;
  userData : JSValue;
  localStorage : gmap string JSValue;
  apiToken : option string;
  posts : list Post;
  errors_logged : nat
}.

Definition initial : State :=
  mkState (Some JNull) true None None (Some JNull) ∅ None [] 0.

Definition json_of_token (v : option string) : JSValue :=
  match v with
  | Some s => Some (JStr s)
  | None => Some JNull
  end.

Definition setUser (v : JSValue) (s : State) : State :=
  mkState v (isLoading s) (authToken s) (refreshTokenValue s) (userData s)
          (localStorage s) (apiToken s) (posts s) (errors_logged s).
Definition setIsLoading (v : bool) (s : State) : State :=
  mkState (user s) v (authToken s) (refreshTokenValue s) (userData s)
          (localStorage s) (apiToken s) (posts s) (errors_logged s).

(** The setters returned by [useLocalStorage]:
    [setStoredValue(v); window.localStorage.setItem(key, JSON.stringify(v))]. *)
Definition setAuthToken (v : option string) (s : State) : State :=
  mkState (user s) (isLoading s) v (refreshTokenValue s) (userData s)
          (<[AUTH_TOKEN_KEY := json_of_token v]> (localStorage s))
          (apiToken s) (posts s) (errors_logged s).
Definition setRefreshTokenValue (v : option string) (s : State) : State :=
  mkState (user s) (isLoading s) (authToken s) v (userData s)
          (<[REFRESH_TOKEN_KEY := json_of_token v]> (localStorage s))
          (apiToken s) (posts s) (errors_logged s).
Definition setUserData (v : JSValue) (s : State) : State :=
  mkState (user s) (isLoading s) (authToken s) (refreshTokenValue s) v
          (<[USER_DATA_KEY := v]> (localStorage s))
          (apiToken s) (posts s) (errors_logged s).

(** The calls [api.setAuthToken(v)], [api.clearAuthToken()] and
    [api.post(url, body)], recorded as said above. *)
Definition api_setAuthToken (v : string) (s : State) : State :=
  mkState (user s) (isLoading s) (authToken s) (refreshTokenValue s) (userData s)
          (localStorage s) (Some v) (posts s) (errors_logged s).
Definition api_clearAuthToken (s : State) : State :=
  mkState (user s) (isLoading s) (authToken s) (refreshTokenValue s) (userData s)
          (localStorage s) None (posts s) (errors_logged s).
Definition api_post (url : string) (body : option string) (s : State) : State :=
  mkState (user s) (isLoading s) (authToken s) (refreshTokenValue s) (userData s)
          (localStorage s) (apiToken s) (posts s ++ [mkPost url body]) (errors_logged s).
Definition console_error (s : State) : State :=
  mkState (user s) (isLoading s) (authToken s) (refreshTokenValue s) (userData s)
          (localStorage s) (apiToken s) (posts s) (S (errors_logged s)).

(** [clearAuth]:
    [setUser(null); setAuthToken(null); setRefreshTokenValue(null); setUserData(null);] *)
Definition clearAuth (s : State) : State :=
  setUserData (Some JNull)
    (setRefreshTokenValue None
       (setAuthToken None
          (setUser (Some JNull) s))).

(** [login(credentials)] up to [await api.post('/auth/login/', credentials)]. *)
Definition login_call (credentials : string) (s : State) : State :=
  api_post "/auth/login/" (Some credentials) (setIsLoading true s).

(** The rest of [login] and of [register], which have the same text:
    store both tokens and the user when the body has both tokens, throw
    otherwise; [catch] logs and rethrows; [finally] clears [isLoading]. *)
Definition session_settle (r : PostResult) (s : State) : Completion State :=
  match r with
  | PostResolved data =>
      match access data, refresh data with
      | Some a, Some rf =>
          if truthy (access data) && truthy (refresh data) then
            Normal (setIsLoading false
                      (api_setAuthToken a
                         (setUser (resp_user data)
                            (setUserData (resp_user data)
                               (setRefreshTokenValue (Some rf)
                                  (setAuthToken (Some a) s))))))
          else
            Thrown "Invalid response from server" (setIsLoading false (console_error s))
      | _, _ =>
          Thrown "Invalid response from server" (setIsLoading false (console_error s))
      end
  | PostRejected =>
      Thrown "request failed" (setIsLoading false (console_error s))
  end.

Definition login_settle := session_settle.

(** [register(data)] up to [await api.post('/auth/register/', data)]. *)
Definition register_call (data : string) (s : State) : State :=
  api_post "/auth/register/" (Some data) (setIsLoading true s).

Definition register_settle := session_settle.

(** [logout]:
<<
    try { api.post('/auth/logout/').catch(console.error); }
    catch (error) { console.error('Logout error:', error); }
    finally { clearAuth(); api.clearAuthToken(); }
>>
    The request is not awaited: the function clears the session in the
    same turn, whatever the server later answers. *)
Definition logout (s : State) : State :=
  api_clearAuthToken (clearAuth (api_post "/auth/logout/" None s)).

(** The answer to the logout request arrives: a rejection is passed to
    [console.error], nothing else happens. *)
Definition logout_settle (r : PostResult) (s : State) : State :=
  match r with
  | PostResolved _ => s
  | PostRejected => console_error s
  end.

(** The [catch] block of [refreshToken]:
    [console.error(...); clearAuth(); api.clearAuthToken(); throw error;] *)
Definition refresh_failed (e : string) (s : State) : Completion State :=
  Thrown e (api_clearAuthToken (clearAuth (console_error s))).

(** A call of [refreshToken] that has not finished is waiting for the
    answer to its own [api.post]. *)
Inductive Started :=
| Pending (s : State)
| Finished (c : Completion State).

(** [refreshToken()] up to
    [await api.post('/auth/refresh/', { refresh: refreshTokenValue })]:
    without a refresh token it throws into its own [catch]; otherwise it
    sends the request. *)
Definition refreshToken_call (s : State) : Started :=
  if truthy (refreshTokenValue s) then
    Pending (api_post "/auth/refresh/" (refreshTokenValue s) s)
  else
    Finished (refresh_failed "No refresh token available" s).

(** The rest of [refreshToken], when the answer arrives. *)
Definition refreshToken_settle (r : PostResult) (s : State) : Completion State :=
  match r with
  | PostResolved data =>
      match access data with
      | Some a =>
          if truthy (access data) then
            Normal (api_setAuthToken a
                      (setUser (resp_user data)
                         (setUserData (resp_user data)
                            (setAuthToken (Some a) s))))
          else refresh_failed "Invalid refresh response" s
      | None => refresh_failed "Invalid refresh response" s
      end
  | PostRejected => refresh_failed "request failed" s
  end.

(** [refreshToken] run without anything else in between. *)
Definition refreshToken (r : PostResult) (s : State) : Completion State :=
  match refreshToken_call s with
  | Pending s' => refreshToken_settle r s'
  | Finished c => c
  end.

(** [n] calls of [refreshToken] made one after the other before any
    answer arrives; returns the state and how many calls are pending. *)
Fixpoint refreshToken_calls (n : nat) (s : State) : State * nat :=
  match n with
  | O => (s, O)
  | S n' =>
      match refreshToken_call s with
      | Pending s' => let '(s'', k) := refreshToken_calls n' s' in (s'', S k)
      | Finished c => refreshToken_calls n' (state_of c)
      end
  end.

(** The [api.post] calls to the refresh endpoint. *)
Definition refresh_posts (s : State) : list Post :=
  List.filter (fun p => String.eqb (post_url p) "/auth/refresh/") (posts s).

(** The session operations, each with the answer the server gives it.
    [run_ops] is their use one after the other, each operation settled
    before the next is called; [turns] below is their use when they
    overlap. *)
Inductive Op :=
| OpLogin (credentials : string) (r : PostResult)
| OpRegister (data : string) (r : PostResult)
| OpRefresh (r : PostResult)
| OpLogout (r : PostResult)
| OpClearAuth.

Definition run_op (s : State) (op : Op) : State :=
  match op with
  | OpLogin c r => state_of (login_settle r (login_call c s))
  | OpRegister d r => state_of (register_settle r (register_call d s))
  | OpRefresh r => state_of (refreshToken r s)
  | OpLogout r => logout_settle r (logout s)
  | OpClearAuth => clearAuth s
  end.

Definition run_ops (ops : list Op) (s : State) : State :=
  fold_left run_op ops s.

(** Both tokens held, or neither. *)
Definition tokens_paired (s : State) : Prop :=
  is_Some (authToken s) <-> is_Some (refreshTokenValue s).

(** The persisted session is empty: the three entries, read back through
    [useLocalStorage], are [null]. *)
Definition store_cleared (s : State) : Prop :=
  authToken s = None /\ refreshTokenValue s = None /\ userData s = Some JNull /\
  localStorage s !! AUTH_TOKEN_KEY = Some (Some JNull) /\
  localStorage s !! REFRESH_TOKEN_KEY = Some (Some JNull) /\
  localStorage s !! USER_DATA_KEY = Some (Some JNull).

(** What the session operations maintain: either no token is held, or
    both are held and neither is the empty string. *)
Definition session_inv (s : State) : Prop :=
  (authToken s = None /\ refreshTokenValue s = None)
  \/ (truthy (authToken s) = true /\ truthy (refreshTokenValue s) = true).

(** The answer does not carry both tokens, or the request was rejected. *)
Definition session_refused (r : PostResult) : Prop :=
  match r with
  | PostResolved data => truthy (access data) && truthy (refresh data) = false
  | PostRejected => True
  end.

(** The two states hold the same session: user, tokens, stored entries
    and the token the [api] object sends. *)
Definition same_session (s s' : State) : Prop :=
  user s' = user s /\ authToken s' = authToken s
  /\ refreshTokenValue s' = refreshTokenValue s /\ userData s' = userData s
  /\ localStorage s' = localStorage s /\ apiToken s' = apiToken s.

(** Session operations that overlap.  [login], [register] and
    [refreshToken] stop at their [await api.post(...)]; until the answer
    arrives any other operation can be called, and answers can arrive in
    any order.  A turn is the part of an operation that runs without
    interruption: a call up to its [await], or the rest of a call once its
    answer is there. *)
Inductive Turn :=
| LoginCalled (credentials : string)
| LoginAnswered (r : PostResult)
| RegisterCalled (data : string)
| RegisterAnswered (r : PostResult)
| RefreshCalled
| RefreshAnswered (r : PostResult)
| LogoutCalled
| LogoutAnswered (r : PostResult)
| ClearAuthCalled.

Definition turn (s : State) (t : Turn) : State :=
  match t with
  | LoginCalled c => login_call c s
  | LoginAnswered r => state_of (login_settle r s)
  | RegisterCalled d => register_call d s
  | RegisterAnswered r => state_of (register_settle r s)
  | RefreshCalled =>
      match refreshToken_call s with
      | Pending s' => s'
      | Finished c => state_of c
      end
  | RefreshAnswered r => state_of (refreshToken_settle r s)
  | LogoutCalled => logout s
  | LogoutAnswered r => logout_settle r s
  | ClearAuthCalled => clearAuth s
  end.

Definition turns (ts : list Turn) (s : State) : State := fold_left turn ts s.

(** A refresh token held comes with an access token held. *)
Definition refresh_has_access (s : State) : Prop :=
  is_Some (refreshTokenValue s) -> is_Some (authToken s).

End Auth.

(** ** Token utilities ([isTokenExpired], [getTokenExpiration],
    [getTokenTimeUntilExpiry])

    All three start with
    [const payload = JSON.parse(atob(token.split('.')[1]));] inside a
    [try] whose [catch] returns the fallback value. *)

Module Jwt.

(** A JavaScript number, as far as this code needs it: [NaN] or a
    finite value. *)
Inductive Num := NaN | Fin (q : Q).

(** [a < b] on numbers: [false] when either is [NaN]. *)
Definition num_lt (a b : Num) : bool :=
  match a, b with
  | Fin x, Fin y => negb (Qle_bool y x)
  | _, _ => false
  end.

Definition num_sub (a b : Num) : Num :=
  match a, b with
  | Fin x, Fin y => Fin (x - y)
  | _, _ => NaN
  end.

Definition num_mul (a b : Num) : Num :=
  match a, b with
  | Fin x, Fin y => Fin (x * y)
  | _, _ => NaN
  end.

(** [Math.max(a, b)]: [NaN] when either is [NaN]. *)
Definition Math_max (a b : Num) : Num :=
  match a, b with
  | Fin x, Fin y => Fin (if Qle_bool x y then y else x)
  | _, _ => NaN
  end.

(** A [Date] object: its time value; [NaN] is "Invalid Date".
    [new Date(v)] clips: beyond 8.64e15 ms it is invalid, otherwise the
    value is truncated to an integer. *)
Record Date := mkDate { time_value : Num }.

Definition TimeClip (v : Num) : Num :=
  match v with
  | NaN => NaN
  | Fin q =>
      if Qle_bool (Qabs.Qabs q) (inject_Z 8640000000000000) then
        Fin (inject_Z (Z.quot (Qnum q) (Zpos (Qden q))))
      else NaN
  end.

(** [s.split(sep)] for a one-character separator. *)
Fixpoint split_on (sep : Ascii.ascii) (s : string) : list string :=
  match s with
  | EmptyString => [EmptyString]
  | String c rest =>
      let segs := split_on sep rest in
      if Ascii.eqb c sep then EmptyString :: segs
      else
        match segs with
        | seg :: more => String c seg :: more
        | [] => [String c EmptyString]
        end
  end.

Section Platform.

(** [atob(text)]: [None] when it throws. *)
Variable atob : string -> option string.
(** [JSON.parse(text)]: [None] when it throws. *)
Variable JSON_parse : string -> option JSON.
(** [ToNumber] of a string, an array or an object. *)
Variable to_number_other : JSON -> Num.

(** [ToNumber(v)], used by [<], [-] and [*]. *)
Definition ToNumber (v : JSValue) : Num :=
  match v with
  | None => NaN
  | Some JNull => Fin 0
  | Some (JBool b) => Fin (if b then 1 else 0)
  | Some (JNum q) => Fin q
  | Some other => to_number_other other
  end.

(** [JSON.parse(atob(token.split('.')[1])).exp]; [None] when any step
    throws.  A token without a dot gives [atob(undefined)], which is
    [atob("undefined")]. *)
Definition payload_exp (token : string) : option JSValue :=
  let segment :=
    match split_on "."%char token !! 1%nat with
    | Some seg => seg
    | None => "undefined"
    end in
  match atob segment with
  | None => None
  | Some text =>
      match JSON_parse text with
      | None => None
      | Some payload => get_prop payload "exp"
      end
  end.

(** [currentTime] is [Date.now() / 1000].
<<
  try { ...; return payload.exp < currentTime; } catch (error) { return true; }
>> *)
Definition isTokenExpired (currentTime : Q) (token : string) : bool :=
  match payload_exp token with
  | Some exp => num_lt (ToNumber exp) (Fin currentTime)
  | None => true
  end.

(** [try { ...; return new Date(payload.exp * 1000); } catch (error) { return null; }] *)
Definition getTokenExpiration (token : string) : option Date :=
  match payload_exp token with
  | Some exp => Some (mkDate (TimeClip (num_mul (ToNumber exp) (Fin 1000))))
  | None => None
  end.

(** [try { ...; return Math.max(0, payload.exp - currentTime); } catch (error) { return 0; }] *)
Definition getTokenTimeUntilExpiry (currentTime : Q) (token : string) : Num :=
  match payload_exp token with
  | Some exp => Math_max (Fin 0) (num_sub (ToNumber exp) (Fin currentTime))
  | None => Fin 0
  end.

(** The token decodes to a payload whose [exp] is a number. *)
Definition has_numeric_exp (token : string) : Prop :=
  exists q, payload_exp token = Some (Some (JNum q)).

End Platform.

Definition non_negative (n : Num) : Prop :=
  match n with
  | Fin q => (0 <= q)%Q
  | NaN => False
  end.

(** The text handed to [atob]: the second segment of the token, or
    "undefined" when there is none. *)
Definition payload_segment (token : string) : string :=
  match split_on "."%char token !! 1%nat with
  | Some seg => seg
  | None => "undefined"
  end.

End Jwt.

(** ** JavaScript truthiness and optional reads on values *)

(** Truthiness of a value, as [||] and [if] see it. *)
Definition js_truthy (v : JSValue) : bool :=
  match v with
  | None => false
  | Some JNull => false
  | Some (JBool b) => b
  | Some (JNum q) => negb (Qeq_bool q 0)
  | Some (JStr s) => negb (String.eqb s "")
  | Some (JArr _) => true
  | Some (JObj _) => true
  end.

(** [a || b]: the first operand when it is truthy, the second otherwise. *)
Definition js_or (a b : JSValue) : JSValue :=
  if js_truthy a then a else b.

(** [v?.name] for the names [message], [detail] and [code]: [undefined]
    when [v] is [null] or [undefined] or has no such field. *)
Definition opt_prop (v : JSValue) (name : string) : JSValue :=
  match v with
  | Some (JObj fields) => lookup_field name fields
  | _ => None
  end.

(** ** [handleApiError] ([frontend/shared/api.ts]) *)

Module ApiErrors.

(** The error as [handleApiError] reads it: [error.response] (absent, or
    present with its [data]), whether [error.request] is set, and
    [error.message]. *)
Record ErrorObject := mkErrorObject {
  response_data : option JSValue;
  has_request : bool;
  message : JSValue
}.

(** The [ApiError] it returns. *)
Record ApiError := mkApiError {
  api_message : JSValue;
  api_code : JSValue;
  api_details : JSValue
}.

(** [handleApiError]:
<<
    if (error.response) {
      return { message: error.response.data?.message || error.response.data?.detail
                        || 'An error occurred',
               code: error.response.data?.code, details: error.response.data };
    } else if (error.request) {
      return { message: 'Network error. Please check your connection.',
               code: 'NETWORK_ERROR' };
    } else {
      return { message: error.message || 'An unexpected error occurred',
               code: 'UNKNOWN_ERROR' };
    }
>> *)
Definition handleApiError (error : ErrorObject) : ApiError :=
  match response_data error with
  | Some data =>
      mkApiError
        (js_or (js_or (opt_prop data "message") (opt_prop data "detail"))
               (Some (JStr "An error occurred")))
        (opt_prop data "code")
        data
  | None =>
      if has_request error then
        mkApiError (Some (JStr "Network error. Please check your connection."))
                   (Some (JStr "NETWORK_ERROR")) None
      else
        mkApiError (js_or (message error) (Some (JStr "An unexpected error occurred")))
                   (Some (JStr "UNKNOWN_ERROR")) None
  end.

(** The rejection of a request sent by the client, as an error object:
    axios sets [error.response] when the server answered and
    [error.request] whenever the request was sent. *)
Definition of_axios (e : Gateway.AxiosError) (msg : JSValue) : ErrorObject :=
  match Gateway.err_response e with
  | Gateway.Response _ data => mkErrorObject (Some (Some data)) true msg
  | Gateway.NoResponse => mkErrorObject None true msg
  end.

End ApiErrors.

(** ** Session utilities on [localStorage] ([frontend/shared/hooks.ts],
    "Utility functions for authentication" and "Session management")

    These read and write [localStorage] directly, as text. *)

Module Session.

Import Auth.

(** [isAuthenticated()]: [!!localStorage.getItem(AUTH_TOKEN_KEY)]. *)
Definition isAuthenticated (ls : gmap string string) : bool :=
  truthy (ls !! AUTH_TOKEN_KEY).

Definition getAuthToken (ls : gmap string string) : option string :=
  ls !! AUTH_TOKEN_KEY.

Definition getRefreshToken (ls : gmap string string) : option string :=
  ls !! REFRESH_TOKEN_KEY.

(** [clearAuthStorage()]: three [removeItem]; [endSession()] calls it. *)
Definition clearAuthStorage (ls : gmap string string) : gmap string string :=
  delete USER_DATA_KEY (delete REFRESH_TOKEN_KEY (delete AUTH_TOKEN_KEY ls)).

Definition endSession (ls : gmap string string) : gmap string string :=
  clearAuthStorage ls.

(** What [getSessionInfo] returns. *)
Record SessionInfo := mkSessionInfo {
  info_user : JSON;
  info_token : option string;
  info_refreshToken : option string;
  info_isExpired : bool
}.

Section Platform.

Variable atob : string -> option string.
Variable JSON_parse : string -> option JSON.
Variable JSON_stringify : JSValue -> string.
Variable to_number_other : JSON -> Jwt.Num.

(** [getUserData()]:
    [const userData = localStorage.getItem(USER_DATA_KEY);
     return userData ? JSON.parse(userData) : null;]
    [None] when [JSON.parse] throws. *)
Definition getUserData (ls : gmap string string) : option JSON :=
  match ls !! USER_DATA_KEY with
  | Some text => if truthy (Some text) then JSON_parse text else Some JNull
  | None => Some JNull
  end.

(** [startSession(user, token, refreshToken)]: three [setItem], the user
    as [JSON.stringify(user)], the tokens as they are. *)
Definition startSession (user : JSON) (token refreshToken : string)
    (ls : gmap string string) : gmap string string :=
  <[USER_DATA_KEY := JSON_stringify (Some user)]>
    (<[REFRESH_TOKEN_KEY := refreshToken]>
       (<[AUTH_TOKEN_KEY := token]> ls)).

(** [getSessionInfo()]:
<<
    const user = getUserData();
    const token = getAuthToken();
    const refreshToken = getRefreshToken();
    const isExpired = token ? isTokenExpired(token) : true;
    return { user, token, refreshToken, isExpired };
>>
    [None] when [getUserData] throws. *)
Definition getSessionInfo (currentTime : Q) (ls : gmap string string)
  : option SessionInfo :=
  match getUserData ls with
  | Some user =>
      let token := getAuthToken ls in
      let isExpired :=
        match token with
        | Some t =>
            if truthy token then
              Jwt.isTokenExpired atob JSON_parse to_number_other currentTime t
            else true
        | None => true
        end in
      Some (mkSessionInfo user token (getRefreshToken ls) isExpired)
  | None => None
  end.

(** The text [localStorage] holds behind the provider's
    [useLocalStorage] cells: [JSON.stringify] of each value. *)
Definition persisted (s : Auth.State) : gmap string string :=
  JSON_stringify <$> Auth.localStorage s.

End Platform.

(** The [isAuthenticated] the provider publishes: [!!user && !!authToken]. *)
Definition provider_isAuthenticated (s : Auth.State) : bool :=
  js_truthy (Auth.user s) && truthy (Auth.authToken s).

End Session.

(** ** Roles and permissions ([frontend/shared/hooks.ts], "Role-based
    access control utilities") *)

Module Access.

(** A user, as far as these functions read it: [user.role]. *)
Record User := mkUser { role : string }.

(** [hasRole]: [user?.role === role]. *)
Definition hasRole (user : option User) (r : string) : bool :=
  match user with
  | Some u => String.eqb (role u) r
  | None => false
  end.

(** [hasAnyRole]: [user ? roles.includes(user.role) : false]. *)
Definition hasAnyRole (user : option User) (roles : list string) : bool :=
  match user with
  | Some u => existsb (String.eqb (role u)) roles
  | None => false
  end.

Definition isRider (user : option User) : bool := hasRole user "RIDER".
Definition isDriver (user : option User) : bool := hasRole user "DRIVER".
Definition isAdmin (user : option User) : bool := hasRole user "ADMIN".
Definition isCorporateAdmin (user : option User) : bool := hasRole user "CORP_ADMIN".

(** The table inside [canAccess]. *)
Definition permissions : list (string * list string) :=
  [("bookings.create", ["RIDER"]);
   ("bookings.view", ["RIDER"; "DRIVER"; "ADMIN"]);
   ("bookings.cancel", ["RIDER"]);
   ("bookings.checkin", ["DRIVER"; "ADMIN"]);
   ("subscriptions.manage", ["RIDER"; "ADMIN"]);
   ("routes.manage", ["ADMIN"]);
   ("schedules.manage", ["ADMIN"]);
   ("vehicles.manage", ["ADMIN"]);
   ("drivers.manage", ["ADMIN"]);
   ("analytics.view", ["ADMIN"]);
   ("corporate.manage", ["CORP_ADMIN"; "ADMIN"]);
   ("payments.process", ["ADMIN"]);
   ("notifications.send", ["ADMIN"])].

Fixpoint own_entry (name : string) (table : list (string * list string))
  : option (list string) :=
  match table with
  | [] => None
  | (k, v) :: rest => if String.eqb k name then Some v else own_entry name rest
  end.

Section Prototype.

(** The property names every object inherits from [Object.prototype]
    ([constructor], [toString], ...): reading one from the table gives a
    function or an object, which is truthy and has no [includes]. *)
Variable inherited : string -> bool.

(** [canAccess]:
<<
    if (!user) return false;
    const permissions = { ... };
    const allowedRoles = permissions[permission] || [];
    return allowedRoles.includes(user.role);
>>
    [None] is the [TypeError] of calling [includes] on an inherited
    property. *)
Definition canAccess (user : option User) (permission : string) : option bool :=
  match user with
  | None => Some false
  | Some u =>
      match own_entry permission permissions with
      | Some allowedRoles => Some (existsb (String.eqb (role u)) allowedRoles)
      | None => if inherited permission then None else Some false
      end
  end.

(** [requireAuth], [requireRole], [requirePermission]. *)
Definition requireAuth (user : option User) : bool :=
  match user with Some _ => true | None => false end.
Definition requireRole (user : option User) (r : string) : bool := hasRole user r.
Definition requirePermission (user : option User) (permission : string) : option bool :=
  canAccess user permission.

End Prototype.

End Access.

(** ** [usePagination] and [useForm] ([frontend/shared/hooks.ts])

    A hook is embedded as its state and the functions it returns.  The
    functions are closures of a render: they keep the values that render
    computed.  [nextPage], [previousPage] and [goToPage] below are the
    functions of the render that shows the state they are applied to (one
    call, then a new render); [call] and [handler] give the general case,
    several calls from one render.

    [page], [pageSize] and [total] are JavaScript numbers.  They are
    embedded as integers.  On integers of magnitude below 2^53 this is
    what the code computes: their sums, differences and comparisons are
    exact in doubles, and so is [Math.ceil(total / pageSize)] (the quotient
    is rounded by less than [1 / pageSize], too little to reach the next
    integer).  Fractional numbers, which [goToPage] and the setters also
    accept, and larger ones are outside the embedding: [safe_integers]
    is the condition, and the properties that depend on it assume it. *)

Module Pagination.

(** The value of [total / pageSize] rounded up: a number, an infinity
    (division of a non-zero total by zero) or [NaN] (zero by zero). *)
Inductive Pages := Finite (z : Z) | PlusInfinity | MinusInfinity | NotANumber.

(** [page], [pageSize], [total]. *)
Record State := mkState { page : Z; pageSize : Z; total : Z }.

(** The three numbers are integers that doubles hold exactly, with room
    for one step. *)
Definition safe_integers (s : State) : Prop :=
  (Z.abs (page s) < 2 ^ 53 /\ Z.abs (pageSize s) < 2 ^ 53
   /\ Z.abs (total s) < 2 ^ 53)%Z.

(** [usePagination(initialPage = 1, initialPageSize = 20)]. *)
Definition initial (initialPage initialPageSize : Z) : State :=
  mkState initialPage initialPageSize 0.

(** [Math.ceil(total / pageSize)]. *)
Definition totalPages (s : State) : Pages :=
  if (pageSize s =? 0)%Z then
    if (total s =? 0)%Z then NotANumber
    else if (0 <? total s)%Z then PlusInfinity else MinusInfinity
  else Finite (- ((- total s) / pageSize s))%Z.

(** [x < pages] and [x <= pages]. *)
Definition lt_pages (x : Z) (p : Pages) : bool :=
  match p with
  | Finite z => (x <? z)%Z
  | PlusInfinity => true
  | _ => false
  end.

Definition le_pages (x : Z) (p : Pages) : bool :=
  match p with
  | Finite z => (x <=? z)%Z
  | PlusInfinity => true
  | _ => false
  end.

(** [hasNextPage = page < totalPages], [hasPreviousPage = page > 1]. *)
Definition hasNextPage (s : State) : bool := lt_pages (page s) (totalPages s).
Definition hasPreviousPage (s : State) : bool := (1 <? page s)%Z.

Definition setPage (v : Z) (s : State) : State := mkState v (pageSize s) (total s).
Definition setPageSize (v : Z) (s : State) : State := mkState (page s) v (total s).
Definition setTotal (v : Z) (s : State) : State := mkState (page s) (pageSize s) v.

(** [nextPage]: [if (hasNextPage) setPage(prev => prev + 1)], called
    from the render of [s]; likewise the next two. *)
Definition nextPage (s : State) : State :=
  if hasNextPage s then setPage (page s + 1)%Z s else s.

(** [previousPage]: [if (hasPreviousPage) setPage(prev => prev - 1)]. *)
Definition previousPage (s : State) : State :=
  if hasPreviousPage s then setPage (page s - 1)%Z s else s.

(** [goToPage(pageNumber)]:
    [if (pageNumber >= 1 && pageNumber <= totalPages) setPage(pageNumber)]. *)
Definition goToPage (pageNumber : Z) (s : State) : State :=
  if (1 <=? pageNumber)%Z && le_pages pageNumber (totalPages s)
  then setPage pageNumber s else s.

(** The three ways to move between pages. *)
Inductive Move := Next | Previous | GoTo (pageNumber : Z).

Definition move (s : State) (m : Move) : State :=
  match m with
  | Next => nextPage s
  | Previous => previousPage s
  | GoTo n => goToPage n s
  end.

Definition moves (ms : list Move) (s : State) : State := fold_left move ms s.

(** What a render computes from the state.  The callbacks it returns
    keep these values ([useCallback] with [hasNextPage], [hasPreviousPage]
    and [totalPages] as dependencies), while the update
    [setPage(prev => prev + 1)] applies to the page at the time of the
    update. *)
Record Render := mkRender {
  seen_totalPages : Pages;
  seen_hasNextPage : bool;
  seen_hasPreviousPage : bool
}.

Definition render (s : State) : Render :=
  mkRender (totalPages s) (hasNextPage s) (hasPreviousPage s).

(** A call of [nextPage], [previousPage] or [goToPage] of the render [r]
    when the state is [s]. *)
Definition call (r : Render) (s : State) (m : Move) : State :=
  match m with
  | Next => if seen_hasNextPage r then setPage (page s + 1)%Z s else s
  | Previous => if seen_hasPreviousPage r then setPage (page s - 1)%Z s else s
  | GoTo pageNumber =>
      if (1 <=? pageNumber)%Z && le_pages pageNumber (seen_totalPages r)
      then setPage pageNumber s else s
  end.

(** An event handler calls functions of the render it belongs to; React
    applies the updates in order and renders again when the handler is
    done. *)
Definition handler (s : State) (ms : list Move) : State :=
  fold_left (call (render s)) ms s.

Definition handlers (hs : list (list Move)) (s : State) : State :=
  fold_left handler hs s.

(** The page is between 1 and the number of pages. *)
Definition in_range (s : State) : Prop :=
  (1 <= page s)%Z /\ le_pages (page s) (totalPages s) = true.

End Pagination.

Module Form.

(** What a rule is given.  [values[field]] is a read on a plain object:
    the field's own value, [undefined], or, for a name the object does not
    own but inherits from [Object.prototype] ('toString', 'constructor',
    ...), the inherited member, a function. *)
Inductive Arg :=
| Value (v : JSValue)
| Member (name : string).

(** A validation rule: from what is read to a message or [undefined]. *)
Definition Rule := Arg -> option string.

Section Prototype.

(** [field] names a member of [Object.prototype]. *)
Variable inherited : string -> bool.

(** [values[field]]. *)
Definition read (values : gmap string JSON) (field : string) : Arg :=
  match values !! field with
  | Some v => Value (Some v)
  | None => if inherited field then Member field else Value None
  end.

(** [newErrors[field] = error] on the plain object [newErrors]: an own
    entry, except for the name '__proto__', whose setter ignores a value
    that is not an object. *)
Definition set_error (field error : string) (newErrors : gmap string string)
  : gmap string string :=
  if String.eqb field "__proto__" then newErrors else <[field := error]> newErrors.

(** [validate(validationRules)] of [useForm]:
<<
    const newErrors = {};
    Object.keys(validationRules).forEach(key => {
      const rule = validationRules[key];
      if (rule) {
        const error = rule(values[key]);
        if (error) { newErrors[key] = error; }
      }
    });
    setErrors(newErrors);
    return Object.keys(newErrors).length === 0;
>>
    [validationRules] is the list of its own entries, in key order; an
    entry may hold [undefined].  Returns the new [errors] and the
    result. *)
Definition collect_errors (rules : list (string * option Rule))
    (values : gmap string JSON) : gmap string string :=
  fold_left
    (fun newErrors entry =>
       match entry.2 with
       | Some rule =>
           match rule (read values entry.1) with
           | Some error =>
               if truthy (Some error) then set_error entry.1 error newErrors
               else newErrors
           | None => newErrors
           end
       | None => newErrors
       end)
    rules ∅.

Definition validate (rules : list (string * option Rule))
    (values : gmap string JSON) : gmap string string * bool :=
  let newErrors := collect_errors rules values in
  (newErrors, bool_decide (size newErrors = 0)).

(** The rule of an entry reports an error on the current values. *)
Definition fails (values : gmap string JSON) (entry : string * option Rule) : Prop :=
  exists rule error,
    entry.2 = Some rule /\ rule (read values entry.1) = Some error /\ error <> "".

End Prototype.

End Form.

(** ** Sample data

    Concrete stores, servers and platform functions on which the
    properties below are exercised. *)

(** [AsyncStorage] with an access token and a user record. *)
Definition sample_storage : gmap string string :=
  <["access_token" := "header.payload.signature"]> (<["user" := "{}"]> ∅).

(** The channel URL for the stored user record. *)
Definition sample_user_url (userString : string) : option string :=
  Some "ws://localhost:8000/ws/user/7/".

(** [JSON.parse] on the texts used below: "{}" is the empty object, and
    the other text used, "not json", does not parse. *)
Definition sample_parse (text : string) : option JSON :=
  if String.eqb text "{}" then Some (JObj []) else None.

(** [AsyncStorage] with a whole session. *)
Definition session_storage : gmap string string :=
  <["access_token" := "old-access"]>
    (<["refresh_token" := "refresh-1"]> (<["user" := "{}"]> ∅)).

(** A server that answers every call with 500. *)
Definition srv_500 : Gateway.Server :=
  fun _ _ => Gateway.Response 500 JNull.

(** A server that does not answer (network error, timeout). *)
Definition srv_silent : Gateway.Server :=
  fun _ _ => Gateway.NoResponse.

(** A server that answers every call with 401. *)
Definition srv_401 : Gateway.Server :=
  fun _ _ => Gateway.Response 401 JNull.

(** A server that rejects every request with 401 and accepts every
    refresh, handing out the access token "new-access". *)
Definition srv_expired : Gateway.Server :=
  fun _ call =>
    match call with
    | Gateway.ClientCall _ => Gateway.Response 401 JNull
    | Gateway.RefreshCall _ =>
        Gateway.Response 200 (JObj [("access", JStr "new-access")])
    end.

(** An ordinary request, as [apiClient.get('/bookings/')] builds it. *)
Definition get_bookings : Gateway.Config :=
  Gateway.request "get" "/bookings/" None.

(** The provider after a successful login. *)
Definition logged_in : Auth.State :=
  Auth.run_op Auth.initial
    (Auth.OpLogin "credentials"
       (Auth.PostResolved
          (Auth.mkAuthResponse (Some "access-1") (Some "refresh-1") (Some (JObj []))))).

(** A connected service: the constructor's [connect], then the channel
    opens. *)
Definition connected_service : WS.World :=
  WS.handle sample_parse sample_user_url
    (WS.connect sample_user_url (WS.initial sample_storage)) (WS.SockOpen 0).

(** [atob] on the one segment used below: "e30" is the base64 of "{}". *)
Definition sample_atob (text : string) : option string :=
  if String.eqb text "e30" then Some "{}" else None.

(** [ToNumber] of strings, arrays and objects; not reached below. *)
Definition sample_to_number (v : JSON) : Jwt.Num := Jwt.NaN.

(** Two listeners on "booking_update"; the first is removed. *)
Definition two_listeners : gmap string (list nat) :=
  Emitter.on "booking_update" 2 (Emitter.on "booking_update" 1 ∅).

(** Encoders for outbound frames; not reached while the channel is not
    open. *)
Definition sample_stringify (v : JSON) : string := "{}".

Definition sample_packet (name : string) (v : JSON) : string := name.

(** A service whose channel is still opening. *)
Definition connecting_service : WS.World :=
  WS.connect sample_user_url (WS.initial sample_storage).

(** [JSON.parse] on an inbound frame: the text "frame" is a booking
    update with an empty object as its data. *)
Definition frame_parse (text : string) : option JSON :=
  if String.eqb text "frame"
  then Some (JObj [("type", JStr "booking_update"); ("data", JObj [])])
  else None.

(** A connected service with one listener on "booking_update". *)
Definition listening_service : WS.World :=
  let w := connected_service in
  WS.mkWorld (WS.ws w) (WS.url w) (WS.reconnectAttempts w)
    (Emitter.on "booking_update" 1 (WS.listeners w)) (WS.storage w)
    (WS.sockets w) (WS.timers w) (WS.console w) (WS.invoked w).

(** A service whose session was removed from [AsyncStorage] while a
    reconnection timer was pending. *)
Definition logged_out_service : WS.World :=
  let w := WS.handle sample_parse sample_user_url connecting_service (WS.SockClose 0) in
  WS.mkWorld (WS.ws w) (WS.url w) (WS.reconnectAttempts w) (WS.listeners w) ∅
    (WS.sockets w) (WS.timers w) (WS.console w) (WS.invoked w).

(** [JSON.stringify] on the values used below. *)
Definition sample_stringify_value (v : JSValue) : string :=
  match v with
  | Some JNull => "null"
  | _ => "{}"
  end.

(** A rule that requires a value: [value => value ? undefined : 'Required']
    on the values used below. *)
Definition required : Form.Rule :=
  fun v => match v with
           | Form.Value None => Some "Required"
           | _ => None
           end.

(** Three pages, shown at page 2. *)
Definition second_of_three : Pagination.State := Pagination.mkState 2 20 45.

(** Member names of [Object.prototype]. *)
Definition sample_inherited (name : string) : bool :=
  existsb (String.eqb name)
    ["constructor"; "toString"; "toLocaleString"; "valueOf"; "hasOwnProperty";
     "isPrototypeOf"; "propertyIsEnumerable"; "__proto__"].

(** Listeners that all return. *)
Definition none_throws (callback : nat) (data : option JSON) : option string := None.

(** Listener 1 throws on every message; the others return. *)
Definition first_throws (callback : nat) (data : option JSON) : option string :=
  if Nat.eqb callback 1 then Some "Error" else None.

(** Forty-five items shown twenty at a time, on the first page. *)
Definition three_pages : Pagination.State := Pagination.mkState 1 20 45.

(** * Properties *)

(** ** The listener table *)

Section EmitterFacts.

Import Emitter.

Lemma filter_ne_not_In (callback : Callback) (cbs : list Callback) :
  ~ In callback (List.filter (fun cb => negb (Nat.eqb cb callback)) cbs).
Proof.
  intros Hin. apply List.filter_In in Hin as [_ Hne].
  rewrite Nat.eqb_refl in Hne. discriminate.
Qed.

Lemma filter_ne_idem (callback : Callback) (cbs : list Callback) :
  List.filter (fun cb => negb (Nat.eqb cb callback))
    (List.filter (fun cb => negb (Nat.eqb cb callback)) cbs)
  = List.filter (fun cb => negb (Nat.eqb cb callback)) cbs.
Proof.
  induction cbs as [|c cbs IH]; simpl; [reflexivity|].
  destruct (negb (c =? callback)%nat) eqn:E; simpl; rewrite ?E, IH; reflexivity.
Qed.

Lemma off_not_registered event callback (listeners : gmap string (list Callback)) :
  ~ registered event callback (off event callback listeners).
Proof.
  unfold registered, off.
  destruct (listeners !! event) as [cbs0|] eqn:E; intros (cbs & Hl & Hin).
  - rewrite lookup_insert_eq in Hl. inversion Hl; subst.
    eapply filter_ne_not_In, Hin.
  - congruence.
Qed.

Lemma off_preserves_not_registered event callback e cb
    (listeners : gmap string (list Callback)) :
  ~ registered event callback listeners ->
  ~ registered event callback (off e cb listeners).
Proof.
  unfold registered, off. intros Hn.
  destruct (listeners !! e) as [cbs0|] eqn:E; [|exact Hn].
  intros (cbs & Hl & Hin).
  destruct (decide (e = event)) as [->|Hne].
  - rewrite lookup_insert_eq in Hl. inversion Hl; subst.
    apply List.filter_In in Hin as [Hin _]. eauto.
  - rewrite lookup_insert_ne in Hl by done. eauto.
Qed.

Lemma on_preserves_not_registered event callback e cb
    (listeners : gmap string (list Callback)) :
  OpOn e cb <> OpOn event callback ->
  ~ registered event callback listeners ->
  ~ registered event callback (on e cb listeners).
Proof.
  unfold registered, on. intros Hop Hn.
  destruct (decide (e = event)) as [->|Hne].
  - destruct (listeners !! event) as [cbs0|] eqn:E; intros (cbs & Hl & Hin);
      rewrite lookup_insert_eq in Hl; inversion Hl; subst.
    + apply in_app_or in Hin as [Hin|[->|[]]]; [eauto|congruence].
    + destruct Hin as [->|[]]. congruence.
  - destruct (listeners !! e) as [cbs0|] eqn:E; intros (cbs & Hl & Hin);
      rewrite lookup_insert_ne in Hl by done; eauto.
Qed.

Lemma emit_only_registered event callback e d
    (listeners : gmap string (list Callback)) inv :
  In inv (emit e d listeners) ->
  inv_event inv = event -> inv_callback inv = callback ->
  registered event callback listeners.
Proof.
  unfold emit, registered. intros Hin He Hc.
  destruct (listeners !! e) as [cbs|] eqn:E; [|destruct Hin].
  apply List.in_map_iff in Hin as (cb & <- & Hin). simpl in *. subst.
  eauto.
Qed.

Lemma off_idempotent event callback (listeners : gmap string (list Callback)) :
  off event callback (off event callback listeners) = off event callback listeners.
Proof.
  unfold off. destruct (listeners !! event) as [cbs|] eqn:E.
  - rewrite lookup_insert_eq, insert_insert_eq, filter_ne_idem. reflexivity.
  - rewrite E. reflexivity.
Qed.

Lemma invoke_filter event data callback (cbs : list Callback) :
  List.map (fun cb => Invoke event cb data)
    (List.filter (fun cb => negb (Nat.eqb cb callback)) cbs)
  = List.filter (fun i => negb (Nat.eqb (inv_callback i) callback))
      (List.map (fun cb => Invoke event cb data) cbs).
Proof.
  induction cbs as [|c cbs IH]; simpl; [reflexivity|].
  destruct (negb (c =? callback)%nat); simpl; now rewrite IH.
Qed.

Lemma emit_off_same event callback data (listeners : gmap string (list Callback)) :
  emit event data (off event callback listeners)
  = List.filter (fun i => negb (Nat.eqb (inv_callback i) callback))
      (emit event data listeners).
Proof.
  unfold emit, off. destruct (listeners !! event) as [cbs|] eqn:E.
  - rewrite lookup_insert_eq. apply invoke_filter.
  - rewrite E. reflexivity.
Qed.

Lemma emit_off_other event callback event' data
    (listeners : gmap string (list Callback)) :
  event' <> event ->
  emit event' data (off event callback listeners) = emit event' data listeners.
Proof.
  intros Hne. unfold emit, off. destruct (listeners !! event) as [cbs|] eqn:E.
  - rewrite lookup_insert_ne by done. reflexivity.
  - reflexivity.
Qed.

End EmitterFacts.

Section EventEmitterFacts.

Import Emitter.

Variable inherited : string -> bool.
Variable throws : Callback -> Data -> option string.


Lemma called_on_state event callback (listeners : gmap string (list Callback)) :
  state_of (EventEmitter.on inherited event callback listeners) = listeners
  \/ state_of (EventEmitter.on inherited event callback listeners)
     = Emitter.on event callback listeners.
Proof.
  unfold EventEmitter.on, Emitter.on.
  destruct (listeners !! event); [now right|].
  destruct (inherited event); [now left|now right].
Qed.

Lemma called_off_state event callback (listeners : gmap string (list Callback)) :
  state_of (EventEmitter.off inherited event callback listeners)
  = Emitter.off event callback listeners.
Proof.
  unfold EventEmitter.off, Emitter.off.
  destruct (listeners !! event); [reflexivity|].
  destruct (inherited event); reflexivity.
Qed.

Lemma forEach_called event data (cbs : list Callback) inv :
  In inv (state_of (EventEmitter.forEach throws event data cbs)) ->
  In inv (List.map (fun cb => Invoke event cb data) cbs).
Proof.
  induction cbs as [|cb cbs IH]; simpl; [tauto|].
  destruct (throws cb data).
  - simpl. tauto.
  - destruct (EventEmitter.forEach throws event data cbs); simpl in *; intros [H|H]; auto.
Qed.

Lemma called_emit_registered event data (listeners : gmap string (list Callback)) inv :
  In inv (state_of (EventEmitter.emit inherited throws event data listeners)) ->
  In inv (Emitter.emit event data listeners).
Proof.
  unfold EventEmitter.emit, Emitter.emit.
  destruct (listeners !! event); [apply forEach_called|].
  destruct (inherited event); simpl; tauto.
Qed.

Lemma called_run_never_invokes event callback ops :
  forall (listeners : gmap string (list Callback)),
  ~ resubscribes event callback ops ->
  ~ registered event callback listeners ->
  forall inv, In inv (EventEmitter.run inherited throws ops listeners).2 ->
    ~ (inv_event inv = event /\ inv_callback inv = callback).
Proof.
  unfold resubscribes.
  induction ops as [|op ops IH]; intros listeners Hres Hreg inv Hin.
  - destruct Hin.
  - destruct op as [e cb|e cb|e d]; simpl in Hin.
    + eapply IH; [| |exact Hin].
      * intros H. apply Hres. now right.
      * destruct (called_on_state e cb listeners) as [-> | ->]; [exact Hreg|].
        apply on_preserves_not_registered; [|exact Hreg].
        intros Heq. apply Hres. left. exact Heq.
    + eapply IH; [| |exact Hin].
      * intros H. apply Hres. now right.
      * rewrite called_off_state. now apply off_preserves_not_registered.
    + destruct (EventEmitter.run inherited throws ops listeners) as [l' invs'] eqn:Er.
      simpl in Hin. apply in_app_or in Hin as [Hin|Hin].
      * intros [He Hc]. apply Hreg.
        apply called_emit_registered in Hin.
        eapply emit_only_registered; eauto.
      * eapply IH; [| exact Hreg |rewrite Er; exact Hin].
        intros H. apply Hres. now right.
Qed.

Lemma called_off_again event callback (listeners : gmap string (list Callback)) :
  returns_normally (EventEmitter.off inherited event callback listeners) ->
  EventEmitter.off inherited event callback
    (state_of (EventEmitter.off inherited event callback listeners))
  = Normal (state_of (EventEmitter.off inherited event callback listeners)).
Proof.
  unfold EventEmitter.off.
  destruct (listeners !! event) as [cbs|] eqn:E; simpl.
  - intros _. rewrite lookup_insert_eq, insert_insert_eq, filter_ne_idem. reflexivity.
  - destruct (inherited event) eqn:Ei; simpl; [intros []|].
    intros _. now rewrite E.
Qed.

(** Taking a listener out of the array takes no call away from the
    others: the calls made to them before are the first calls made
    after. *)
Lemma forEach_filter_prefix event data callback (cbs : list Callback) :
  EventEmitter.without callback (state_of (EventEmitter.forEach throws event data cbs))
  `prefix_of`
  state_of (EventEmitter.forEach throws event data
              (List.filter (fun cb => negb (Nat.eqb cb callback)) cbs)).
Proof.
  unfold EventEmitter.without.
  induction cbs as [|cb cbs IH]; simpl; [reflexivity|].
  destruct (Nat.eqb_spec cb callback) as [->|Hne]; simpl.
  - destruct (throws callback data); simpl.
    + rewrite Nat.eqb_refl. simpl. apply prefix_nil.
    + destruct (EventEmitter.forEach throws event data cbs); simpl in *;
        rewrite Nat.eqb_refl; simpl; exact IH.
  - apply Nat.eqb_neq in Hne.
    destruct (throws cb data); simpl.
    + rewrite Hne. simpl. reflexivity.
    + destruct (EventEmitter.forEach throws event data cbs),
               (EventEmitter.forEach throws event data
                  (List.filter (fun cb0 => negb (Nat.eqb cb0 callback)) cbs));
        simpl in *; rewrite Hne; simpl; now apply prefix_cons.
Qed.

(** When the listener taken out returns on this data, the dispatch is
    the same with its call left out, and ends the same way. *)
Lemma forEach_filter_returns event data callback (cbs : list Callback) :
  throws callback data = None ->
  EventEmitter.forEach throws event data
    (List.filter (fun cb => negb (Nat.eqb cb callback)) cbs)
  = EventEmitter.map_state (EventEmitter.without callback)
      (EventEmitter.forEach throws event data cbs).
Proof.
  intros Hret. unfold EventEmitter.without.
  induction cbs as [|cb cbs IH]; simpl; [reflexivity|].
  destruct (Nat.eqb_spec cb callback) as [->|Hne]; simpl.
  - rewrite Hret, IH.
    destruct (EventEmitter.forEach throws event data cbs); simpl;
      rewrite Nat.eqb_refl; reflexivity.
  - apply Nat.eqb_neq in Hne.
    destruct (throws cb data); simpl.
    + now rewrite Hne.
    + rewrite IH.
      destruct (EventEmitter.forEach throws event data cbs); simpl; rewrite Hne; reflexivity.
Qed.

Lemma forEach_all_return event data (cbs : list Callback) :
  (forall cb, In cb cbs -> throws cb data = None) ->
  EventEmitter.forEach throws event data cbs
  = Normal (List.map (fun cb => Invoke event cb data) cbs).
Proof.
  induction cbs as [|cb cbs IH]; simpl; intros H; [reflexivity|].
  rewrite (H cb) by now left. rewrite IH by auto. reflexivity.
Qed.

Lemma subscribe_all_lookup (event : string) (regs : list (string * Callback)) :
  forall (listeners : gmap string (list Callback)),
    EventEmitter.subscribe_all inherited regs listeners !! event
    = match listeners !! event with
      | Some cbs => Some (cbs ++ callbacks_for event regs)
      | None =>
          if inherited event then None
          else match callbacks_for event regs with
               | [] => None
               | cbs => Some cbs
               end
      end.
Proof.
  unfold EventEmitter.subscribe_all, callbacks_for.
  induction regs as [|[e cb] regs IH]; intros listeners; simpl.
  - destruct (listeners !! event); [now rewrite app_nil_r|].
    now destruct (inherited event).
  - rewrite IH. clear IH. unfold EventEmitter.on.
    destruct (String.eqb_spec e event) as [->|Hne]; simpl.
    + destruct (listeners !! event) as [cbs|] eqn:E; simpl.
      * rewrite lookup_insert_eq. now rewrite <- app_assoc.
      * destruct (inherited event) eqn:Ei; simpl.
        -- now rewrite E.
        -- now rewrite lookup_insert_eq.
    + destruct (listeners !! e) as [cbs|] eqn:E; simpl.
      * now rewrite lookup_insert_ne by done.
      * destruct (inherited e); simpl; [reflexivity|].
        now rewrite lookup_insert_ne by done.
Qed.

End EventEmitterFacts.

(** ** The real-time services *)

Section WSFacts.

Import Emitter WS.

Variable JSON_parse : string -> option JSON.
Variable JSON_stringify : JSON -> string.
Variable user_url : string -> option string.
Variable io_packet : string -> JSON -> string.

Lemma connect_fields w :
  reconnectAttempts (connect user_url w) = reconnectAttempts w /\
  timers (connect user_url w) = timers w /\
  listeners (connect user_url w) = listeners w /\
  invoked (connect user_url w) = invoked w /\
  storage (connect user_url w) = storage w.
Proof.
  unfold connect.
  destruct (negb (truthy (storage w !! "access_token"))
            || negb (truthy (storage w !! "user"))); [simpl; auto|].
  destruct (storage w !! "access_token"), (storage w !! "user"); simpl; auto.
  destruct (user_url _); simpl; auto.
Qed.

Lemma handleMessage_fields message w :
  reconnectAttempts (state_of (handleMessage message w)) = reconnectAttempts w /\
  timers (state_of (handleMessage message w)) = timers w /\
  sockets (state_of (handleMessage message w)) = sockets w /\
  ws (state_of (handleMessage message w)) = ws w.
Proof.
  unfold handleMessage.
  destruct (get_prop message "type") as [t|], (get_prop message "data") as [d|];
    simpl; auto.
  repeat (match goal with |- context [if ?b then _ else _] => destruct b end);
    simpl; auto.
Qed.

Lemma onmessage_fields frame w :
  reconnectAttempts (state_of (onmessage JSON_parse frame w)) = reconnectAttempts w /\
  timers (state_of (onmessage JSON_parse frame w)) = timers w /\
  sockets (state_of (onmessage JSON_parse frame w)) = sockets w /\
  ws (state_of (onmessage JSON_parse frame w)) = ws w.
Proof.
  unfold onmessage, try_catch.
  destruct (JSON_parse frame) as [message|]; [|simpl; auto].
  pose proof (handleMessage_fields message w) as H.
  destruct (handleMessage message w); simpl in *; auto.
Qed.

Lemma map_delay_mark_fired (ts : list Timer) j t :
  ts !! j = Some t ->
  List.map delay (<[j := mkTimer (delay t) true]> ts) = List.map delay ts.
Proof.
  revert j. induction ts as [|t0 ts IH]; intros [|j] H; simpl in *; try discriminate.
  - inversion H; subst. reflexivity.
  - f_equal. now apply IH.
Qed.

Lemma firstn_backoff_succ (n : Z) :
  (0 <= n < 5)%Z ->
  firstn (Z.to_nat (n + 1)) backoff_sequence
  = firstn (Z.to_nat n) backoff_sequence ++ [(reconnectDelay * 2 ^ n)%Z].
Proof.
  intros H.
  assert (n = 0 \/ n = 1 \/ n = 2 \/ n = 3 \/ n = 4)%Z as Hn by lia.
  destruct Hn as [->|[->|[->|[->| ->]]]]; reflexivity.
Qed.

Lemma handleReconnect_below w :
  (reconnectAttempts w < maxReconnectAttempts)%Z ->
  handleReconnect w =
    set_timers (timers w ++ [mkTimer (reconnectDelay * 2 ^ reconnectAttempts w)%Z false])
               (set_reconnectAttempts (reconnectAttempts w + 1)%Z w).
Proof.
  intros H. unfold handleReconnect.
  apply Z.ltb_lt in H. rewrite H. simpl.
  replace (reconnectAttempts w + 1 - 1)%Z with (reconnectAttempts w) by lia.
  reflexivity.
Qed.

Lemma handleReconnect_exhausted w :
  (maxReconnectAttempts <= reconnectAttempts w)%Z ->
  handleReconnect w = log LogMaxAttempts w.
Proof.
  intros H. unfold handleReconnect.
  apply Z.ltb_ge in H. now rewrite H.
Qed.

Lemma handleReconnect_inv w : backoff_inv w -> backoff_inv (handleReconnect w).
Proof.
  intros [Hr Hs]. unfold backoff_inv.
  destruct (Z.lt_ge_cases (reconnectAttempts w) maxReconnectAttempts) as [Hlt|Hge].
  - rewrite handleReconnect_below by exact Hlt.
    unfold scheduled_delays in *. simpl. unfold maxReconnectAttempts in Hlt.
    split; [lia|].
    rewrite List.map_app, Hs. simpl.
    symmetry. apply firstn_backoff_succ. lia.
  - rewrite handleReconnect_exhausted by exact Hge. simpl. auto.
Qed.

Lemma set_readyState_fields i r w :
  reconnectAttempts (set_readyState i r w) = reconnectAttempts w /\
  timers (set_readyState i r w) = timers w /\
  ws (set_readyState i r w) = ws w.
Proof. unfold set_readyState. destruct (sockets w !! i); simpl; auto. Qed.

Lemma handle_inv w ev :
  not_open ev -> backoff_inv w -> backoff_inv (handle JSON_parse user_url w ev).
Proof.
  intros Hev Hinv. destruct ev as [i|i|i|i frame|i|i name data|j]; simpl in *.
  - destruct Hev.
  - destruct (sockets w !! i); [|exact Hinv].
    apply handleReconnect_inv.
    destruct (set_readyState_fields i CLOSED w) as (Ha & Ht & _).
    unfold backoff_inv, scheduled_delays in *. simpl. now rewrite Ha, Ht.
  - destruct (sockets w !! i); [|exact Hinv]. exact Hinv.
  - destruct (sockets w !! i); [|exact Hinv].
    destruct (onmessage_fields frame w) as (Ha & Ht & _).
    unfold backoff_inv, scheduled_delays in *. now rewrite Ha, Ht.
  - destruct (sockets w !! i); [|exact Hinv].
    apply handleReconnect_inv. exact Hinv.
  - destruct (sockets w !! i); [|exact Hinv].
    repeat (match goal with |- context [if ?b then _ else _] => destruct b end);
      exact Hinv.
  - destruct (timers w !! j) as [t|] eqn:Et; [|exact Hinv].
    destruct (fired t); [exact Hinv|].
    match goal with |- backoff_inv (connect _ ?w0) =>
      destruct (connect_fields w0) as (Ha & Ht & _) end.
    unfold backoff_inv, scheduled_delays in *. rewrite Ha, Ht. simpl.
    now rewrite (map_delay_mark_fired _ _ _ Et).
Qed.

Lemma run_inv evs : forall w,
  Forall not_open evs -> backoff_inv w ->
  backoff_inv (run JSON_parse user_url evs w).
Proof.
  unfold run. induction evs as [|ev evs IH]; intros w Hall Hinv; simpl.
  - exact Hinv.
  - inversion Hall; subst. apply IH; [assumption|]. now apply handle_inv.
Qed.

Lemma backoff_sequence_bound d : In d backoff_sequence -> (d <= 16000)%Z.
Proof.
  unfold backoff_sequence. simpl. intros H.
  repeat (destruct H as [<-|H]; [lia|]). destruct H.
Qed.

Lemma closed_current_readyState i s w :
  ws w = Some i -> sockets w !! i = Some s ->
  current_readyState (set_readyState i CLOSED w) = Some CLOSED.
Proof.
  intros Hws Hs. unfold current_readyState, set_readyState. rewrite Hs. simpl.
  rewrite Hws, list_lookup_insert_eq by (eapply lookup_lt_Some, Hs). reflexivity.
Qed.

Lemma In_firstn {A} (x : A) n l : In x (firstn n l) -> In x l.
Proof.
  revert n. induction l as [|a l IH]; intros [|n]; simpl; try tauto.
  intros [->|H]; eauto.
Qed.

End WSFacts.

Section Reconnection.

Import Emitter WS.

Variable JSON_parse : string -> option JSON.
Variable user_url : string -> option string.


End Reconnection.


(** The whole scenario of the spec: every attempt fails.  Five timers are
    armed with the five delays; the sixth failure arms none and the
    connection is Failed. *)
Example five_failures_then_failed :
  let w := WS.run sample_parse sample_user_url
             [WS.SockClose 0; WS.TimerFires 0; WS.SockClose 1; WS.TimerFires 1;
              WS.SockClose 2; WS.TimerFires 2; WS.SockClose 3; WS.TimerFires 3;
              WS.SockClose 4; WS.TimerFires 4; WS.SockClose 5]
             (WS.connect sample_user_url (WS.initial sample_storage)) in
  WS.scheduled_delays w = [1000; 2000; 4000; 8000; 16000]%Z
  /\ WS.pending_timers w = []
  /\ WS.reconnectAttempts w = 5%Z
  /\ last (WS.console w) = Some WS.LogMaxAttempts
  /\ WS.connectionState w = WS.Failed.
Proof. vm_compute. repeat split. Qed.

Section Channel.

Import Emitter WS.

Variable JSON_parse : string -> option JSON.
Variable JSON_stringify : JSON -> string.
Variable user_url : string -> option string.
Variable io_packet : string -> JSON -> string.

(** C6, as the code has it.  [connect] does not look at the current
    channel.  (1) With an access token and a user record stored, neither
    of them empty, and a user record that can be read ([JSON.parse], and
    [user.id] in [NativeWebSocketService], do not throw), every call opens
    one more channel, in state CONNECTING, and makes it the current one,
    so the connection is Connecting whatever it was.  (2) With both stored
    and a user record that cannot be read, the call opens nothing: the
    exception is caught and logged, and the current channel and the
    connection state are as before.  (3) With the token or the user record missing or
    empty, the call opens nothing: it only logs that it skips the
    connection.  (4) In every case the channels opened before, the
    previous current one included, are left as they were (not closed, not
    altered). *)
Theorem connect_opens_new_channel (w : World) :
  (forall token userString u,
      storage w !! "access_token" = Some token ->
      storage w !! "user" = Some userString ->
      token <> "" -> userString <> "" ->
      user_url userString = Some u ->
      sockets (connect user_url w) = sockets w ++ [mkSocket u token CONNECTING []]
      /\ ws (connect user_url w) = Some (length (sockets w))
      /\ connectionState (connect user_url w) = Connecting)
  /\ (forall token userString,
        storage w !! "access_token" = Some token ->
        storage w !! "user" = Some userString ->
        token <> "" -> userString <> "" ->
        user_url userString = None ->
        connect user_url w = log LogConnectError w
        /\ sockets (connect user_url w) = sockets w
        /\ ws (connect user_url w) = ws w
        /\ connectionState (connect user_url w) = connectionState w)
  /\ (truthy (storage w !! "access_token") = false
       \/ truthy (storage w !! "user") = false ->
       connect user_url w = log LogNoAuth w
       /\ sockets (connect user_url w) = sockets w
       /\ ws (connect user_url w) = ws w
       /\ connectionState (connect user_url w) = connectionState w)
  /\ (forall i s, sockets w !! i = Some s -> sockets (connect user_url w) !! i = Some s).
Proof.
  split; [|split; [|split]].
  - intros token userString u Htoken Huser Ht Hu Hurl.
    apply String.eqb_neq in Ht, Hu.
    unfold connect. rewrite Htoken, Huser. simpl. rewrite Ht, Hu. simpl.
    rewrite Hurl. simpl.
    split; [reflexivity|]. split; [reflexivity|].
    unfold connectionState, current_readyState. simpl.
    rewrite lookup_app_r by lia. rewrite Nat.sub_diag. reflexivity.
  - intros token userString Htoken Huser Ht Hu Hurl.
    apply String.eqb_neq in Ht, Hu.
    assert (connect user_url w = log LogConnectError w) as ->.
    { unfold connect. rewrite Htoken, Huser. simpl. rewrite Ht, Hu. simpl.
      now rewrite Hurl. }
    repeat split; reflexivity.
  - intros Hmissing.
    assert (connect user_url w = log LogNoAuth w) as ->.
    { unfold connect. destruct Hmissing as [-> | ->]; simpl; [reflexivity|].
      now rewrite orb_true_r. }
    repeat split; reflexivity.
  - intros i s Hi. unfold connect.
    destruct (negb (truthy (storage w !! "access_token"))
              || negb (truthy (storage w !! "user"))); [exact Hi|].
    destruct (storage w !! "access_token"), (storage w !! "user"); try exact Hi.
    destruct (user_url _); [|exact Hi].
    simpl. apply lookup_app_l_Some. exact Hi.
Qed.

Lemma connect_without_session (w : World) :
  truthy (storage w !! "access_token") = false \/ truthy (storage w !! "user") = false ->
  connect user_url w = log LogNoAuth w.
Proof.
  intros H. unfold connect.
  destruct H as [-> | ->]; simpl; [reflexivity|].
  now rewrite orb_true_r.
Qed.

Lemma not_connected_iff (w : World) :
  connectionState w <> Connected <-> isConnected w = false.
Proof.
  unfold connectionState, isConnected.
  destruct (current_readyState w) as [[]|];
    try destruct (pending_timers w);
    try destruct (maxReconnectAttempts <=? reconnectAttempts w)%Z;
    split; try reflexivity; try discriminate.
  all: intros H; now destruct H.
Qed.

(** C8.  While the connection is not Connected (the current channel is
    missing or not open, so [isConnected()] is false), [send] and every
    outbound method of both services return normally and leave the world
    as it was: nothing is handed to any channel. *)
Theorem send_when_not_connected (w : World) (Hstate : connectionState w <> Connected) :
  (forall message, send JSON_stringify message w = Normal w)
  /\ (forall id, subscribeToSchedule JSON_stringify id w = Normal w)
  /\ (forall id, unsubscribeFromSchedule JSON_stringify id w = Normal w)
  /\ (forall location, updateDriverLocation JSON_stringify location w = Normal w)
  /\ (forall status, updateDriverStatus JSON_stringify status w = Normal w)
  /\ (forall id, io_subscribeToSchedule io_packet id w = Normal w)
  /\ (forall id, io_unsubscribeFromSchedule io_packet id w = Normal w)
  /\ (forall location, io_updateDriverLocation io_packet location w = Normal w)
  /\ (forall status, io_updateDriverStatus io_packet status w = Normal w)
  /\ (forall id, io_getLocation io_packet id w = Normal w)
  /\ (forall message,
        returns_normally (send JSON_stringify message w) /\
        transmitted (state_of (send JSON_stringify message w)) = transmitted w).
Proof.
  assert (isConnected w = false) as Hdown by (now apply not_connected_iff).
  assert (forall message, send JSON_stringify message w = Normal w) as Hsend.
  { intros message. unfold send. unfold isConnected, current_readyState in Hdown.
    destruct (ws w) as [i|]; [|reflexivity].
    destruct (readyState <$> sockets w !! i) as [[]|]; try reflexivity.
    discriminate. }
  assert (forall name payload, io_emit_if_connected io_packet name payload w = Normal w)
    as Hio.
  { intros name payload. unfold io_emit_if_connected.
    unfold isConnected, current_readyState in Hdown.
    destruct (ws w) as [i|]; [|reflexivity].
    destruct (readyState <$> sockets w !! i) as [[]|]; try reflexivity.
    discriminate. }
  repeat split; intros;
    try apply Hsend; try apply Hio; rewrite ?Hsend; simpl; auto.
Qed.

(** C9.  An inbound frame that does not parse, or that parses to a
    message whose [type] is not one of the four known types, is dropped:
    [onmessage] returns normally, one diagnostic is written to the console
    ('Error parsing WebSocket message:' or 'Unknown message type:'), no
    listener is invoked, and nothing else changes. *)
Theorem unknown_or_malformed_dropped (frame : string) (w : World)
    (Hbad : JSON_parse frame = None \/
            exists message, JSON_parse frame = Some message /\
              forall t, get_prop message "type" = Some t -> known_type t = false) :
  returns_normally (onmessage JSON_parse frame w)
  /\ invoked (state_of (onmessage JSON_parse frame w)) = invoked w
  /\ exists entry,
       onmessage JSON_parse frame w = Normal (log entry w) /\
       (entry = LogParseError \/
        exists message t, JSON_parse frame = Some message /\
          get_prop message "type" = Some t /\ entry = LogUnknownType t).
Proof.
  unfold onmessage, try_catch.
  destruct Hbad as [Hnone | (message & Hsome & Hunknown)].
  - rewrite Hnone. simpl. split; [exact I|]. split; [reflexivity|].
    exists LogParseError. auto.
  - rewrite Hsome. unfold handleMessage.
    destruct (get_prop message "type") as [t|] eqn:Et.
    + destruct (get_prop message "data") as [d|] eqn:Ed.
      * specialize (Hunknown t eq_refl). unfold known_type in Hunknown.
        repeat (apply orb_false_elim in Hunknown as [Hunknown ?]).
        repeat match goal with H : is_type _ _ = false |- _ => rewrite H; clear H end.
        simpl. split; [exact I|]. split; [reflexivity|].
        exists (LogUnknownType t). split; [reflexivity|]. right. eauto.
      * simpl. split; [exact I|]. split; [reflexivity|].
        exists LogParseError. auto.
    + simpl. split; [exact I|]. split; [reflexivity|].
      exists LogParseError. auto.
Qed.

(** [onmessage] never throws, whatever the frame. *)
Lemma onmessage_returns_normally (frame : string) (w : World) :
  returns_normally (onmessage JSON_parse frame w).
Proof.
  unfold onmessage, try_catch.
  destruct (JSON_parse frame) as [message|]; [|exact I].
  destruct (handleMessage message w); exact I.
Qed.

End Channel.

(** ** The request gateway *)

Section GatewayFacts.

Import Gateway.

Variable srv : Server.

#[local] Arguments truthy : simpl never.

Lemma run_bind {A B} (p : Prog A) (f : A -> Prog B) : forall w,
  run srv (bind p f) w = run srv (f (run srv p w).2) (run srv p w).1.
Proof.
  induction p as [a|key k IH|key value k IH|entries k IH|keys k IH|call k IH];
    intros w; simpl; auto.
Qed.

Lemma client_unfold (fuel : nat) (config : Config) (w : World) :
  run srv (client (S fuel) config) w =
    let sent := with_stored_token (storage w !! "access_token") config in
    let w1 := mkWorld (storage w) (netlog w ++ [ClientCall sent]) in
    match srv (netlog w) (ClientCall sent) with
    | Response st d =>
        if ok_status st then (w1, Some (Resolved st d))
        else run srv (on_rejected (client fuel) sent (Response st d)) w1
    | NoResponse => run srv (on_rejected (client fuel) sent NoResponse) w1
    end.
Proof.
  simpl. destruct (srv (netlog w) _) as [st d|]; [|reflexivity].
  destruct (ok_status st); reflexivity.
Qed.

Lemma on_rejected_plain (retry : Config -> Prog (option Outcome))
    (config : Config) (res : HttpResult) (w : World) :
  cfg_retry config = true \/ (forall d, res <> Response 401 d) ->
  run srv (on_rejected retry config res) w = (w, Some (Rejected (mkError config res))).
Proof.
  intros H. unfold on_rejected.
  destruct H as [-> | Hne].
  - rewrite andb_false_r. reflexivity.
  - destruct res as [st d|]; simpl; [|reflexivity].
    case_bool_decide as Hst; [|reflexivity].
    inversion Hst; subst. now destruct (Hne d).
Qed.

Lemma on_rejected_401 (retry : Config -> Prog (option Outcome))
    (config : Config) (d : JSON) (w : World) :
  cfg_retry config = false ->
  run srv (on_rejected retry config (Response 401 d)) w =
    let original := set_retry true config in
    let error := mkError original (Response 401 d) in
    match storage w !! "refresh_token" with
    | Some rt =>
        if truthy (Some rt) then
          let w1 := mkWorld (storage w) (netlog w ++ [RefreshCall rt]) in
          match refreshed_access (srv (netlog w) (RefreshCall rt)) with
          | Some a =>
              run srv (retry (set_Authorization ("Bearer " ++ a)%string original))
                  (mkWorld (<["access_token" := a]> (storage w)) (netlog w1))
          | None =>
              (mkWorld (remove_keys session_keys (storage w)) (netlog w1),
               Some (Rejected error))
          end
        else (w, Some (Rejected error))
    | None => (w, Some (Rejected error))
    end.
Proof.
  intros Hfresh. unfold on_rejected. rewrite Hfresh. simpl.
  destruct (storage w !! "refresh_token") as [rt|]; [|reflexivity].
  destruct (truthy (Some rt)); [|reflexivity].
  simpl.
  destruct (srv (netlog w) (RefreshCall rt)) as [st data|]; [|reflexivity].
  simpl. destruct (ok_status st); [|reflexivity].
  destruct (access_of data); reflexivity.
Qed.

Lemma with_stored_token_retry token config :
  cfg_retry (with_stored_token token config) = cfg_retry config.
Proof.
  unfold with_stored_token. destruct token; [|reflexivity].
  destruct (truthy _); reflexivity.
Qed.

Lemma with_stored_token_bearer a config :
  with_stored_token (Some a) (set_Authorization ("Bearer " ++ a)%string config)
  = set_Authorization ("Bearer " ++ a)%string config.
Proof.
  unfold with_stored_token. destruct (truthy _); reflexivity.
Qed.

(** A request that carries the marker is sent once and settles on its
    answer, whatever the answer is. *)
Lemma client_marked (fuel : nat) (config : Config) (w : World) :
  cfg_retry config = true ->
  run srv (client (S fuel) config) w =
    let sent := with_stored_token (storage w !! "access_token") config in
    (mkWorld (storage w) (netlog w ++ [ClientCall sent]),
     Some (settle sent (srv (netlog w) (ClientCall sent)))).
Proof.
  intros Hmarked. rewrite client_unfold. cbv zeta. unfold settle.
  destruct (srv (netlog w) _) as [st data|].
  - destruct (ok_status st); [reflexivity|].
    rewrite on_rejected_plain; [reflexivity|].
    left. now rewrite with_stored_token_retry.
  - rewrite on_rejected_plain; [reflexivity|].
    left. now rewrite with_stored_token_retry.
Qed.

(** The whole run of a request without the marker whose first answer is
    401. *)
Lemma client_401 (fuel : nat) (config : Config) (w : World) (d : JSON) :
  cfg_retry config = false ->
  srv (netlog w) (ClientCall (with_stored_token (storage w !! "access_token") config))
    = Response 401 d ->
  run srv (client (S (S fuel)) config) w =
    let sent := with_stored_token (storage w !! "access_token") config in
    let original := set_retry true sent in
    let rejected401 := Some (Rejected (mkError original (Response 401 d))) in
    match storage w !! "refresh_token" with
    | Some rt =>
        if truthy (Some rt) then
          match refreshed_access (srv (netlog w ++ [ClientCall sent]) (RefreshCall rt)) with
          | Some a =>
              let retry := set_Authorization ("Bearer " ++ a)%string original in
              (mkWorld (<["access_token" := a]> (storage w))
                       (netlog w ++ [ClientCall sent; RefreshCall rt; ClientCall retry]),
               Some (settle retry
                       (srv (netlog w ++ [ClientCall sent; RefreshCall rt])
                            (ClientCall retry))))
          | None =>
              (mkWorld (remove_keys session_keys (storage w))
                       (netlog w ++ [ClientCall sent; RefreshCall rt]),
               rejected401)
          end
        else (mkWorld (storage w) (netlog w ++ [ClientCall sent]), rejected401)
    | None => (mkWorld (storage w) (netlog w ++ [ClientCall sent]), rejected401)
    end.
Proof.
  intros Hfresh H401. rewrite client_unfold. cbv zeta. rewrite H401.
  change (ok_status 401) with false. cbv match.
  rewrite on_rejected_401 by (now rewrite with_stored_token_retry).
  cbv zeta. cbn [storage netlog].
  destruct (storage w !! "refresh_token") as [rt|]; [|reflexivity].
  destruct (truthy (Some rt)); [|reflexivity].
  destruct (refreshed_access _) as [a|].
  - rewrite client_marked by reflexivity. cbv zeta. cbn [storage netlog].
    rewrite lookup_insert_eq, with_stored_token_bearer.
    rewrite <- !app_assoc. reflexivity.
  - rewrite <- app_assoc. reflexivity.
Qed.

(** C3, as the code has it.  A request without the marker whose first
    answer is 401 leads to at most one refresh call and at most one retry:
    - with no refresh token stored, no refresh call is made and the
      request is not retried; the call is rejected with the 401;
    - with a refresh token stored, exactly one refresh call is made; when
      it fails, the session entries are removed, the request is not
      retried and the call is rejected with the 401;
    - when the refresh succeeds, the new access token is stored and the
      request is sent exactly once more, marked and with the new token;
      the call settles on the answer to that retry, so a second 401 is a
      rejection with no further refresh and no further retry. *)
Theorem refresh_and_retry_once (fuel : nat) (config : Config) (w : World) (d : JSON)
    (Hfuel : 2 <= fuel)
    (Hfresh : cfg_retry config = false)
    (H401 : srv (netlog w)
              (ClientCall (with_stored_token (storage w !! "access_token") config))
            = Response 401 d) :
  let sent := with_stored_token (storage w !! "access_token") config in
  let original := set_retry true sent in
  let rejected401 := Some (Rejected (mkError original (Response 401 d))) in
  let result := run srv (client fuel config) w in
  let calls := new_calls w result.1 in
  netlog result.1 = netlog w ++ calls
  /\ length (refresh_calls calls) <= 1
  /\ length (client_calls calls) <= 2
  /\ match storage w !! "refresh_token" with
     | Some rt =>
         if truthy (Some rt) then
           match refreshed_access (srv (netlog w ++ [ClientCall sent]) (RefreshCall rt)) with
           | Some a =>
               let retry := set_Authorization ("Bearer " ++ a)%string original in
               calls = [ClientCall sent; RefreshCall rt; ClientCall retry]
               /\ storage result.1 = <["access_token" := a]> (storage w)
               /\ result.2 =
                    Some (settle retry
                            (srv (netlog w ++ [ClientCall sent; RefreshCall rt])
                                 (ClientCall retry)))
           | None =>
               calls = [ClientCall sent; RefreshCall rt]
               /\ storage result.1 = remove_keys session_keys (storage w)
               /\ result.2 = rejected401
           end
         else
           calls = [ClientCall sent] /\ storage result.1 = storage w
           /\ result.2 = rejected401
     | None =>
         calls = [ClientCall sent] /\ storage result.1 = storage w
         /\ result.2 = rejected401
     end.
Proof.
  destruct fuel as [|[|fuel]]; try lia.
  intros sent original rejected401 result calls.
  subst calls result. unfold new_calls.
  rewrite (client_401 fuel config w d Hfresh H401). cbv zeta.
  fold sent. fold original. fold rejected401.
  destruct (storage w !! "refresh_token") as [rt|];
    [|simpl; rewrite drop_app_length; simpl; repeat split; lia].
  destruct (truthy (Some rt));
    [|simpl; rewrite drop_app_length; simpl; repeat split; lia].
  destruct (refreshed_access _) as [a|];
    simpl; rewrite drop_app_length; simpl; repeat split; lia.
Qed.

(** Two units of fuel are enough: the client always settles, and more
    fuel changes nothing. *)
Lemma client_fuel (fuel : nat) (config : Config) (w : World) :
  2 <= fuel ->
  run srv (client fuel config) w = run srv (client 2 config) w
  /\ (run srv (client fuel config) w).2 <> None.
Proof.
  intros Hfuel. destruct fuel as [|[|fuel]]; try lia.
  assert (forall n, run srv (client (S (S n)) config) w
                    = run srv (client 2 config) w
                    /\ (run srv (client (S (S n)) config) w).2 <> None) as H.
  { intros n. rewrite !client_unfold. cbv zeta.
    set (sent := with_stored_token (storage w !! "access_token") config).
    assert (forall res,
      run srv (on_rejected (client (S n)) sent res)
          (mkWorld (storage w) (netlog w ++ [ClientCall sent]))
      = run srv (on_rejected (client 1) sent res)
          (mkWorld (storage w) (netlog w ++ [ClientCall sent]))
      /\ (run srv (on_rejected (client (S n)) sent res)
            (mkWorld (storage w) (netlog w ++ [ClientCall sent]))).2 <> None) as Hrej.
    { intros res.
      destruct (cfg_retry sent) eqn:Hm.
      - rewrite !on_rejected_plain by auto. simpl. split; [reflexivity|discriminate].
      - assert ((exists dd, res = Response 401 dd) \/ (forall dd, res <> Response 401 dd))
          as [[dd ->]|Hne].
        { destruct res as [st dd|]; [|right; discriminate].
          destruct (decide (st = 401%Z)) as [->|Hst]; [left; eauto|].
          right. intros dd' Heq. inversion Heq. contradiction. }
        + rewrite !on_rejected_401 by exact Hm. cbv zeta. cbn [storage netlog].
          destruct (storage w !! "refresh_token") as [rt|];
            [|simpl; split; [reflexivity|discriminate]].
          destruct (truthy (Some rt)); [|simpl; split; [reflexivity|discriminate]].
          destruct (refreshed_access _) as [a|];
            [|simpl; split; [reflexivity|discriminate]].
          rewrite !client_marked by reflexivity. simpl.
          split; [reflexivity|discriminate].
        + rewrite !on_rejected_plain by (right; exact Hne).
          simpl. split; [reflexivity|discriminate]. }
    destruct (srv (netlog w) (ClientCall sent)) as [st data|]; [|apply Hrej].
    destruct (ok_status st); [|apply Hrej].
    simpl. split; [reflexivity|discriminate]. }
  apply H.
Qed.

(** *** [ApiService.logout] *)

Lemma ApiService_logout_rejected (w : World) :
  let sent := with_stored_token (storage w !! "access_token")
                (request "post" "/auth/logout/" None) in
  let res := srv (netlog w) (ClientCall sent) in
  (forall st d, res = Response st d -> ok_status st = false /\ st <> 401%Z) ->
  run srv ApiService_logout w
  = (mkWorld (storage w) (netlog w ++ [ClientCall sent]),
     Some (Rejected (mkError sent res))).
Proof.
  intros sent res Hres. unfold ApiService_logout, apiClient.
  change (mbind ?f ?p) with (bind p f). rewrite run_bind, client_unfold. cbv zeta.
  fold sent. fold res.
  destruct res as [st d|] eqn:Er.
  - destruct (Hres st d eq_refl) as [Hok Hst]. rewrite Hok.
    rewrite on_rejected_plain; [reflexivity|].
    right. intros d' Heq. inversion Heq. contradiction.
  - rewrite on_rejected_plain; [reflexivity|]. right. discriminate.
Qed.

Lemma ApiService_logout_resolved (w : World) (st : Z) (d : JSON) :
  let sent := with_stored_token (storage w !! "access_token")
                (request "post" "/auth/logout/" None) in
  srv (netlog w) (ClientCall sent) = Response st d -> ok_status st = true ->
  storage (run srv ApiService_logout w).1 = remove_keys session_keys (storage w).
Proof.
  intros sent Hres Hok. unfold ApiService_logout, apiClient.
  change (mbind ?f ?p) with (bind p f). rewrite run_bind, client_unfold. cbv zeta.
  fold sent. rewrite Hres, Hok. reflexivity.
Qed.

(** *** The stored tokens come in pairs *)

Lemma paired_insert_access (st : gmap string string) a :
  is_Some (st !! "refresh_token") -> tokens_paired (<["access_token" := a]> st).
Proof.
  intros Hr. unfold tokens_paired.
  rewrite lookup_insert_eq, lookup_insert_ne by done.
  split; intros _; [exact Hr|eauto].
Qed.

Lemma paired_remove (st : gmap string string) :
  tokens_paired (remove_keys session_keys st).
Proof.
  unfold tokens_paired, remove_keys, session_keys. simpl.
  rewrite lookup_delete_eq.
  rewrite lookup_delete_ne, lookup_delete_eq by done.
  split; intros [? ?]; discriminate.
Qed.

Lemma paired_store_tokens (st : gmap string string) a r :
  tokens_paired (set_entries [("access_token", a); ("refresh_token", r)] st).
Proof.
  unfold tokens_paired, set_entries. simpl.
  rewrite lookup_insert_ne, lookup_insert_eq by done.
  rewrite lookup_insert_eq. split; eauto.
Qed.

Lemma paired_store_user (st : gmap string string) u :
  tokens_paired st -> tokens_paired (<["user" := u]> st).
Proof.
  unfold tokens_paired. now rewrite !lookup_insert_ne by done.
Qed.

Lemma on_rejected_paired (retry : Config -> Prog (option Outcome))
    (config : Config) (res : HttpResult) (w : World) :
  (forall c w', tokens_paired (storage w') ->
                tokens_paired (storage (run srv (retry c) w').1)) ->
  tokens_paired (storage w) ->
  tokens_paired (storage (run srv (on_rejected retry config res) w).1).
Proof.
  intros Hretry Hw.
  destruct (cfg_retry config) eqn:Hm.
  { rewrite on_rejected_plain by auto. exact Hw. }
  assert ((exists dd, res = Response 401 dd) \/ (forall dd, res <> Response 401 dd))
    as [[dd ->]|Hne].
  { destruct res as [st dd|]; [|right; discriminate].
    destruct (decide (st = 401%Z)) as [->|Hst]; [left; eauto|].
    right. intros dd' Heq. inversion Heq. contradiction. }
  - rewrite on_rejected_401 by exact Hm. cbv zeta.
    destruct (storage w !! "refresh_token") as [rt|] eqn:Ert; [|exact Hw].
    destruct (truthy (Some rt)); [|exact Hw].
    destruct (refreshed_access _) as [a|].
    + apply Hretry. cbn [storage]. apply paired_insert_access.
      rewrite Ert. eauto.
    + cbn [storage fst]. apply paired_remove.
  - rewrite on_rejected_plain by (right; exact Hne). exact Hw.
Qed.

Lemma client_paired (fuel : nat) : forall (config : Config) (w : World),
  tokens_paired (storage w) ->
  tokens_paired (storage (run srv (client fuel config) w).1).
Proof.
  induction fuel as [|fuel IH]; intros config w Hw; [exact Hw|].
  rewrite client_unfold. cbv zeta.
  destruct (srv (netlog w) _) as [st d|].
  - destruct (ok_status st); [exact Hw|].
    apply on_rejected_paired; [exact IH|exact Hw].
  - apply on_rejected_paired; [exact IH|exact Hw].
Qed.

Lemma run_op_paired (w : World) (op : Op) :
  tokens_paired (storage w) -> tokens_paired (storage (run_op srv w op)).
Proof.
  intros Hw. destruct op as [a r|u| | |config]; cbn [run_op].
  - simpl. apply paired_store_tokens.
  - simpl. now apply paired_store_user.
  - simpl. apply paired_remove.
  - unfold ApiService_logout, apiClient.
    change (mbind ?f ?p) with (bind p f). rewrite run_bind.
    pose proof (client_paired 2 (request "post" "/auth/logout/" None) w Hw) as Hc.
    destruct (run srv (client 2 _) w) as [w' [[st d|e]|]]; simpl in *;
      [apply paired_remove|exact Hc|exact Hc].
  - now apply client_paired.
Qed.

Lemma run_ops_paired (ops : list Op) : forall w,
  tokens_paired (storage w) -> tokens_paired (storage (run_ops srv ops w)).
Proof.
  unfold run_ops. induction ops as [|op ops IH]; intros w Hw; simpl; [exact Hw|].
  apply IH. now apply run_op_paired.
Qed.

(** *** Overlapping requests *)

Lemma advance_client (fuel : nat) (config : Config) (w : World) (rt : string) :
  cfg_retry config = false -> truthy (Some rt) = true ->
  let sent := with_stored_token (storage w !! "access_token") config in
  exists t,
    advance (client (S fuel) config) w
    = (mkWorld (storage w) (netlog w ++ [ClientCall sent]), t)
    /\ awaiting (ClientCall sent) t /\ refreshes_on_401 rt t.
Proof.
  intros Hfresh Hrt sent. simpl. fold sent. eexists. split; [reflexivity|].
  split; [reflexivity|].
  intros d w' Hstored. simpl. unfold on_rejected.
  unfold sent at 1. rewrite with_stored_token_retry, Hfresh. simpl.
  rewrite Hstored, Hrt. simpl. eexists. reflexivity.
Qed.

Lemma start_all_clients (rt : string) (configs : list Config) :
  truthy (Some rt) = true ->
  Forall (fun c => cfg_retry c = false) configs ->
  forall (w : World) (acc : list (Task (option Outcome))),
  Forall (refreshes_on_401 rt) acc ->
  let r := fold_left
             (fun wp p => let '(w', t) := advance p wp.1 in (w', wp.2 ++ [t]))
             (List.map (client 2) configs) (w, acc) in
  storage r.1 = storage w
  /\ refresh_calls (netlog r.1) = refresh_calls (netlog w)
  /\ length r.2 = length acc + length configs
  /\ Forall (refreshes_on_401 rt) r.2.
Proof.
  intros Hrt Hfresh. induction Hfresh as [|c configs Hc _ IH]; intros w acc Hacc.
  - simpl. repeat split; auto.
  - cbn [List.map fold_left].
    destruct (advance_client 1 c w rt Hc Hrt) as (t & Ht & _ & Hp).
    cbn [fst snd]. rewrite Ht.
    specialize (IH (mkWorld (storage w)
                      (netlog w ++ [ClientCall
                         (with_stored_token (storage w !! "access_token") c)]))
                   (acc ++ [t])).
    destruct IH as (Hs & Hr & Hl & Hf).
    { apply Forall_app. split; [exact Hacc|]. now constructor. }
    cbv zeta in *. split; [exact Hs|]. split.
    + rewrite Hr. cbn [netlog]. unfold refresh_calls.
      rewrite List.filter_app. simpl. apply app_nil_r.
    + split; [|exact Hf]. rewrite Hl, length_app. simpl. lia.
Qed.

Lemma deliver_each_401 (rt : string) (pool : list (Task (option Outcome))) :
  Forall (refreshes_on_401 rt) pool ->
  forall (ds : list JSON) (w : World) (acc : list (Task (option Outcome))),
  length ds = length pool ->
  storage w !! "refresh_token" = Some rt ->
  Forall (awaiting (RefreshCall rt)) acc ->
  let r := fold_left
             (fun wp rt => let '(w', t) := deliver rt.1 rt.2 wp.1 in (w', wp.2 ++ [t]))
             (zip (List.map (Response 401) ds) pool) (w, acc) in
  storage r.1 = storage w
  /\ netlog r.1 = netlog w ++ repeat (RefreshCall rt) (length pool)
  /\ length r.2 = length acc + length pool
  /\ Forall (awaiting (RefreshCall rt)) r.2.
Proof.
  intros Hpool. induction Hpool as [|t pool Ht _ IH]; intros ds w acc Hlen Hstored Hacc.
  - destruct ds; [|discriminate]. simpl. rewrite app_nil_r.
    repeat split; auto.
  - destruct ds as [|d ds]; [discriminate|]. injection Hlen as Hlen.
    cbn [List.map zip zip_with fold_left fst snd].
    destruct (Ht d w Hstored) as (k & Hk). rewrite Hk.
    specialize (IH ds (mkWorld (storage w) (netlog w ++ [RefreshCall rt]))
                   (acc ++ [Awaiting (RefreshCall rt) k]) Hlen Hstored).
    destruct IH as (Hs & Hn & Hl & Hf).
    { apply Forall_app. split; [exact Hacc|]. constructor; [reflexivity|constructor]. }
    cbv zeta in *. split; [exact Hs|]. split.
    + rewrite Hn. cbn [netlog]. rewrite <- app_assoc. reflexivity.
    + split; [|exact Hf]. rewrite Hl, length_app. simpl. lia.
Qed.

End GatewayFacts.

(** ** The session provider *)

Section AuthFacts.

Import Auth.

#[local] Arguments truthy : simpl never.

Lemma refreshToken_calls_spec (n : nat) : forall (s : State),
  truthy (refreshTokenValue s) = true ->
  (refreshToken_calls n s).2 = n
  /\ posts (refreshToken_calls n s).1
     = posts s ++ repeat (mkPost "/auth/refresh/" (refreshTokenValue s)) n
  /\ authToken (refreshToken_calls n s).1 = authToken s
  /\ refreshTokenValue (refreshToken_calls n s).1 = refreshTokenValue s.
Proof.
  induction n as [|n IH]; intros s Hs.
  - simpl. rewrite app_nil_r. auto.
  - cbn [refreshToken_calls]. unfold refreshToken_call. rewrite Hs.
    specialize (IH (api_post "/auth/refresh/" (refreshTokenValue s) s) Hs).
    destruct (refreshToken_calls n _) as [s'' k]. simpl in *.
    destruct IH as (-> & -> & -> & ->).
    rewrite <- app_assoc. auto.
Qed.

Lemma refresh_posts_app (s s' : State) (ps : list Post) :
  posts s' = posts s ++ ps ->
  refresh_posts s'
  = refresh_posts s
    ++ List.filter (fun p => String.eqb (post_url p) "/auth/refresh/") ps.
Proof.
  intros H. unfold refresh_posts. rewrite H. apply List.filter_app.
Qed.

Lemma filter_repeat_refresh (body : option string) (n : nat) :
  List.filter (fun p => String.eqb (post_url p) "/auth/refresh/")
    (repeat (mkPost "/auth/refresh/" body) n)
  = repeat (mkPost "/auth/refresh/" body) n.
Proof.
  induction n as [|n IH]; simpl; [reflexivity|]. now rewrite IH.
Qed.

Lemma session_inv_paired (s : State) : session_inv s -> tokens_paired s.
Proof.
  unfold session_inv, tokens_paired.
  intros [[-> ->]|[Ha Hr]].
  - split; intros [? ?]; discriminate.
  - destruct (authToken s), (refreshTokenValue s); try discriminate.
    split; eauto.
Qed.

Lemma clearAuth_inv (s : State) : session_inv (clearAuth s).
Proof. left. split; reflexivity. Qed.

Lemma session_settle_inv (r : PostResult) (s : State) :
  session_inv s -> session_inv (state_of (session_settle r s)).
Proof.
  intros Hs. unfold session_settle.
  destruct r as [data|]; [|exact Hs].
  destruct (access data) as [a|] eqn:Ea; [|exact Hs].
  destruct (refresh data) as [rf|] eqn:Er; [|exact Hs].
  destruct (truthy (Some a) && truthy (Some rf)) eqn:Et; [|exact Hs].
  apply andb_true_iff in Et as [Hta Htr]. right. simpl. auto.
Qed.

Lemma refreshToken_inv (r : PostResult) (s : State) :
  session_inv s -> session_inv (state_of (refreshToken r s)).
Proof.
  intros Hs. unfold refreshToken, refreshToken_call.
  destruct (truthy (refreshTokenValue s)) eqn:Hrt; [|apply clearAuth_inv].
  unfold refreshToken_settle.
  destruct r as [data|]; [|apply clearAuth_inv].
  destruct (access data) as [a|] eqn:Ea; [|apply clearAuth_inv].
  destruct (truthy (Some a)) eqn:Hta; [|apply clearAuth_inv].
  right. simpl. auto.
Qed.

Lemma run_op_inv (s : State) (op : Op) : session_inv s -> session_inv (run_op s op).
Proof.
  intros Hs. destruct op as [c r|d r|r|r|]; cbn [run_op].
  - apply session_settle_inv. exact Hs.
  - apply session_settle_inv. exact Hs.
  - now apply refreshToken_inv.
  - destruct r; left; split; reflexivity.
  - apply clearAuth_inv.
Qed.

Lemma run_ops_inv (ops : list Op) : forall s,
  session_inv s -> session_inv (run_ops ops s).
Proof.
  unfold run_ops. induction ops as [|op ops IH]; intros s Hs; simpl; [exact Hs|].
  apply IH. now apply run_op_inv.
Qed.

(** [logout] of the provider clears the session in the same turn, and the
    answer of the server, whatever it is, does not bring it back. *)
Lemma logout_clears (s : State) (r : PostResult) :
  store_cleared (logout s) /\ store_cleared (logout_settle r (logout s)).
Proof.
  assert (store_cleared (logout s)) as H.
  { unfold store_cleared, logout, clearAuth. simpl.
    repeat split; try reflexivity.
    - rewrite lookup_insert_ne by done. rewrite lookup_insert_ne by done.
      apply lookup_insert_eq.
    - rewrite lookup_insert_ne by done. apply lookup_insert_eq.
    - apply lookup_insert_eq. }
  split; [exact H|]. destruct r; exact H.
Qed.

End AuthFacts.

(** ** Single flight (C1) *)

Section SingleFlight.

Import Gateway.

(** C1, as the code has it.  Neither [refreshToken] of the provider nor
    the response interceptor of the gateway keeps a refresh in flight for
    other callers to share.  Of [n] calls made before any answer arrives,
    with a refresh token held, each sends its own refresh request ([n]
    requests in all) and each is suspended on its own request; a caller
    then gets the outcome of its own request (success when its answer
    carries an access token, failure when its request is rejected). *)
Theorem refresh_calls_not_shared (n : nat)
    (s : Auth.State) (w : World) (rt : string)
    (configs : list Config) (ds : list JSON)
    (Hs : truthy (Auth.refreshTokenValue s) = true)
    (Hw : storage w !! "refresh_token" = Some rt)
    (Hrt : truthy (Some rt) = true)
    (Hconfigs : length configs = n)
    (Hds : length ds = n)
    (Hfresh : Forall (fun c => cfg_retry c = false) configs) :
  (let r := Auth.refreshToken_calls n s in
   r.2 = n
   /\ Auth.refresh_posts r.1
      = Auth.refresh_posts s
        ++ repeat (Auth.mkPost "/auth/refresh/" (Auth.refreshTokenValue s)) n)
  /\ (let started := start_all (List.map (client 2) configs) w in
      let r := deliver_each (List.map (Response 401) ds) started.2 started.1 in
      refresh_calls (netlog r.1) = refresh_calls (netlog w) ++ repeat (RefreshCall rt) n
      /\ length r.2 = n
      /\ Forall (awaiting (RefreshCall rt)) r.2)
  /\ (forall s' data a,
        Auth.access data = Some a -> truthy (Some a) = true ->
        returns_normally (Auth.refreshToken_settle (Auth.PostResolved data) s')
        /\ ~ returns_normally (Auth.refreshToken_settle Auth.PostRejected s')).
Proof.
  split; [|split].
  - cbv zeta. destruct (refreshToken_calls_spec n s Hs) as (Hk & Hp & _ & _).
    split; [exact Hk|].
    rewrite (refresh_posts_app s _ _ Hp). now rewrite filter_repeat_refresh.
  - cbv zeta. unfold start_all, deliver_each.
    pose proof (start_all_clients rt configs Hrt Hfresh w [] (List.Forall_nil _))
      as (Hs1 & Hr1 & Hl1 & Hf1).
    cbv zeta in *.
    set (started := fold_left _ (List.map (client 2) configs) (w, [])) in *.
    assert (length ds = length started.2) as Hlen by (rewrite Hl1; simpl; lia).
    assert (storage started.1 !! "refresh_token" = Some rt) as Hstored
      by (now rewrite Hs1).
    pose proof (deliver_each_401 rt started.2 Hf1 ds started.1 [] Hlen Hstored
                  (List.Forall_nil _)) as (Hs2 & Hn2 & Hl2 & Hf2).
    cbv zeta in *. split; [|split].
    + rewrite Hn2. unfold refresh_calls at 1. rewrite List.filter_app.
      fold (refresh_calls (netlog started.1)). rewrite Hr1. f_equal.
      rewrite Hl1. simpl. rewrite Hconfigs.
      clear. induction n as [|n IH]; simpl; [reflexivity|]. now rewrite IH.
    + rewrite Hl2, Hl1. simpl. lia.
    + exact Hf2.
  - intros s' data a Ha Hta. unfold Auth.refreshToken_settle.
    rewrite Ha, Hta. simpl. split; [exact I|]. intros [].
Qed.

End SingleFlight.

Lemma refresh_calls_not_shared_witness :
  length (Auth.refresh_posts (Auth.refreshToken_calls 2 logged_in).1) = 2
  /\ length (Gateway.refresh_calls
               (Gateway.netlog
                  (Gateway.deliver_each
                     [Gateway.Response 401 JNull; Gateway.Response 401 JNull]
                     (Gateway.start_all
                        [Gateway.client 2 get_bookings; Gateway.client 2 get_bookings]
                        (Gateway.mkWorld session_storage [])).2
                     (Gateway.start_all
                        [Gateway.client 2 get_bookings; Gateway.client 2 get_bookings]
                        (Gateway.mkWorld session_storage [])).1).1)) = 2.
Proof.
  assert (Forall (fun c => Gateway.cfg_retry c = false) [get_bookings; get_bookings])
    as Hfresh by (repeat constructor).
  pose proof (refresh_calls_not_shared 2 logged_in
                (Gateway.mkWorld session_storage []) "refresh-1"
                [get_bookings; get_bookings] [JNull; JNull]
                eq_refl eq_refl eq_refl eq_refl eq_refl Hfresh) as (Ha & Hg & _).
  cbv zeta in Ha, Hg. destruct Ha as (_ & Ha). destruct Hg as (Hg & _).
  split.
  - rewrite Ha. reflexivity.
  - change (List.map (Gateway.client 2) [get_bookings; get_bookings])
      with [Gateway.client 2 get_bookings; Gateway.client 2 get_bookings] in Hg.
    change (List.map (Gateway.Response 401) [JNull; JNull])
      with [Gateway.Response 401 JNull; Gateway.Response 401 JNull] in Hg.
    rewrite Hg. reflexivity.
Defined.

(** C1 as stated fails: two calls of [refreshToken] made before any
    answer arrives send two refresh requests, and both are pending. *)
Lemma single_flight_counterexample :
  Auth.refresh_posts logged_in = []
  /\ (Auth.refreshToken_calls 2 logged_in).2 = 2
  /\ Auth.refresh_posts (Auth.refreshToken_calls 2 logged_in).1
     = [Auth.mkPost "/auth/refresh/" (Some "refresh-1");
        Auth.mkPost "/auth/refresh/" (Some "refresh-1")]
  /\ (let w := Gateway.mkWorld session_storage [] in
      let started := Gateway.start_all
                       [Gateway.apiClient get_bookings; Gateway.apiClient get_bookings] w in
      let r := Gateway.deliver_each
                 [Gateway.Response 401 JNull; Gateway.Response 401 JNull]
                 started.2 started.1 in
      Gateway.refresh_calls (Gateway.netlog r.1)
      = [Gateway.RefreshCall "refresh-1"; Gateway.RefreshCall "refresh-1"]).
Proof. vm_compute. auto. Qed.

(** ** Refresh and retry on 401 (C3) *)

Lemma refresh_and_retry_once_witness :
  let result := Gateway.run srv_expired (Gateway.client 2 get_bookings)
                  (Gateway.mkWorld session_storage []) in
  length (Gateway.refresh_calls (Gateway.new_calls (Gateway.mkWorld session_storage [])
                                   result.1)) <= 1
  /\ length (Gateway.client_calls (Gateway.new_calls (Gateway.mkWorld session_storage [])
                                     result.1)) <= 2.
Proof.
  pose proof (refresh_and_retry_once srv_expired 2 get_bookings
                (Gateway.mkWorld session_storage []) JNull
                (le_n 2) eq_refl eq_refl) as H.
  cbv zeta in H. destruct H as (_ & Hr & Hc & _).
  split; [exact Hr|exact Hc].
Defined.

(** The same run, spelled out: one refresh, one retry with the new token
    and the marker, and the second 401 is the result. *)
Example expired_token_run :
  let result := Gateway.run srv_expired (Gateway.client 2 get_bookings)
                  (Gateway.mkWorld session_storage []) in
  Gateway.netlog result.1
  = [Gateway.ClientCall
       (Gateway.mkConfig "get" "/bookings/" None (Some "Bearer old-access") false);
     Gateway.RefreshCall "refresh-1";
     Gateway.ClientCall
       (Gateway.mkConfig "get" "/bookings/" None (Some "Bearer new-access") true)]
  /\ result.2
     = Some (Gateway.Rejected
               (Gateway.mkError
                  (Gateway.mkConfig "get" "/bookings/" None (Some "Bearer new-access") true)
                  (Gateway.Response 401 JNull)))
  /\ Gateway.storage result.1 !! "access_token" = Some "new-access".
Proof. vm_compute. auto. Qed.

(** C3 as stated fails: with no refresh token stored, a 401 triggers no
    refresh and no retry. *)
Lemma retry_counterexample :
  let w := Gateway.mkWorld ∅ [] in
  let result := Gateway.run srv_401 (Gateway.client 2 get_bookings) w in
  srv_401 (Gateway.netlog w) (Gateway.ClientCall get_bookings)
    = Gateway.Response 401 JNull
  /\ Gateway.refresh_calls (Gateway.netlog result.1) = []
  /\ Gateway.client_calls (Gateway.netlog result.1) = [get_bookings].
Proof. vm_compute. auto. Qed.

(** ** Logout (C4) *)

(** C4 on [ApiService.logout]: when the server answers the logout request
    with 500, or does not answer, the call is rejected and the three
    session entries are still stored. *)
Theorem ApiService_logout_failure_keeps_session :
  let w := Gateway.mkWorld session_storage [] in
  (let result := Gateway.run srv_500 Gateway.ApiService_logout w in
   (exists e, result.2 = Some (Gateway.Rejected e))
   /\ Gateway.storage result.1 !! "access_token" = Some "old-access"
   /\ Gateway.storage result.1 !! "refresh_token" = Some "refresh-1"
   /\ Gateway.storage result.1 !! "user" = Some "{}")
  /\ (let result := Gateway.run srv_silent Gateway.ApiService_logout w in
      (exists e, result.2 = Some (Gateway.Rejected e))
      /\ Gateway.storage result.1 !! "access_token" = Some "old-access"
      /\ Gateway.storage result.1 !! "refresh_token" = Some "refresh-1"
      /\ Gateway.storage result.1 !! "user" = Some "{}").
Proof.
  cbv zeta. split.
  - rewrite ApiService_logout_rejected.
    + split; [eexists; reflexivity|]. vm_compute. auto.
    + intros st d H. vm_compute in H. inversion H; subst. split; [reflexivity|lia].
  - rewrite ApiService_logout_rejected.
    + split; [eexists; reflexivity|]. vm_compute. auto.
    + intros st d H. vm_compute in H. discriminate.
Qed.

(** ** The tokens come in pairs (C5) *)

Section Pairing.

Import Gateway.

#[local] Arguments remove_keys : simpl never.
#[local] Arguments truthy : simpl never.

Lemma session_writes_bind {A B} (p : Prog A) (f : A -> Prog B) :
  session_writes p -> (forall a, session_writes (f a)) -> session_writes (bind p f).
Proof.
  intros Hp Hf. induction Hp; simpl; try (constructor; auto). apply Hf.
Qed.

Lemma on_rejected_session_writes (retry : Config -> Prog (option Outcome))
    (config : Config) (res : HttpResult) :
  (forall c, session_writes (retry c)) ->
  session_writes (on_rejected retry config res).
Proof.
  intros Hretry. unfold on_rejected.
  destruct (_ && _); [|constructor].
  change (mbind ?f ?p) with (bind p f). simpl.
  constructor. intros [rt|]; [|constructor].
  destruct (truthy (Some rt)); [|constructor].
  simpl. constructor. intros [st data|].
  - destruct (ok_status st).
    + destruct (access_of data).
      * simpl. constructor; [discriminate|]. apply Hretry.
      * simpl. repeat constructor.
    + simpl. repeat constructor.
  - simpl. repeat constructor.
Qed.

Lemma client_session_writes (fuel : nat) :
  forall config, session_writes (client fuel config).
Proof.
  induction fuel as [|fuel IH]; intros config; simpl; [constructor|].
  change (mbind ?f ?p) with (bind p f). simpl.
  constructor. intros token. constructor. intros [st data|].
  - destruct (ok_status st); [constructor|].
    now apply on_rejected_session_writes.
  - now apply on_rejected_session_writes.
Qed.

Lemma op_prog_session_writes (op : Op) : session_writes (op_prog op).
Proof.
  destruct op as [a r|u| | |config]; cbn [op_prog].
  - repeat constructor.
  - constructor; [discriminate|constructor].
  - repeat constructor.
  - change (session_writes (bind ApiService_logout (fun _ => mret tt))).
    apply session_writes_bind; [|intros; constructor].
    change (session_writes
              (bind (apiClient (request "post" "/auth/logout/" None))
                 (fun r => match r with
                           | Some (Resolved status data) =>
                               multiRemove session_keys ;;
                               mret (Some (Resolved status data))
                           | other => mret other
                           end))).
    apply session_writes_bind; [apply client_session_writes|].
    intros [[st d|e]|]; simpl; repeat constructor.
  - change (session_writes (bind (apiClient config) (fun _ => mret tt))).
    apply session_writes_bind; [apply client_session_writes|intros; constructor].
Qed.

Lemma resume_refresh_has_access {A} (t : Thread A) (w : World) :
  thread_session_writes t -> refresh_has_access (storage w) ->
  refresh_has_access (storage (resume t w).1)
  /\ thread_session_writes (resume t w).2.
Proof.
  intros Ht Hw. destruct t as [p|call k|a]; simpl in *; [|auto|auto].
  destruct Ht as [a|key k Hk|key value k Hkey Hk|a r k Hk|k Hk|call k Hk]; simpl.
  - auto.
  - auto.
  - split; [|exact Hk]. unfold refresh_has_access in *.
    rewrite lookup_insert_ne by done. intros Hr.
    destruct (decide (key = "access_token")) as [->|Hne].
    + rewrite lookup_insert_eq. eauto.
    + rewrite lookup_insert_ne by done. auto.
  - split; [|exact Hk]. unfold refresh_has_access, set_entries. simpl.
    intros _. rewrite lookup_insert_ne by done. rewrite lookup_insert_eq. eauto.
  - split; [|exact Hk]. unfold refresh_has_access, remove_keys, session_keys. simpl.
    rewrite lookup_delete_ne by done. rewrite lookup_delete_eq.
    intros [? ?]; discriminate.
  - split; [exact Hw|exact Hk].
Qed.

Lemma resume_n_refresh_has_access {A} (n : nat) :
  forall (t : Thread A) (w : World),
    thread_session_writes t -> refresh_has_access (storage w) ->
    refresh_has_access (storage (resume_n n t w).1)
    /\ thread_session_writes (resume_n n t w).2.
Proof.
  induction n as [|n IH]; intros t w Ht Hw; simpl; [auto|].
  destruct (resume_refresh_has_access t w Ht Hw) as [H1 H2].
  destruct (resume t w) as [w' t']. simpl in *. now apply IH.
Qed.

Lemma overlap_refresh_has_access (w : World) (pool : list (Thread unit)) (o : Overlap) :
  refresh_has_access (storage w) -> Forall thread_session_writes pool ->
  refresh_has_access (storage (overlap (w, pool) o).1)
  /\ Forall thread_session_writes (overlap (w, pool) o).2.
Proof.
  intros Hw Hpool. destruct o as [op|i n|i r]; simpl.
  - split; [exact Hw|]. apply Forall_app. split; [exact Hpool|].
    constructor; [apply op_prog_session_writes|constructor].
  - destruct (pool !! i) as [t|] eqn:Et; [|auto].
    assert (thread_session_writes t) as Ht.
    { rewrite List.Forall_forall in Hpool. apply Hpool.
      apply list_elem_of_In. eapply list_elem_of_lookup_2, Et. }
    destruct (resume_n_refresh_has_access n t w Ht Hw) as [H1 H2].
    destruct (resume_n n t w) as [w' t']. simpl in *.
    split; [exact H1|]. apply Forall_insert; assumption.
  - destruct (pool !! i) as [t|] eqn:Et; [|auto].
    assert (thread_session_writes t) as Ht.
    { rewrite List.Forall_forall in Hpool. apply Hpool.
      apply list_elem_of_In. eapply list_elem_of_lookup_2, Et. }
    destruct t as [p|call k|a]; simpl; auto.
    split; [exact Hw|]. apply Forall_insert; [exact Hpool|apply Ht].
Qed.

Lemma overlapped_refresh_has_access (os : list Overlap) (w : World) :
  refresh_has_access (storage w) ->
  refresh_has_access (storage (overlapped os w)).
Proof.
  unfold overlapped. intros Hw.
  assert (forall wp, refresh_has_access (storage wp.1) ->
                     Forall thread_session_writes wp.2 ->
                     refresh_has_access (storage (fold_left overlap os wp).1))
    as H.
  { induction os as [|o os IH]; intros [w0 pool] H1 H2; [exact H1|].
    destruct (overlap_refresh_has_access w0 pool o H1 H2) as [H3 H4].
    change (fold_left overlap (o :: os) (w0, pool))
      with (fold_left overlap os (overlap (w0, pool) o)).
    apply IH; assumption. }
  apply H; [exact Hw|constructor].
Qed.

Lemma turn_refresh_has_access (s : Auth.State) (t : Auth.Turn) :
  Auth.refresh_has_access s -> Auth.refresh_has_access (Auth.turn s t).
Proof.
  unfold Auth.refresh_has_access. intros Hs.
  destruct t as [c|r|d|r| |r| |r|]; simpl; try exact Hs.
  - unfold Auth.login_settle, Auth.session_settle.
    destruct r as [data|]; [|exact Hs].
    destruct (Auth.access data), (Auth.refresh data); try exact Hs.
    destruct (_ && _); simpl; [eauto|exact Hs].
  - unfold Auth.register_settle, Auth.session_settle.
    destruct r as [data|]; [|exact Hs].
    destruct (Auth.access data), (Auth.refresh data); try exact Hs.
    destruct (_ && _); simpl; [eauto|exact Hs].
  - unfold Auth.refreshToken_call.
    destruct (truthy (Auth.refreshTokenValue s)); simpl; [exact Hs|].
    intros [? ?]; discriminate.
  - unfold Auth.refreshToken_settle.
    destruct r as [data|]; simpl; [|intros [? ?]; discriminate].
    destruct (Auth.access data) as [a|]; simpl; [|intros [? ?]; discriminate].
    destruct (truthy (Some a)); simpl; [eauto|intros [? ?]; discriminate].
  - intros [? ?]; discriminate.
  - destruct r; exact Hs.
  - intros [? ?]; discriminate.
Qed.


End Pairing.


(** ** [connect] while connected (C6) *)

Lemma connect_opens_new_channel_witness :
  WS.ws (WS.connect sample_user_url connected_service) = Some 1
  /\ WS.connectionState (WS.connect sample_user_url connected_service) = WS.Connecting.
Proof.
  pose proof (connect_opens_new_channel sample_user_url connected_service) as (H & _).
  destruct (H "header.payload.signature" "{}" "ws://localhost:8000/ws/user/7/")
    as (_ & Hws & Hstate); try reflexivity; try discriminate.
  split; [exact Hws|exact Hstate].
Defined.

(** C6 as stated fails: on a service whose channel is open, [connect]
    opens a second channel and makes it the current one; the first stays
    open. *)
Lemma connect_idempotent_counterexample :
  let w := connected_service in
  let w' := WS.connect sample_user_url w in
  WS.connectionState w = WS.Connected
  /\ WS.ws w = Some 0 /\ length (WS.sockets w) = 1
  /\ WS.ws w' = Some 1 /\ length (WS.sockets w') = 2
  /\ WS.readyState <$> (WS.sockets w' !! 0) = Some WS.OPEN
  /\ WS.connectionState w' = WS.Connecting.
Proof. vm_compute. repeat split. Qed.

(** ** Unsubscribing (C7) *)

Section Unsubscribe.

Import Emitter.

Variable inherited : string -> bool.
Variable throws : Callback -> Data -> option string.


(** C7, as the code has it.  Let [off(event, callback)] be called on any
    table and let [after] be the table it leaves.
    (1) Whatever is done next (registrations, removals, dispatches, also
    calls that throw) short of registering the same callback for the same
    event again, no dispatch calls that callback for that event.
    (2) A second [off] with the same arguments leaves [after] as it is,
    and returns when the first one returned.
    (3) No call is taken away from the other listeners of the event: the
    calls a dispatch made to them before the removal are the first calls
    it makes after it, in the same order.
    (4) When the callback returns on the data dispatched, the dispatch
    after the removal is the dispatch before it with the callback's call
    left out, and it ends the same way.  (When the callback throws, the
    dispatch used to stop at it, and after the removal it goes on.)
    (5) Dispatches on other events are unchanged. *)
Theorem off_unsubscribes (listeners : gmap string (list Callback))
    (event : string) (callback : Callback) (ops : list Op)
    (Hno : ~ resubscribes event callback ops) :
  let after := state_of (EventEmitter.off inherited event callback listeners) in
  (forall inv, In inv (EventEmitter.run inherited throws ops after).2 ->
               ~ (inv_event inv = event /\ inv_callback inv = callback))
  /\ state_of (EventEmitter.off inherited event callback after) = after
  /\ (returns_normally (EventEmitter.off inherited event callback listeners) ->
       EventEmitter.off inherited event callback after = Normal after)
  /\ (forall data,
        EventEmitter.without callback
          (state_of (EventEmitter.emit inherited throws event data listeners))
        `prefix_of` state_of (EventEmitter.emit inherited throws event data after))
  /\ (forall data, throws callback data = None ->
        EventEmitter.emit inherited throws event data after
        = EventEmitter.map_state (EventEmitter.without callback)
            (EventEmitter.emit inherited throws event data listeners))
  /\ (forall event' data, event' <> event ->
        EventEmitter.emit inherited throws event' data after
        = EventEmitter.emit inherited throws event' data listeners).
Proof.
  intros after.
  assert (after = Emitter.off event callback listeners) as Hafter
    by apply called_off_state.
  split; [|split; [|split; [|split; [|split]]]].
  - apply called_run_never_invokes; [exact Hno|].
    rewrite Hafter. apply off_not_registered.
  - rewrite called_off_state, Hafter. apply off_idempotent.
  - apply called_off_again.
  - intros data. subst after. unfold EventEmitter.emit, EventEmitter.off.
    destruct (listeners !! event) as [cbs|] eqn:E; simpl.
    + rewrite lookup_insert_eq. apply forEach_filter_prefix.
    + destruct (inherited event) eqn:Ei; simpl; rewrite E, ?Ei; reflexivity.
  - intros data Hret. subst after. unfold EventEmitter.emit, EventEmitter.off.
    destruct (listeners !! event) as [cbs|] eqn:E; simpl.
    + rewrite lookup_insert_eq. now apply forEach_filter_returns.
    + destruct (inherited event) eqn:Ei; simpl; rewrite E, ?Ei; reflexivity.
  - intros event' data Hne. rewrite Hafter.
    unfold EventEmitter.emit, Emitter.off.
    destruct (listeners !! event) as [cbs|] eqn:E; [|reflexivity].
    now rewrite lookup_insert_ne by done.
Qed.

End Unsubscribe.

Lemma off_unsubscribes_witness :
  (EventEmitter.run sample_inherited first_throws
     [Emitter.OpEmit "booking_update" None;
      Emitter.OpOn "booking_update" 3;
      Emitter.OpOn "toString" 1;
      Emitter.OpEmit "booking_update" (Some JNull)]
     (state_of (EventEmitter.off sample_inherited "booking_update" 1 two_listeners))).2
  = [Emitter.Invoke "booking_update" 2 None;
     Emitter.Invoke "booking_update" 2 (Some JNull);
     Emitter.Invoke "booking_update" 3 (Some JNull)]
  /\ EventEmitter.off sample_inherited "booking_update" 1
       (state_of (EventEmitter.off sample_inherited "booking_update" 1 two_listeners))
     = Normal (state_of (EventEmitter.off sample_inherited "booking_update" 1
                           two_listeners)).
Proof.
  assert (~ Emitter.resubscribes "booking_update" 1
              [Emitter.OpEmit "booking_update" None;
               Emitter.OpOn "booking_update" 3;
               Emitter.OpOn "toString" 1;
               Emitter.OpEmit "booking_update" (Some JNull)]) as Hno.
  { unfold Emitter.resubscribes. simpl. intros [H|[H|[H|[H|[]]]]]; discriminate. }
  pose proof (off_unsubscribes sample_inherited first_throws two_listeners
                "booking_update" 1 _ Hno) as H.
  cbv zeta in H. destruct H as (_ & _ & Hagain & _).
  split; [vm_compute; reflexivity|].
  apply Hagain. vm_compute. exact I.
Defined.

(** C7 as stated fails: listener 1 throws, so a dispatch stops at it and
    listener 2, registered after it, is not called; once listener 1 is
    removed, listener 2 is called.  Removing a listener has changed the
    delivery to a remaining one. *)
Lemma off_changes_delivery_counterexample :
  two_listeners !! "booking_update" = Some [1; 2]
  /\ EventEmitter.emit sample_inherited first_throws "booking_update" None two_listeners
     = Thrown "Error" [Emitter.Invoke "booking_update" 1 None]
  /\ EventEmitter.emit sample_inherited first_throws "booking_update" None
       (state_of (EventEmitter.off sample_inherited "booking_update" 1 two_listeners))
     = Normal [Emitter.Invoke "booking_update" 2 None].
Proof. vm_compute. auto. Qed.

(** ** Sending while not connected (C8) *)

Lemma send_when_not_connected_witness :
  WS.send sample_stringify (JObj [("type", JStr "ping")]) connecting_service
  = Normal connecting_service
  /\ WS.transmitted connecting_service = [].
Proof.
  assert (WS.connectionState connecting_service <> WS.Connected) as Hstate
    by (intros H; vm_compute in H; discriminate).
  pose proof (send_when_not_connected sample_stringify sample_packet
                connecting_service Hstate) as (Hsend & _).
  split; [apply Hsend|reflexivity].
Defined.

(** ** Unknown and malformed frames (C9) *)

Lemma unknown_or_malformed_dropped_witness :
  returns_normally (WS.onmessage sample_parse "not json" connected_service)
  /\ WS.invoked (state_of (WS.onmessage sample_parse "not json" connected_service))
     = WS.invoked connected_service.
Proof.
  pose proof (unknown_or_malformed_dropped sample_parse "not json" connected_service
                (or_introl eq_refl)) as (Hn & Hi & _).
  split; [exact Hn|exact Hi].
Defined.

(** A frame "{}" parses to an object without [type]: it takes the
    [default] branch. *)
Example untyped_frame_dropped :
  WS.onmessage sample_parse "{}" connected_service
  = Normal (WS.log (WS.LogUnknownType None) connected_service).
Proof. reflexivity. Qed.

(** ** Token utilities (C10) *)

Section JwtFacts.

Import Jwt.

Variable atob : string -> option string.
Variable JSON_parse : string -> option JSON.
Variable to_number_other : JSON -> Num.

(** When decoding throws, the three functions return their fallbacks. *)
Lemma undecodable_token (currentTime : Q) (token : string) :
  payload_exp atob JSON_parse token = None ->
  isTokenExpired atob JSON_parse to_number_other currentTime token = true
  /\ getTokenExpiration atob JSON_parse to_number_other token = None
  /\ getTokenTimeUntilExpiry atob JSON_parse to_number_other currentTime token = Fin 0.
Proof.
  intros H. unfold isTokenExpired, getTokenExpiration, getTokenTimeUntilExpiry.
  rewrite H. auto.
Qed.

(** With a numeric [exp], the time until expiry is a number that is not
    negative. *)
Lemma time_until_expiry_non_negative (currentTime : Q) (token : string) :
  has_numeric_exp atob JSON_parse token ->
  non_negative
    (getTokenTimeUntilExpiry atob JSON_parse to_number_other currentTime token).
Proof.
  intros [q Hq]. unfold getTokenTimeUntilExpiry. rewrite Hq. simpl.
  destruct (Qle_bool 0 (q - currentTime)) eqn:E.
  - now apply Qle_bool_iff.
  - apply Qle_refl.
Qed.

(** C10 on a token that decodes but has no [exp].  [payload.exp] is
    [undefined], every comparison and subtraction with it is [NaN]-valued,
    and nothing throws: [isTokenExpired] answers [false],
    [getTokenExpiration] returns an invalid [Date] (not [null]) and
    [getTokenTimeUntilExpiry] returns [NaN] (not 0). *)
Theorem token_without_exp (currentTime : Q) (token : string)
    (Hdecodes : payload_exp atob JSON_parse token = Some None) :
  isTokenExpired atob JSON_parse to_number_other currentTime token = false
  /\ getTokenExpiration atob JSON_parse to_number_other token = Some (mkDate NaN)
  /\ getTokenTimeUntilExpiry atob JSON_parse to_number_other currentTime token = NaN.
Proof.
  unfold isTokenExpired, getTokenExpiration, getTokenTimeUntilExpiry.
  rewrite Hdecodes. auto.
Qed.

End JwtFacts.

Lemma token_without_exp_witness :
  Jwt.isTokenExpired sample_atob sample_parse sample_to_number 1700000000 "x.e30.y"
  = false
  /\ Jwt.getTokenExpiration sample_atob sample_parse sample_to_number "x.e30.y"
     = Some (Jwt.mkDate Jwt.NaN)
  /\ Jwt.getTokenTimeUntilExpiry sample_atob sample_parse sample_to_number
       1700000000 "x.e30.y" = Jwt.NaN.
Proof.
  exact (token_without_exp sample_atob sample_parse sample_to_number
           1700000000 "x.e30.y" eq_refl).
Defined.

(** A token without a dot: [atob("undefined")] throws, the fallbacks
    apply. *)
Example token_without_dot :
  Jwt.isTokenExpired sample_atob sample_parse sample_to_number 1700000000 "garbage"
  = true
  /\ Jwt.getTokenExpiration sample_atob sample_parse sample_to_number "garbage" = None.
Proof. split; reflexivity. Qed.

(** * Further properties of the code *)

(** ** Listeners and channels *)

Section MoreEmitter.

Import Emitter.

Lemma emit_on (event event' : string) (callback : Callback) (data : Data)
    (listeners : gmap string (list Callback)) :
  emit event data (on event' callback listeners)
  = emit event data listeners
    ++ (if String.eqb event' event then [Invoke event callback data] else []).
Proof.
  unfold emit, on. destruct (String.eqb_spec event' event) as [->|Hne].
  - destruct (listeners !! event) as [cbs|] eqn:E; rewrite lookup_insert_eq.
    + now rewrite List.map_app.
    + reflexivity.
  - destruct (listeners !! event') as [cbs|] eqn:E;
      rewrite lookup_insert_ne by done; now rewrite app_nil_r.
Qed.

(** X1.  A dispatch after registrations.  On a table built by calls of
    [on], a dispatch on an event whose name is not a member of
    [Object.prototype] calls the callbacks registered for that event, once
    per registration and in the order of registration (a callback
    registered twice is called twice), up to and including the first one
    that throws; callbacks of other events are not called.  When none of
    them throws, all are called and [emit] returns.  For a name that is a
    member of [Object.prototype] nothing can be registered and [emit]
    throws a [TypeError] without calling anything. *)
Theorem emit_after_registrations (inherited : string -> bool)
    (throws : Callback -> Data -> option string)
    (regs : list (string * Callback)) (event : string) (data : Data) :
  EventEmitter.emit inherited throws event data
    (EventEmitter.subscribe_all inherited regs ∅)
  = (if inherited event then Thrown "TypeError" []
     else EventEmitter.forEach throws event data (callbacks_for event regs))
  /\ (inherited event = false ->
       (forall cb, In cb (callbacks_for event regs) -> throws cb data = None) ->
       EventEmitter.emit inherited throws event data
         (EventEmitter.subscribe_all inherited regs ∅)
       = Normal (List.map (fun cb => Invoke event cb data) (callbacks_for event regs))).
Proof.
  assert (EventEmitter.emit inherited throws event data
            (EventEmitter.subscribe_all inherited regs ∅)
          = (if inherited event then Thrown "TypeError" []
             else EventEmitter.forEach throws event data (callbacks_for event regs)))
    as Hemit.
  { unfold EventEmitter.emit. rewrite subscribe_all_lookup, lookup_empty.
    destruct (inherited event); [reflexivity|].
    destruct (callbacks_for event regs); reflexivity. }
  split; [exact Hemit|].
  intros Hown Hret. rewrite Hemit, Hown. now apply forEach_all_return.
Qed.

(** X2.  Registering a callback and removing it again leaves every dispatch as
    it was, provided the callback was not already registered for that
    event. *)
Theorem on_off_restores_dispatch (listeners : gmap string (list Callback))
    (event : string) (callback : Callback)
    (Hnew : ~ registered event callback listeners) :
  forall event' data,
    emit event' data (off event callback (on event callback listeners))
    = emit event' data listeners.
Proof.
  intros event' data.
  destruct (String.eqb_spec event' event) as [->|Hne].
  - rewrite emit_off_same, emit_on, String.eqb_refl.
    rewrite List.filter_app. simpl. rewrite Nat.eqb_refl. simpl.
    rewrite app_nil_r.
    unfold emit. destruct (listeners !! event) as [cbs|] eqn:E; [|reflexivity].
    apply forallb_filter_id. apply forallb_forall.
    intros inv Hin. apply List.in_map_iff in Hin as (cb & <- & Hin). simpl.
    apply negb_true_iff, Nat.eqb_neq. intros ->.
    apply Hnew. exists cbs. auto.
  - rewrite emit_off_other by exact Hne. rewrite emit_on.
    destruct (String.eqb_spec event event') as [Heq|_]; [congruence|].
    apply app_nil_r.
Qed.

End MoreEmitter.

Lemma emit_after_registrations_witness :
  EventEmitter.emit sample_inherited none_throws "booking_update" None
    (EventEmitter.subscribe_all sample_inherited
       [("booking_update", 1); ("toString", 4); ("notification", 3);
        ("booking_update", 2); ("booking_update", 1)] ∅)
  = Normal [Emitter.Invoke "booking_update" 1 None;
            Emitter.Invoke "booking_update" 2 None;
            Emitter.Invoke "booking_update" 1 None].
Proof.
  pose proof (emit_after_registrations sample_inherited none_throws
                [("booking_update", 1); ("toString", 4); ("notification", 3);
                 ("booking_update", 2); ("booking_update", 1)]
                "booking_update" None) as (_ & H).
  rewrite H; [reflexivity|reflexivity|]. intros cb _. reflexivity.
Defined.

Lemma on_off_restores_dispatch_witness :
  Emitter.emit "booking_update" None
    (Emitter.off "booking_update" 3 (Emitter.on "booking_update" 3 two_listeners))
  = Emitter.emit "booking_update" None two_listeners.
Proof.
  apply on_off_restores_dispatch.
  intros (cbs & Hl & Hin). vm_compute in Hl. inversion Hl; subst.
  simpl in Hin. destruct Hin as [H|[H|[]]]; discriminate.
Defined.

Section MoreChannel.

Import Emitter WS.

Variable JSON_parse : string -> option JSON.
Variable JSON_stringify : JSON -> string.
Variable user_url : string -> option string.


Lemma set_readyState_sockets_length i r w :
  length (sockets (set_readyState i r w)) = length (sockets w).
Proof.
  unfold set_readyState. destruct (sockets w !! i); [|reflexivity].
  simpl. apply length_insert.
Qed.

Lemma set_readyState_lookup i r w s :
  sockets w !! i = Some s ->
  sockets (set_readyState i r w) !! i
  = Some (mkSocket (sock_url s) (sock_token s) r (sock_sent s)).
Proof.
  intros H. unfold set_readyState. rewrite H. simpl.
  apply list_lookup_insert_eq. eapply lookup_lt_Some, H.
Qed.

(** X4.  [disconnect] leaves the service without a current channel: it is not
    connected, a second [disconnect] changes nothing, and [send] returns
    normally without handing anything to a channel. *)
Theorem disconnect_idempotent (w : World) (message : JSON) :
  ws (disconnect w) = None
  /\ isConnected (disconnect w) = false
  /\ disconnect (disconnect w) = disconnect w
  /\ send JSON_stringify message (disconnect w) = Normal (disconnect w)
  /\ transmitted (disconnect w) = transmitted w.
Proof.
  assert (ws (disconnect w) = None) as Hws.
  { unfold disconnect. destruct (ws w) eqn:E; [reflexivity|exact E]. }
  split; [exact Hws|]. split; [|split; [|split]].
  - unfold isConnected, current_readyState. now rewrite Hws.
  - unfold disconnect at 1. now rewrite Hws.
  - unfold send. now rewrite Hws.
  - unfold disconnect. destruct (ws w) as [i|]; [|reflexivity].
    unfold transmitted, socket_close. simpl.
    destruct (sockets w !! i) as [s|] eqn:E; [|reflexivity].
    assert (forall r, concat (List.map sock_sent (sockets (set_readyState i r w)))
                      = concat (List.map sock_sent (sockets w))) as Hsame.
    { intros r. unfold set_readyState. rewrite E. simpl.
      f_equal. apply list_eq. intros j.
      rewrite !list_lookup_fmap.
      destruct (decide (j = i)) as [->|Hne].
      - rewrite list_lookup_insert_eq by (eapply lookup_lt_Some, E).
        now rewrite E.
      - now rewrite list_lookup_insert_ne by done. }
    destruct (readyState s); simpl; auto.
Qed.

End MoreChannel.


Section Reconnecting.

Import Emitter WS.

Variable JSON_parse : string -> option JSON.
Variable user_url : string -> option string.

#[local] Arguments truthy : simpl never.

Lemma connect_with_session (w : World) (token userString u : string) :
  storage w !! "access_token" = Some token ->
  storage w !! "user" = Some userString ->
  truthy (Some token) = true -> truthy (Some userString) = true ->
  user_url userString = Some u ->
  connect user_url w
  = set_ws (Some (length (sockets w)))
      (set_sockets (sockets w ++ [mkSocket u token CONNECTING []]) (set_url u w)).
Proof.
  intros Ht Hu Htt Hut Hurl. unfold connect.
  rewrite Ht, Hu, Htt, Hut. simpl. now rewrite Hurl.
Qed.

Lemma handleReconnect_fields (w : World) :
  sockets (handleReconnect w) = sockets w
  /\ storage (handleReconnect w) = storage w
  /\ ws (handleReconnect w) = ws w
  /\ fired_timers (handleReconnect w) = fired_timers w.
Proof.
  unfold handleReconnect, fired_timers.
  destruct (_ <? _)%Z; simpl; repeat split; auto.
  rewrite List.filter_app. simpl. apply app_nil_r.
Qed.

(** X5.  [disconnect] does not stop the reconnection logic.  On a service with
    a current channel, fewer than five attempts counted and a session
    stored, the [close] event that follows [disconnect] arms a reconnection
    timer, and when that timer fires a new channel is opened and becomes
    the current one. *)
Theorem disconnect_does_not_stop_reconnection (w : World) (i : nat) (s : Socket)
    (token userString u : string)
    (Hws : ws w = Some i)
    (Hsock : sockets w !! i = Some s)
    (Hattempts : (0 <= reconnectAttempts w < 5)%Z)
    (Htoken : storage w !! "access_token" = Some token)
    (Huser : storage w !! "user" = Some userString)
    (Htruthy : token <> "" /\ userString <> "")
    (Hurl : user_url userString = Some u) :
  let w1 := disconnect w in
  let w2 := handle JSON_parse user_url w1 (SockClose i) in
  let w3 := handle JSON_parse user_url w2 (TimerFires (length (timers w))) in
  connectionState w1 <> Connected
  /\ timers w2 = timers w ++ [mkTimer (1000 * 2 ^ reconnectAttempts w)%Z false]
  /\ ws w3 = Some (length (sockets w))
  /\ connectionState w3 = Connecting.
Proof.
  destruct Htruthy as [Hne1 Hne2].
  assert (truthy (Some token) = true) as Htt
    by (unfold truthy; now apply negb_true_iff, String.eqb_neq).
  assert (truthy (Some userString) = true) as Hut
    by (unfold truthy; now apply negb_true_iff, String.eqb_neq).
  intros w1 w2 w3.
  assert (exists s1, sockets w1 !! i = Some s1 /\ length (sockets w1) = length (sockets w)
                     /\ timers w1 = timers w /\ reconnectAttempts w1 = reconnectAttempts w
                     /\ storage w1 = storage w /\ ws w1 = None)
    as (s1 & Hs1 & Hl1 & Ht1 & Ha1 & Hst1 & Hws1).
  { subst w1. unfold disconnect. rewrite Hws. unfold socket_close. rewrite Hsock.
    destruct (readyState s); simpl;
      try (eexists; split; [exact Hsock|auto]);
      (eexists; split;
       [unfold set_readyState; rewrite Hsock; simpl;
        apply list_lookup_insert_eq; eapply lookup_lt_Some, Hsock
       |unfold set_readyState; rewrite Hsock; simpl; rewrite length_insert; auto]). }
  split.
  { unfold connectionState, current_readyState. rewrite Hws1.
    destruct (pending_timers w1); [destruct (_ <=? _)%Z|]; discriminate. }
  assert (w2 = handleReconnect (log LogDisconnected (set_readyState i CLOSED w1))) as Hw2.
  { subst w2. unfold handle. now rewrite Hs1. }
  destruct (set_readyState_fields i CLOSED w1) as (Hra & Hrt & Hrw).
  assert (timers w2 = timers w ++ [mkTimer (1000 * 2 ^ reconnectAttempts w)%Z false]
          /\ sockets w2 = sockets (set_readyState i CLOSED w1)
          /\ storage w2 = storage w) as (Ht2 & Hs2 & Hst2).
  { rewrite Hw2, handleReconnect_below
      by (simpl; rewrite Hra, Ha1; unfold maxReconnectAttempts; lia).
    simpl. rewrite Hra, Hrt, Ha1, Ht1. unfold reconnectDelay.
    split; [reflexivity|]. split; [reflexivity|].
    unfold set_readyState. rewrite Hs1. simpl. exact Hst1. }
  split; [exact Ht2|].
  assert (length (sockets w2) = length (sockets w)) as Hl2.
  { rewrite Hs2. unfold set_readyState. rewrite Hs1. simpl.
    now rewrite length_insert. }
  subst w3. unfold handle. rewrite Ht2.
  rewrite lookup_app_r by lia. rewrite Nat.sub_diag. simpl.
  match goal with |- context [connect user_url ?x] => set (w' := x) end.
  assert (storage w' = storage w) as Hst' by (subst w'; simpl; exact Hst2).
  assert (sockets w' = sockets w2) as Hso' by (subst w'; reflexivity).
  rewrite (connect_with_session w' token userString u)
    by (rewrite ?Hst'; assumption).
  rewrite Hso', Hl2. split; [reflexivity|].
  unfold connectionState, current_readyState. simpl.
  rewrite lookup_app_r by lia. rewrite Hl2, Nat.sub_diag. reflexivity.
Qed.

(** X6.  A successful open resets the backoff: whatever came before, the next
    close arms a timer of 1000 ms and counts attempt 1. *)
Theorem open_resets_backoff (w : World) (i j : nat) (s : Socket)
    (Hopen : sockets w !! i = Some s)
    (Hj : j < length (sockets w)) :
  let w1 := handle JSON_parse user_url w (SockOpen i) in
  let w2 := handle JSON_parse user_url w1 (SockClose j) in
  reconnectAttempts w1 = 0%Z
  /\ reconnectAttempts w2 = 1%Z
  /\ timers w2 = timers w ++ [mkTimer 1000 false].
Proof.
  intros w1 w2.
  assert (reconnectAttempts w1 = 0%Z /\ timers w1 = timers w
          /\ length (sockets w1) = length (sockets w)) as (Ha1 & Ht1 & Hl1).
  { subst w1. unfold handle. rewrite Hopen. simpl.
    destruct (set_readyState_fields i OPEN w) as (_ & Ht & _).
    rewrite Ht. split; [reflexivity|]. split; [reflexivity|].
    unfold set_readyState. rewrite Hopen. simpl. apply length_insert. }
  split; [exact Ha1|].
  destruct (lookup_lt_is_Some_2 (sockets w1) j) as [sj Hsj]; [lia|].
  subst w2. unfold handle. rewrite Hsj.
  destruct (set_readyState_fields j CLOSED w1) as (Hra & Hrt & _).
  rewrite handleReconnect_below
    by (simpl; rewrite Hra, Ha1; unfold maxReconnectAttempts; lia).
  simpl. rewrite Hra, Hrt, Ha1, Ht1. auto.
Qed.

(** X7.  Once the stored session is gone, reconnection ends: a reconnection
    timer that fires opens no channel and arms no timer; it only logs. *)
Theorem reconnect_stops_without_session (w : World) (j : nat) (t : Timer)
    (Htimer : timers w !! j = Some t)
    (Hpending : fired t = false)
    (Hgone : truthy (storage w !! "access_token") = false
             \/ truthy (storage w !! "user") = false) :
  let w' := handle JSON_parse user_url w (TimerFires j) in
  sockets w' = sockets w
  /\ ws w' = ws w
  /\ scheduled_delays w' = scheduled_delays w
  /\ length (pending_timers w') < length (pending_timers w)
  /\ console w' = console w ++ [LogAttempt (reconnectAttempts w); LogNoAuth].
Proof.
  intros w'. subst w'. unfold handle. rewrite Htimer, Hpending.
  match goal with |- context [connect user_url ?x] => set (w0 := x) end.
  assert (connect user_url w0 = log LogNoAuth w0) as ->.
  { unfold connect. subst w0. simpl.
    destruct Hgone as [-> | ->]; simpl; [reflexivity|].
    now rewrite orb_true_r. }
  subst w0. simpl. split; [reflexivity|]. split; [reflexivity|].
  split; [|split].
  - unfold scheduled_delays. simpl. now apply map_delay_mark_fired.
  - unfold pending_timers. simpl.
    clear - Htimer Hpending. revert j Htimer.
    induction (timers w) as [|t0 ts IH]; intros [|j] H; simpl in *; try discriminate.
    + inversion H; subst. rewrite Hpending. simpl. lia.
    + specialize (IH j H). destruct (negb (fired t0)); simpl; lia.
  - now rewrite <- app_assoc.
Qed.

End Reconnecting.

Lemma disconnect_does_not_stop_reconnection_witness :
  WS.ws (WS.handle sample_parse sample_user_url
           (WS.handle sample_parse sample_user_url (WS.disconnect connected_service)
              (WS.SockClose 0))
           (WS.TimerFires 0))
  = Some 1%nat.
Proof.
  assert (WS.sockets connected_service !! 0%nat
          = Some (WS.mkSocket "ws://localhost:8000/ws/user/7/"
                    "header.payload.signature" WS.OPEN [])) as Hsock
    by (vm_compute; reflexivity).
  assert (0 <= WS.reconnectAttempts connected_service < 5)%Z as Hattempts
    by (change (WS.reconnectAttempts connected_service) with 0%Z; lia).
  assert (WS.storage connected_service !! "access_token"
          = Some "header.payload.signature") as Htoken by (vm_compute; reflexivity).
  assert (WS.storage connected_service !! "user" = Some "{}") as Huser
    by (vm_compute; reflexivity).
  assert (("header.payload.signature" : string) <> "" /\ ("{}" : string) <> "")
    as Htruthy by (split; discriminate).
  pose proof (disconnect_does_not_stop_reconnection sample_parse sample_user_url
                connected_service 0 _ _ _ "ws://localhost:8000/ws/user/7/"
                eq_refl Hsock Hattempts Htoken Huser Htruthy eq_refl) as H.
  cbv zeta in H. destruct H as (_ & _ & H & _). exact H.
Defined.

Lemma open_resets_backoff_witness :
  WS.timers (WS.handle sample_parse sample_user_url connected_service (WS.SockClose 0))
  = [WS.mkTimer 1000 false].
Proof.
  assert (WS.sockets connecting_service !! 0%nat
          = Some (WS.mkSocket "ws://localhost:8000/ws/user/7/"
                    "header.payload.signature" WS.CONNECTING [])) as Hsock
    by (vm_compute; reflexivity).
  assert (0 < length (WS.sockets connecting_service)) as Hj
    by (vm_compute; lia).
  pose proof (open_resets_backoff sample_parse sample_user_url connecting_service
                0 0 _ Hsock Hj) as H.
  cbv zeta in H. destruct H as (_ & _ & H). exact H.
Defined.

Lemma reconnect_stops_without_session_witness :
  WS.sockets (WS.handle sample_parse sample_user_url logged_out_service (WS.TimerFires 0))
  = WS.sockets logged_out_service.
Proof.
  assert (WS.timers logged_out_service !! 0%nat = Some (WS.mkTimer 1000 false))
    as Htimer by (vm_compute; reflexivity).
  assert (truthy (WS.storage logged_out_service !! "access_token") = false
          \/ truthy (WS.storage logged_out_service !! "user") = false) as Hgone
    by (left; vm_compute; reflexivity).
  pose proof (reconnect_stops_without_session sample_parse sample_user_url
                logged_out_service 0 _ Htimer eq_refl Hgone) as H.
  cbv zeta in H. destruct H as (H & _). exact H.
Defined.

Section ChannelInvariants.

Import Emitter WS.

Variable JSON_parse : string -> option JSON.
Variable user_url : string -> option string.

#[local] Arguments truthy : simpl never.

Lemma handleMessage_storage message w :
  storage (state_of (handleMessage message w)) = storage w.
Proof.
  unfold handleMessage.
  destruct (get_prop message "type") as [t|], (get_prop message "data") as [d|];
    simpl; auto.
  repeat (match goal with |- context [if ?b then _ else _] => destruct b end);
    simpl; auto.
Qed.

Lemma onmessage_storage frame w :
  storage (state_of (onmessage JSON_parse frame w)) = storage w.
Proof.
  unfold onmessage, try_catch.
  destruct (JSON_parse frame) as [message|]; [|reflexivity].
  pose proof (handleMessage_storage message w) as H.
  destruct (handleMessage message w); simpl in *; auto.
Qed.

Lemma channels_authorized_mono seen seen' w :
  (forall st, In st seen -> In st seen') ->
  channels_authorized seen w -> channels_authorized seen' w.
Proof.
  unfold channels_authorized. intros Hincl H.
  eapply List.Forall_impl; [|exact H]. simpl.
  intros s (Hne & st & Hin & Hst). split; [exact Hne|]. exists st. auto.
Qed.

Lemma set_readyState_authorized seen i r w :
  channels_authorized seen w -> channels_authorized seen (set_readyState i r w).
Proof.
  unfold channels_authorized, set_readyState. intros H.
  destruct (sockets w !! i) as [s|] eqn:E; [|exact H]. simpl.
  apply Forall_insert; [exact H|]. simpl.
  rewrite List.Forall_forall in H. apply (H s).
  apply list_elem_of_In. eapply list_elem_of_lookup_2, E.
Qed.

Lemma same_channels_authorized seen w w' :
  sockets w' = sockets w ->
  channels_authorized seen w -> channels_authorized seen w'.
Proof. unfold channels_authorized. now intros ->. Qed.

Lemma connect_authorized seen w :
  In (storage w) seen ->
  channels_authorized seen w -> channels_authorized seen (connect user_url w).
Proof.
  intros Hseen H. unfold connect.
  destruct (negb (truthy (storage w !! "access_token"))
            || negb (truthy (storage w !! "user"))) eqn:Eb; [exact H|].
  apply orb_false_elim in Eb as [Ht _]. apply negb_false_iff in Ht.
  destruct (storage w !! "access_token") as [token|] eqn:Et; [|exact H].
  destruct (storage w !! "user") as [u0|]; [|exact H].
  destruct (user_url u0) as [u|]; [|exact H].
  unfold channels_authorized in *. simpl. apply Forall_app. split; [exact H|].
  constructor; [|constructor]. simpl. split.
  - unfold truthy in Ht. apply negb_true_iff, String.eqb_neq in Ht. exact Ht.
  - exists (storage w). auto.
Qed.

Lemma handle_authorized seen w ev :
  In (storage w) seen ->
  channels_authorized seen w ->
  channels_authorized seen (handle JSON_parse user_url w ev)
  /\ storage (handle JSON_parse user_url w ev) = storage w.
Proof.
  intros Hseen H. destruct ev as [i|i|i|i frame|i|i name data|j]; simpl.
  - destruct (sockets w !! i) eqn:E; [|auto]. split.
    + apply (same_channels_authorized seen (set_readyState i OPEN w)); try reflexivity.
      now apply set_readyState_authorized.
    + simpl. unfold set_readyState. now rewrite E.
  - destruct (sockets w !! i) eqn:E; [|auto].
    destruct (handleReconnect_fields
                (log LogDisconnected (set_readyState i CLOSED w))) as (Hs & Hst & _).
    split.
    + eapply same_channels_authorized; [exact Hs|].
      apply (same_channels_authorized seen (set_readyState i CLOSED w)); try reflexivity.
      now apply set_readyState_authorized.
    + rewrite Hst. simpl. unfold set_readyState. now rewrite E.
  - destruct (sockets w !! i); auto.
  - destruct (sockets w !! i); [|auto].
    destruct (onmessage_fields JSON_parse frame w) as (_ & _ & Hs & _).
    split; [|apply onmessage_storage].
    eapply same_channels_authorized; [exact Hs|exact H].
  - destruct (sockets w !! i); [|auto].
    destruct (handleReconnect_fields (log LogConnectError w)) as (Hs & Hst & _).
    split; [|exact Hst].
    eapply same_channels_authorized; [exact Hs|exact H].
  - destruct (sockets w !! i); [|auto].
    repeat (match goal with |- context [if ?b then _ else _] => destruct b end);
      auto.
  - destruct (timers w !! j) as [t|]; [|auto].
    destruct (fired t); [auto|].
    match goal with |- context [connect user_url ?x] => set (w0 := x) end.
    destruct (connect_fields user_url w0) as (_ & _ & _ & _ & Hst).
    split; [|exact Hst].
    apply connect_authorized; [exact Hseen|exact H].
Qed.

Lemma steps_authorized (xs : list Step) :
  forall seen w,
    In (storage w) seen -> channels_authorized seen w ->
    channels_authorized
      (seen ++ omap (fun x => match x with
                              | Stored st' => Some st'
                              | Delivered _ => None
                              end) xs)
      (steps JSON_parse user_url xs w).
Proof.
  unfold steps. induction xs as [|x xs IH]; intros seen w Hseen H; simpl.
  - now rewrite app_nil_r.
  - destruct x as [ev|st]; simpl.
    + destruct (handle_authorized seen w ev Hseen H) as [H1 H2].
      apply IH; [now rewrite H2|exact H1].
    + match goal with |- channels_authorized (seen ++ st :: ?l) _ =>
        change (seen ++ st :: l) with (seen ++ [st] ++ l) end.
      rewrite app_assoc. apply IH.
      * simpl. apply in_or_app. right. now left.
      * apply (channels_authorized_mono seen); [intros; apply in_or_app; now left|].
        apply (same_channels_authorized seen w); [reflexivity|exact H].
Qed.

(** X8.  No channel is ever opened without credentials.  Take any run of
    the service from its construction, in which the platform delivers
    events and other code rewrites [AsyncStorage] in between (a refreshed
    access token, a logout).  Each channel the service has opened carries
    a token that is not empty and that was the access token held in
    [AsyncStorage] at some point of the run. *)
Theorem channels_always_authorized (st : gmap string string) (xs : list Step) :
  channels_authorized (stores_seen st xs)
    (steps JSON_parse user_url xs (connect user_url (initial st))).
Proof.
  unfold stores_seen.
  change (st :: omap ?f xs) with ([st] ++ omap f xs).
  apply steps_authorized.
  - destruct (connect_fields user_url (initial st)) as (_ & _ & _ & _ & ->).
    now left.
  - apply connect_authorized; [now left|constructor].
Qed.

(** What bounds the channels: one for the constructor, one per timer that
    has fired. *)
Lemma handle_channel_count w ev :
  length (sockets w) <= 1 + length (fired_timers w) ->
  length (sockets (handle JSON_parse user_url w ev))
  <= 1 + length (fired_timers (handle JSON_parse user_url w ev)).
Proof.
  intros H. destruct ev as [i|i|i|i frame|i|i name data|j]; simpl.
  - destruct (sockets w !! i); [|exact H].
    unfold fired_timers in *. simpl.
    destruct (set_readyState_fields i OPEN w) as (_ & Ht & _).
    rewrite Ht, set_readyState_sockets_length. exact H.
  - destruct (sockets w !! i); [|exact H].
    destruct (handleReconnect_fields
                (log LogDisconnected (set_readyState i CLOSED w))) as (Hs & _ & _ & Hf).
    rewrite Hs, Hf. unfold fired_timers in *. simpl.
    destruct (set_readyState_fields i CLOSED w) as (_ & Ht & _).
    rewrite Ht, set_readyState_sockets_length. exact H.
  - destruct (sockets w !! i); exact H.
  - destruct (sockets w !! i); [|exact H].
    destruct (onmessage_fields JSON_parse frame w) as (_ & Ht & Hs & _).
    unfold fired_timers in *. rewrite Hs, Ht. exact H.
  - destruct (sockets w !! i); [|exact H].
    destruct (handleReconnect_fields (log LogConnectError w)) as (Hs & _ & _ & Hf).
    rewrite Hs, Hf. exact H.
  - destruct (sockets w !! i); [|exact H].
    repeat (match goal with |- context [if ?b then _ else _] => destruct b end);
      exact H.
  - destruct (timers w !! j) as [t|] eqn:Et; [|exact H].
    destruct (fired t) eqn:Ef; [exact H|].
    match goal with |- context [connect user_url ?x] => set (w0 := x) end.
    assert (length (fired_timers w0) = S (length (fired_timers w))) as Hf0.
    { subst w0. unfold fired_timers. simpl. clear - Et Ef. revert j Et.
      induction (timers w) as [|t0 ts IH]; intros [|j] He; simpl in *;
        try discriminate.
      - inversion He; subst. rewrite Ef. reflexivity.
      - specialize (IH j He). destruct (fired t0); simpl; lia. }
    assert (length (sockets (connect user_url w0)) <= S (length (sockets w))
            /\ fired_timers (connect user_url w0) = fired_timers w0) as [Hs Hf].
    { destruct (connect_fields user_url w0) as (_ & Ht & _).
      unfold fired_timers. rewrite Ht. split; [|reflexivity].
      unfold connect. subst w0. simpl.
      destruct (negb _ || negb _); [simpl; lia|].
      destruct (storage w !! "access_token"), (storage w !! "user"); simpl; try lia.
      destruct (user_url _); simpl; [rewrite length_app; simpl; lia|lia]. }
    rewrite Hf, Hf0. lia.
Qed.

(** X9.  Reconnection gives up: from its construction, as long as no channel
    opens, the service opens at most six channels (the constructor's and
    five retries), whatever else the platform delivers. *)
Theorem at_most_six_channels (st : gmap string string) (evs : list Event)
    (Hfail : Forall not_open evs) :
  length (sockets (run JSON_parse user_url evs (connect user_url (initial st)))) <= 6.
Proof.
  set (w0 := connect user_url (initial st)).
  assert (backoff_inv w0 /\ length (sockets w0) <= 1 + length (fired_timers w0))
    as [Hb0 Hc0].
  { destruct (connect_fields user_url (initial st)) as (Ha & Ht & _).
    split.
    - unfold backoff_inv, scheduled_delays. subst w0. rewrite Ha, Ht. simpl.
      split; [lia|reflexivity].
    - subst w0. unfold connect. simpl.
      destruct (negb _ || negb _); [simpl; lia|].
      destruct (st !! "access_token"), (st !! "user"); simpl; try lia.
      destruct (user_url _); simpl; lia. }
  assert (forall w, length (sockets w) <= 1 + length (fired_timers w) ->
            length (sockets (run JSON_parse user_url evs w))
            <= 1 + length (fired_timers (run JSON_parse user_url evs w))) as Hcount.
  { clear. unfold run. induction evs as [|ev evs IH]; intros w Hw; simpl; [exact Hw|].
    apply IH. now apply handle_channel_count. }
  pose proof (run_inv JSON_parse user_url evs w0 Hfail Hb0) as [Hr Hs].
  specialize (Hcount w0 Hc0).
  set (w := run JSON_parse user_url evs w0) in *.
  assert (length (fired_timers w) <= 5).
  { transitivity (length (timers w)).
    - unfold fired_timers. apply List.filter_length_le.
    - unfold scheduled_delays in Hs.
      rewrite <- (List.length_map delay), Hs, List.length_firstn.
      simpl. lia. }
  lia.
Qed.

End ChannelInvariants.

Lemma at_most_six_channels_witness :
  length (WS.sockets
            (WS.run sample_parse sample_user_url
               [WS.SockClose 0; WS.TimerFires 0; WS.SockClose 1]
               (WS.connect sample_user_url (WS.initial sample_storage)))) <= 6.
Proof.
  apply at_most_six_channels. repeat constructor.
Defined.

(** ** The request gateway and its storage helpers *)

Section MoreGateway.

Import Gateway.

Variable srv : Server.
Variable JSON_parse : string -> option JSON.

#[local] Arguments truthy : simpl never.
#[local] Arguments remove_keys : simpl never.

Lemma client_plain (fuel : nat) (config : Config) (w : World) :
  1 <= fuel ->
  (forall d,
      srv (netlog w)
          (ClientCall (with_stored_token (storage w !! "access_token") config))
      <> Response 401 d) ->
  run srv (client fuel config) w
  = (mkWorld (storage w)
       (netlog w ++ [ClientCall (with_stored_token (storage w !! "access_token") config)]),
     Some (settle (with_stored_token (storage w !! "access_token") config)
             (srv (netlog w)
                (ClientCall (with_stored_token (storage w !! "access_token") config))))).
Proof.
  intros Hfuel Hnot401. destruct fuel as [|fuel]; [lia|].
  set (sent := with_stored_token (storage w !! "access_token") config) in *.
  rewrite client_unfold. cbv zeta. fold sent.
  unfold settle.
  destruct (srv (netlog w) (ClientCall sent)) as [st d|] eqn:E.
  - destruct (ok_status st); [reflexivity|].
    rewrite on_rejected_plain; [reflexivity|].
    right. intros d' Heq. apply (Hnot401 d'). exact Heq.
  - rewrite on_rejected_plain; [reflexivity|]. right. discriminate.
Qed.

(** X10.  A request whose first answer is not a 401 is sent exactly once: no
    refresh call is made, [AsyncStorage] is left as it was, and the call
    resolves when the status is 2xx and is rejected with that answer
    otherwise (any other status, or no response at all). *)
Theorem request_without_401 (fuel : nat) (config : Config) (w : World)
    (Hfuel : 1 <= fuel)
    (Hnot401 : forall d,
        srv (netlog w)
            (ClientCall (with_stored_token (storage w !! "access_token") config))
        <> Response 401 d) :
  let sent := with_stored_token (storage w !! "access_token") config in
  run srv (client fuel config) w
  = (mkWorld (storage w) (netlog w ++ [ClientCall sent]),
     Some (settle sent (srv (netlog w) (ClientCall sent)))).
Proof.
  cbv zeta. now apply client_plain.
Qed.

(** X11.  Whatever the request and whatever the server answers, one call
    through the client always settles, makes at most three network calls
    (the request, one refresh, one retry) and at most one refresh call. *)
Theorem client_calls_bounded (fuel : nat) (config : Config) (w : World)
    (Hfuel : 2 <= fuel) :
  let result := run srv (client fuel config) w in
  let calls := new_calls w result.1 in
  result.2 <> None
  /\ netlog result.1 = netlog w ++ calls
  /\ length calls <= 3
  /\ length (refresh_calls calls) <= 1.
Proof.
  intros result calls.
  destruct (client_fuel srv fuel config w Hfuel) as [Hsame Hsettles].
  split; [exact Hsettles|].
  subst calls result. unfold new_calls. rewrite Hsame.
  set (sent := with_stored_token (storage w !! "access_token") config).
  assert ((exists d, srv (netlog w) (ClientCall sent) = Response 401 d)
          \/ (forall d, srv (netlog w) (ClientCall sent) <> Response 401 d))
    as [[d H401]|Hne].
  { destruct (srv (netlog w) (ClientCall sent)) as [st dd|]; [|right; discriminate].
    destruct (decide (st = 401%Z)) as [->|Hst]; [left; eauto|].
    right. intros dd' Heq. inversion Heq. contradiction. }
  - destruct (cfg_retry config) eqn:Hm.
    + rewrite client_marked by exact Hm. cbv zeta. simpl.
      rewrite drop_app_length. simpl. repeat split; lia.
    + rewrite (client_401 srv 0 config w d Hm H401). cbv zeta.
      destruct (storage w !! "refresh_token") as [rt|];
        [|simpl; rewrite drop_app_length; simpl; repeat split; lia].
      destruct (truthy (Some rt));
        [|simpl; rewrite drop_app_length; simpl; repeat split; lia].
      destruct (refreshed_access _);
        simpl; rewrite drop_app_length; simpl; repeat split; lia.
  - rewrite (client_plain 2 config w) by (auto; lia).
    fold sent. simpl. rewrite drop_app_length. simpl. repeat split; lia.
Qed.

Lemma remove_session_keys_lookup (st : gmap string string) (k : string) :
  remove_keys session_keys st !! k
  = if bool_decide (k ∈ session_keys) then None else st !! k.
Proof.
  unfold remove_keys, session_keys. simpl.
  case_bool_decide as Hin.
  - apply list_elem_of_In in Hin. simpl in Hin.
    destruct Hin as [<-|[<-|[<-|[]]]].
    + apply lookup_delete_eq.
    + rewrite lookup_delete_ne by done. apply lookup_delete_eq.
    + rewrite !lookup_delete_ne by done. apply lookup_delete_eq.
  - rewrite !lookup_delete_ne; [reflexivity| | |];
      intros <-; apply Hin; apply list_elem_of_In; simpl; auto.
Qed.

(** X12.  When the server accepts the logout request, [ApiService.logout]
    resolves, the three session entries are gone from [AsyncStorage] and
    every other entry is left as it was. *)
Theorem ApiService_logout_accepted (w : World) (st : Z) (d : JSON)
    (Hanswer : srv (netlog w)
                 (ClientCall (with_stored_token (storage w !! "access_token")
                                (request "post" "/auth/logout/" None)))
               = Response st d)
    (Hok : ok_status st = true) :
  let result := run srv ApiService_logout w in
  result.2 = Some (Resolved st d)
  /\ storage result.1 !! "access_token" = None
  /\ storage result.1 !! "refresh_token" = None
  /\ storage result.1 !! "user" = None
  /\ (forall k, k ∉ session_keys -> storage result.1 !! k = storage w !! k).
Proof.
  intros result.
  assert (result = (mkWorld (remove_keys session_keys (storage w))
                      (netlog w ++ [ClientCall
                         (with_stored_token (storage w !! "access_token")
                            (request "post" "/auth/logout/" None))]),
                    Some (Resolved st d))) as ->.
  { subst result. unfold ApiService_logout, apiClient.
    change (mbind ?f ?p) with (bind p f). rewrite run_bind, client_unfold. cbv zeta.
    rewrite Hanswer, Hok. reflexivity. }
  simpl. split; [reflexivity|].
  rewrite !remove_session_keys_lookup.
  repeat split; try reflexivity.
  intros k Hk. rewrite remove_session_keys_lookup.
  case_bool_decide; [contradiction|reflexivity].
Qed.

(** X13.  The storage helpers compose as expected: [getStoredTokens] after
    [storeAuthTokens] returns the two tokens just stored; after
    [clearStoredData] it returns [null] for both; and [storeUser] does not
    touch the tokens. *)
Theorem stored_tokens_round_trip (w : World) (access refresh user : string) :
  (run srv (storeAuthTokens access refresh ;; getStoredTokens) w).2
  = (Some access, Some refresh)
  /\ (run srv (clearStoredData ;; getStoredTokens) w).2 = (None, None)
  /\ (run srv (storeUser user ;; getStoredTokens) w).2
     = (run srv getStoredTokens w).2.
Proof.
  split; [|split]; simpl.
  - f_equal.
    + unfold set_entries. simpl. rewrite lookup_insert_ne by done.
      now rewrite lookup_insert_eq.
    + unfold set_entries. simpl. now rewrite lookup_insert_eq.
  - rewrite !remove_session_keys_lookup. reflexivity.
  - now rewrite !lookup_insert_ne by done.
Qed.

(** X14.  [getStoredUser] after [storeUser] parses the text just stored (it
    throws when the text does not parse); after [clearStoredData] it
    returns [null] without parsing anything. *)
Theorem stored_user_round_trip (w : World) (text : string)
    (Htext : text <> "") :
  (run srv (storeUser text ;; getStoredUser JSON_parse) w).2 = JSON_parse text
  /\ (run srv (clearStoredData ;; getStoredUser JSON_parse) w).2 = Some JNull.
Proof.
  split; simpl.
  - rewrite lookup_insert_eq. unfold truthy.
    apply String.eqb_neq in Htext. now rewrite Htext.
  - rewrite remove_session_keys_lookup. reflexivity.
Qed.

End MoreGateway.

Lemma request_without_401_witness :
  (Gateway.run srv_500 (Gateway.client 2 get_bookings)
     (Gateway.mkWorld session_storage [])).2
  = Some (Gateway.Rejected
            (Gateway.mkError
               (Gateway.mkConfig "get" "/bookings/" None (Some "Bearer old-access") false)
               (Gateway.Response 500 JNull))).
Proof.
  rewrite (request_without_401 srv_500 2 get_bookings
             (Gateway.mkWorld session_storage [])).
  - reflexivity.
  - auto.
  - intros d H. vm_compute in H. discriminate.
Defined.

Lemma client_calls_bounded_witness :
  length (Gateway.new_calls (Gateway.mkWorld session_storage [])
            (Gateway.run srv_expired (Gateway.client 2 get_bookings)
               (Gateway.mkWorld session_storage [])).1) <= 3.
Proof.
  pose proof (client_calls_bounded srv_expired 2 get_bookings
                (Gateway.mkWorld session_storage []) (le_n 2)) as H.
  cbv zeta in H. destruct H as (_ & _ & H & _). exact H.
Defined.

(** A server that accepts everything. *)
Lemma ApiService_logout_accepted_witness :
  Gateway.storage
    (Gateway.run (fun _ _ => Gateway.Response 200 JNull) Gateway.ApiService_logout
       (Gateway.mkWorld session_storage [])).1 !! "refresh_token" = None.
Proof.
  pose proof (ApiService_logout_accepted (fun _ _ => Gateway.Response 200 JNull)
                (Gateway.mkWorld session_storage []) 200 JNull eq_refl eq_refl) as H.
  cbv zeta in H. destruct H as (_ & _ & H & _). exact H.
Defined.

Lemma stored_user_round_trip_witness :
  (Gateway.run srv_500 (Gateway.storeUser "{}" ;; Gateway.getStoredUser sample_parse)
     (Gateway.mkWorld ∅ [])).2 = Some (JObj []).
Proof.
  assert (("{}" : string) <> "") as Hne by discriminate.
  pose proof (stored_user_round_trip srv_500 sample_parse (Gateway.mkWorld ∅ [])
                "{}" Hne) as [H _].
  rewrite H. reflexivity.
Defined.

(** ** [handleApiError] *)

Section MoreApiErrors.

Import ApiErrors.

Lemma js_or_truthy (a b : JSValue) : js_truthy b = true -> js_truthy (js_or a b) = true.
Proof. intros Hb. unfold js_or. destruct (js_truthy a) eqn:E; auto. Qed.

(** X15.  [handleApiError] always returns a message that is truthy (never
    missing, [null] or the empty string); a message the server sent wins
    over its [detail]; and the rejection of a request the server did not
    answer is classified as NETWORK_ERROR with the fixed network
    message. *)
Theorem handleApiError_message (error : ErrorObject) :
  js_truthy (api_message (handleApiError error)) = true
  /\ (forall data, response_data error = Some data ->
        js_truthy (opt_prop data "message") = true ->
        api_message (handleApiError error) = opt_prop data "message")
  /\ (forall e msg, Gateway.err_response e = Gateway.NoResponse ->
        handleApiError (of_axios e msg)
        = mkApiError (Some (JStr "Network error. Please check your connection."))
                     (Some (JStr "NETWORK_ERROR")) None).
Proof.
  split; [|split].
  - unfold handleApiError.
    destruct (response_data error) as [data|]; simpl.
    + now apply js_or_truthy.
    + destruct (has_request error); simpl; [reflexivity|]. now apply js_or_truthy.
  - intros data Hd Hm. unfold handleApiError. rewrite Hd. simpl.
    unfold js_or. rewrite Hm. now rewrite Hm.
  - intros e msg He. unfold of_axios, handleApiError. now rewrite He.
Qed.

End MoreApiErrors.

Lemma handleApiError_message_witness :
  ApiErrors.handleApiError
    (ApiErrors.of_axios (Gateway.mkError get_bookings Gateway.NoResponse)
       (Some (JStr "timeout of 10000ms exceeded")))
  = ApiErrors.mkApiError (Some (JStr "Network error. Please check your connection."))
      (Some (JStr "NETWORK_ERROR")) None.
Proof.
  pose proof (handleApiError_message (ApiErrors.mkErrorObject None true None))
    as (_ & _ & H).
  apply H. reflexivity.
Defined.

(** ** The session provider and the [localStorage] utilities *)

Section MoreAuth.

Import Auth.

#[local] Arguments truthy : simpl never.

(** X17.  A login or registration that fails (the request is rejected, or the
    answer lacks one of the two tokens) throws and leaves the previous
    session exactly as it was; only [isLoading] is cleared. *)
Theorem failed_login_keeps_session (s : State) (credentials : string) (r : PostResult)
    (Hrefused : session_refused r) :
  let c := login_settle r (login_call credentials s) in
  let c' := register_settle r (register_call credentials s) in
  ~ returns_normally c /\ same_session s (state_of c) /\ isLoading (state_of c) = false
  /\ ~ returns_normally c' /\ same_session s (state_of c')
  /\ isLoading (state_of c') = false.
Proof.
  cbv zeta. unfold login_settle, register_settle, session_settle, same_session.
  destruct r as [data|]; simpl in *.
  - destruct (access data), (refresh data); simpl in *;
      try rewrite Hrefused; simpl; repeat split; auto.
  - repeat split; auto.
Qed.

(** X18.  A successful refresh replaces the access token and never the refresh
    token: the refresh token held and its stored entry are the same as
    before, whatever the answer carries besides [access]. *)
Theorem refresh_keeps_refresh_token (s : State) (data : AuthResponse) (a : string)
    (Hheld : truthy (refreshTokenValue s) = true)
    (Haccess : access data = Some a)
    (Hnonempty : a <> "") :
  let c := refreshToken (PostResolved data) s in
  returns_normally c
  /\ authToken (state_of c) = Some a
  /\ apiToken (state_of c) = Some a
  /\ refreshTokenValue (state_of c) = refreshTokenValue s
  /\ localStorage (state_of c) !! REFRESH_TOKEN_KEY = localStorage s !! REFRESH_TOKEN_KEY.
Proof.
  cbv zeta. unfold refreshToken, refreshToken_call, refreshToken_settle.
  rewrite Hheld, Haccess.
  assert (truthy (Some a) = true) as ->
    by (unfold truthy; now apply negb_true_iff, String.eqb_neq).
  simpl. repeat split; auto.
  rewrite !lookup_insert_ne by done. reflexivity.
Qed.

(** X19.  A refresh that fails logs the user out: when the request is rejected
    or the answer has no access token, [refreshToken] throws, the session
    is cleared and the [api] object forgets its token; without a refresh
    token held the same happens and no request is sent at all. *)
Theorem failed_refresh_logs_out (s : State) (r : PostResult)
    (Hfails : match r with
              | PostResolved data => truthy (access data) = false
              | PostRejected => True
              end
              \/ truthy (refreshTokenValue s) = false) :
  let c := refreshToken r s in
  ~ returns_normally c
  /\ store_cleared (state_of c)
  /\ apiToken (state_of c) = None
  /\ Session.provider_isAuthenticated (state_of c) = false
  /\ (truthy (refreshTokenValue s) = false -> posts (state_of c) = posts s).
Proof.
  cbv zeta.
  assert (forall e s0, ~ returns_normally (refresh_failed e s0)
                       /\ store_cleared (state_of (refresh_failed e s0))
                       /\ apiToken (state_of (refresh_failed e s0)) = None
                       /\ Session.provider_isAuthenticated
                            (state_of (refresh_failed e s0)) = false
                       /\ posts (state_of (refresh_failed e s0)) = posts s0) as Hf.
  { intros e s0. unfold refresh_failed, store_cleared, clearAuth. simpl.
    repeat split; auto.
    - rewrite lookup_insert_ne by done. rewrite lookup_insert_ne by done.
      apply lookup_insert_eq.
    - rewrite lookup_insert_ne by done. apply lookup_insert_eq.
    - apply lookup_insert_eq. }
  unfold refreshToken, refreshToken_call.
  destruct (truthy (refreshTokenValue s)) eqn:Hheld.
  - destruct Hfails as [Hr|Hr]; [|discriminate].
    unfold refreshToken_settle.
    destruct r as [data|].
    + destruct (access data) as [a|] eqn:Ea.
      * rewrite Hr.
        destruct (Hf "Invalid refresh response"
                     (api_post "/auth/refresh/" (refreshTokenValue s) s))
          as (H1 & H2 & H3 & H4 & _).
        repeat split; auto; try apply H2. discriminate.
      * destruct (Hf "Invalid refresh response"
                     (api_post "/auth/refresh/" (refreshTokenValue s) s))
          as (H1 & H2 & H3 & H4 & _).
        repeat split; auto; try apply H2. discriminate.
    + destruct (Hf "request failed"
                   (api_post "/auth/refresh/" (refreshTokenValue s) s))
        as (H1 & H2 & H3 & H4 & _).
      repeat split; auto; try apply H2. discriminate.
  - destruct (Hf "No refresh token available" s) as (H1 & H2 & H3 & H4 & H5).
    repeat split; auto; apply H2.
Qed.

End MoreAuth.

Lemma failed_login_keeps_session_witness :
  Auth.same_session logged_in
    (state_of (Auth.login_settle Auth.PostRejected (Auth.login_call "credentials" logged_in))).
Proof.
  pose proof (failed_login_keeps_session logged_in "credentials" Auth.PostRejected I) as H.
  cbv zeta in H. destruct H as (_ & H & _). exact H.
Defined.

Lemma refresh_keeps_refresh_token_witness :
  Auth.refreshTokenValue
    (state_of (Auth.refreshToken
                 (Auth.PostResolved (Auth.mkAuthResponse (Some "access-2") None None))
                 logged_in))
  = Auth.refreshTokenValue logged_in.
Proof.
  assert (("access-2" : string) <> "") as Hne by discriminate.
  pose proof (refresh_keeps_refresh_token logged_in
                (Auth.mkAuthResponse (Some "access-2") None None) "access-2"
                eq_refl eq_refl Hne) as H.
  cbv zeta in H. destruct H as (_ & _ & _ & H & _). exact H.
Defined.

Lemma failed_refresh_logs_out_witness :
  Auth.store_cleared (state_of (Auth.refreshToken Auth.PostRejected logged_in)).
Proof.
  pose proof (failed_refresh_logs_out logged_in Auth.PostRejected (or_introl I)) as H.
  cbv zeta in H. destruct H as (_ & H & _). exact H.
Defined.

Section MoreSession.

Import Auth Session.

Variable atob : string -> option string.
Variable JSON_parse : string -> option JSON.
Variable JSON_stringify : JSValue -> string.
Variable to_number_other : JSON -> Jwt.Num.

#[local] Arguments truthy : simpl never.

(** X20.  The provider and the storage utilities disagree after a logout.  The
    provider clears its cells by storing [null], so [localStorage] holds
    the text "null" under the three keys: the provider reports "not
    authenticated", while the utility [isAuthenticated()] answers [true]
    and [getAuthToken()] returns the string "null". *)
Theorem logout_leaves_null_text (s : State)
    (Hnull : JSON_stringify (Some JNull) = "null") :
  provider_isAuthenticated (logout s) = false
  /\ isAuthenticated (persisted JSON_stringify (logout s)) = true
  /\ getAuthToken (persisted JSON_stringify (logout s)) = Some "null"
  /\ getRefreshToken (persisted JSON_stringify (logout s)) = Some "null".
Proof.
  destruct (logout_clears s PostRejected) as [(Ha & Hr & Hu & Hla & Hlr & Hlu) _].
  split; [|split; [|split]].
  - unfold provider_isAuthenticated. rewrite Ha. apply andb_false_r.
  - unfold isAuthenticated, persisted. rewrite lookup_fmap, Hla. simpl.
    rewrite Hnull. reflexivity.
  - unfold getAuthToken, persisted. rewrite lookup_fmap, Hla. simpl.
    now rewrite Hnull.
  - unfold getRefreshToken, persisted. rewrite lookup_fmap, Hlr. simpl.
    now rewrite Hnull.
Qed.

(** X21.  [endSession] empties the session whatever was stored: afterwards
    [getSessionInfo] reports no user, no tokens and an expired session,
    [isAuthenticated] is false, and every other [localStorage] entry is
    untouched. *)
Theorem endSession_clears (currentTime : Q) (ls : gmap string string) :
  getSessionInfo atob JSON_parse to_number_other currentTime (endSession ls)
  = Some (mkSessionInfo JNull None None true)
  /\ isAuthenticated (endSession ls) = false
  /\ (forall k, k <> AUTH_TOKEN_KEY -> k <> REFRESH_TOKEN_KEY -> k <> USER_DATA_KEY ->
        endSession ls !! k = ls !! k).
Proof.
  assert (endSession ls !! USER_DATA_KEY = None) as Hu
    by (unfold endSession, clearAuthStorage; apply lookup_delete_eq).
  assert (endSession ls !! REFRESH_TOKEN_KEY = None) as Hr.
  { unfold endSession, clearAuthStorage.
    rewrite lookup_delete_ne by done. apply lookup_delete_eq. }
  assert (endSession ls !! AUTH_TOKEN_KEY = None) as Ha.
  { unfold endSession, clearAuthStorage.
    rewrite !lookup_delete_ne by done. apply lookup_delete_eq. }
  split; [|split].
  - unfold getSessionInfo, getUserData, getAuthToken, getRefreshToken.
    now rewrite Hu, Ha, Hr.
  - unfold isAuthenticated. now rewrite Ha.
  - intros k H1 H2 H3. unfold endSession, clearAuthStorage.
    now rewrite !lookup_delete_ne by done.
Qed.

(** X22.  [startSession] followed by [getSessionInfo] gives back the user and
    the two tokens, with [isExpired] computed from the stored token,
    provided the user survives [JSON.stringify]/[JSON.parse] and the token
    is not empty. *)
Theorem startSession_round_trip (currentTime : Q) (ls : gmap string string)
    (user : JSON) (token refreshToken : string)
    (Hjson : JSON_parse (JSON_stringify (Some user)) = Some user)
    (Htext : JSON_stringify (Some user) <> "")
    (Htoken : token <> "") :
  getSessionInfo atob JSON_parse to_number_other currentTime
    (startSession JSON_stringify user token refreshToken ls)
  = Some (mkSessionInfo user (Some token) (Some refreshToken)
            (Jwt.isTokenExpired atob JSON_parse to_number_other currentTime token)).
Proof.
  unfold getSessionInfo, getUserData, getAuthToken, getRefreshToken, startSession.
  rewrite lookup_insert_eq.
  rewrite (lookup_insert_ne _ USER_DATA_KEY AUTH_TOKEN_KEY) by done.
  rewrite (lookup_insert_ne _ REFRESH_TOKEN_KEY AUTH_TOKEN_KEY) by done.
  rewrite lookup_insert_eq.
  rewrite (lookup_insert_ne _ USER_DATA_KEY REFRESH_TOKEN_KEY) by done.
  rewrite lookup_insert_eq.
  unfold truthy. apply String.eqb_neq in Htext, Htoken.
  rewrite Htext, Htoken. simpl. now rewrite Hjson.
Qed.

End MoreSession.

Lemma logout_leaves_null_text_witness :
  Session.isAuthenticated (Session.persisted sample_stringify_value (Auth.logout logged_in))
  = true.
Proof.
  pose proof (logout_leaves_null_text sample_stringify_value logged_in eq_refl) as H.
  destruct H as (_ & H & _). exact H.
Defined.

Lemma endSession_clears_witness :
  Session.endSession sample_storage !! "user" = sample_storage !! "user".
Proof.
  pose proof (endSession_clears sample_atob sample_parse sample_to_number 0
                sample_storage) as (_ & _ & H).
  apply H; discriminate.
Defined.

Lemma startSession_round_trip_witness :
  Session.getSessionInfo sample_atob sample_parse sample_to_number 0
    (Session.startSession sample_stringify_value (JObj []) "a.e30.c" "r" ∅)
  = Some (Session.mkSessionInfo (JObj []) (Some "a.e30.c") (Some "r")
            (Jwt.isTokenExpired sample_atob sample_parse sample_to_number 0 "a.e30.c")).
Proof.
  assert (sample_stringify_value (Some (JObj [])) <> "") as Htext by discriminate.
  assert (("a.e30.c" : string) <> "") as Htoken by discriminate.
  exact (startSession_round_trip sample_atob sample_parse sample_stringify_value
           sample_to_number 0 ∅ (JObj []) "a.e30.c" "r" eq_refl Htext Htoken).
Defined.

(** ** Roles and permissions *)

Section MoreAccess.

Import Access.

Variable inherited : string -> bool.

Lemma own_entry_In (name : string) (table : list (string * list string)) roles :
  own_entry name table = Some roles -> In (name, roles) table.
Proof.
  induction table as [|[k v] table IH]; simpl; [discriminate|].
  destruct (String.eqb_spec k name) as [->|Hne].
  - intros H. inversion H; subst. now left.
  - intros H. right. now apply IH.
Qed.

Lemma existsb_eqb_In (x : string) (l : list string) :
  existsb (String.eqb x) l = true <-> In x l.
Proof.
  rewrite existsb_exists. split.
  - intros (y & Hin & Heq). apply String.eqb_eq in Heq. now subst.
  - intros Hin. exists x. split; [exact Hin|apply String.eqb_refl].
Qed.

(** X23.  [canAccess] grants nothing outside its table: when it answers [true]
    there is a user, the permission is one of the thirteen entries of the
    table, the user's role is listed for it, and that role is one of
    RIDER, DRIVER, ADMIN and CORP_ADMIN.  Without a user it answers
    [false] for every permission. *)
Theorem canAccess_only_from_table (user : option User) (permission : string)
    (Hgranted : canAccess inherited user permission = Some true) :
  exists u roles,
    user = Some u
    /\ In (permission, roles) permissions
    /\ In (role u) roles
    /\ In (role u) ["RIDER"; "DRIVER"; "ADMIN"; "CORP_ADMIN"].
Proof.
  unfold canAccess in Hgranted.
  destruct user as [u|]; [|discriminate].
  destruct (own_entry permission permissions) as [roles|] eqn:E.
  - assert (existsb (String.eqb (role u)) roles = true) as Hex by congruence.
    clear Hgranted. apply existsb_eqb_In in Hex.
    exists u, roles. split; [reflexivity|].
    apply own_entry_In in E. split; [exact E|]. split; [exact Hex|].
    unfold permissions in E. simpl in E.
    repeat (destruct E as [E|E];
            [inversion E; subst; simpl in Hex; simpl; tauto|]).
    destruct E.
  - destruct (inherited permission); discriminate.
Qed.

Lemma canAccess_without_user (permission : string) :
  canAccess inherited None permission = Some false.
Proof. reflexivity. Qed.

End MoreAccess.

Lemma canAccess_only_from_table_witness :
  exists u roles,
    Some (Access.mkUser "DRIVER") = Some u
    /\ In ("bookings.checkin", roles) Access.permissions
    /\ In (Access.role u) roles
    /\ In (Access.role u) ["RIDER"; "DRIVER"; "ADMIN"; "CORP_ADMIN"].
Proof.
  exact (canAccess_only_from_table (fun _ => false) (Some (Access.mkUser "DRIVER"))
           "bookings.checkin" eq_refl).
Defined.

(** ** Token utilities *)

Section MoreJwt.

Import Jwt.

Variable atob : string -> option string.
Variable JSON_parse : string -> option JSON.
Variable to_number_other : JSON -> Num.


Lemma split_on_no_separator (sep : ascii) (s : string) :
  ~ In sep (list_ascii_of_string s) -> split_on sep s = [s].
Proof.
  induction s as [|c s IH]; simpl; [reflexivity|].
  intros Hnot. destruct (Ascii.eqb_spec c sep) as [->|Hne].
  - exfalso. apply Hnot. now left.
  - rewrite IH by tauto. reflexivity.
Qed.

(** X25.  The fallbacks of the three utilities.  When [atob] rejects the
    payload segment, or [JSON.parse] rejects the decoded text, or the
    payload is [null], the token is reported as expired, with no
    expiration date and no time left.  For a token without a dot the
    segment handed to [atob] is the text "undefined". *)
Theorem undecodable_token_fallbacks (currentTime : Q) (token : string)
    (Hbad : atob (payload_segment token) = None
            \/ exists text, atob (payload_segment token) = Some text
                 /\ (JSON_parse text = None \/ JSON_parse text = Some JNull)) :
  isTokenExpired atob JSON_parse to_number_other currentTime token = true
  /\ getTokenExpiration atob JSON_parse to_number_other token = None
  /\ getTokenTimeUntilExpiry atob JSON_parse to_number_other currentTime token = Fin 0
  /\ (~ In "."%char (list_ascii_of_string token) -> payload_segment token = "undefined").
Proof.
  assert (payload_exp atob JSON_parse token = None) as Hnone.
  { unfold payload_exp. fold (payload_segment token).
    destruct Hbad as [-> | (text & -> & [-> | ->])]; reflexivity. }
  unfold isTokenExpired, getTokenExpiration, getTokenTimeUntilExpiry.
  rewrite Hnone. repeat split.
  intros Hnodot. unfold payload_segment.
  now rewrite split_on_no_separator.
Qed.

End MoreJwt.


Lemma undecodable_token_fallbacks_witness :
  Jwt.isTokenExpired sample_atob sample_parse sample_to_number 1700000000 "garbage"
  = true.
Proof.
  exact (proj1 (undecodable_token_fallbacks sample_atob sample_parse sample_to_number
                  1700000000 "garbage" (or_introl eq_refl))).
Defined.

(** ** Pagination and form validation *)

Section MorePagination.

Import Pagination.

Lemma totalPages_setPage v s : totalPages (setPage v s) = totalPages s.
Proof. reflexivity. Qed.

Lemma move_in_range (s : State) (m : Move) : in_range s -> in_range (move s m).
Proof.
  unfold in_range. intros [Hlo Hhi].
  destruct m as [| |n]; simpl.
  - unfold nextPage, hasNextPage.
    destruct (lt_pages (page s) (totalPages s)) eqn:E; [|auto].
    rewrite totalPages_setPage. simpl. split; [lia|].
    destruct (totalPages s); simpl in *; try discriminate; [|reflexivity].
    apply Z.leb_le. apply Z.ltb_lt in E. lia.
  - unfold previousPage, hasPreviousPage.
    destruct (1 <? page s)%Z eqn:E; [|auto].
    rewrite totalPages_setPage. simpl. apply Z.ltb_lt in E. split; [lia|].
    destruct (totalPages s); simpl in *; try discriminate; [|reflexivity].
    apply Z.leb_le. apply Z.leb_le in Hhi. lia.
  - unfold goToPage.
    destruct ((1 <=? n)%Z && le_pages n (totalPages s)) eqn:E; [|auto].
    apply andb_true_iff in E as [E1 E2]. rewrite totalPages_setPage. simpl.
    apply Z.leb_le in E1. auto.
Qed.

Lemma move_keeps_size (s : State) (m : Move) :
  pageSize (move s m) = pageSize s /\ total (move s m) = total s.
Proof.
  destruct m as [| |n]; simpl.
  - unfold nextPage. destruct (hasNextPage s); auto.
  - unfold previousPage. destruct (hasPreviousPage s); auto.
  - unfold goToPage. destruct (_ && _); auto.
Qed.

Lemma handler_single (s : State) (m : Move) : handler s [m] = move s m.
Proof. destruct m; reflexivity. Qed.

Lemma handler_in_range (s : State) (ms : list Move) :
  length ms <= 1 -> in_range s ->
  in_range (handler s ms)
  /\ pageSize (handler s ms) = pageSize s /\ total (handler s ms) = total s.
Proof.
  intros Hone Hin. destruct ms as [|m [|m' ms]]; simpl in Hone; try lia.
  - auto.
  - rewrite handler_single. split; [now apply move_in_range|apply move_keeps_size].
Qed.

Lemma finite_pages_bound (s : State) n :
  (0 < pageSize s)%Z -> (0 <= total s)%Z -> totalPages s = Finite n ->
  (0 <= n <= total s)%Z.
Proof.
  intros Hsize Htotal. unfold totalPages.
  assert ((pageSize s =? 0)%Z = false) as -> by (apply Z.eqb_neq; lia).
  intros H. inversion H as [Hn]. clear H.
  pose proof (Z.div_mod (- total s) (pageSize s) ltac:(lia)) as Hdm.
  pose proof (Z.mod_pos_bound (- total s) (pageSize s) Hsize) as Hmod.
  split; nia.
Qed.

(** X26.  Moving between pages, one call per render.  Let the page
    numbers be integers that doubles hold exactly, the page size positive
    and the total not negative, and let every event handler make at most
    one call of [nextPage], [previousPage] or [goToPage] (so that each
    call uses the guards of the state it acts on).  Then from a page
    between 1 and the number of pages, any sequence of such handlers ends
    on a page between 1 and the number of pages, still such an integer,
    and changes neither [pageSize] nor [total].  (With two calls in one
    handler the range can be left: [two_calls_overshoot].) *)
Theorem navigation_stays_in_range (s : State) (hs : list (list Move))
    (Hsafe : safe_integers s)
    (Hsize : (0 < pageSize s)%Z)
    (Htotal : (0 <= total s)%Z)
    (Hone : Forall (fun ms => length ms <= 1) hs)
    (Hlo : (1 <= page s)%Z)
    (Hhi : le_pages (page s) (totalPages s) = true) :
  (1 <= page (handlers hs s))%Z
  /\ le_pages (page (handlers hs s)) (totalPages (handlers hs s)) = true
  /\ safe_integers (handlers hs s)
  /\ pageSize (handlers hs s) = pageSize s
  /\ total (handlers hs s) = total s.
Proof.
  assert (in_range s) as Hin by (split; assumption). clear Hlo Hhi.
  assert (in_range (handlers hs s)
          /\ pageSize (handlers hs s) = pageSize s
          /\ total (handlers hs s) = total s) as (Hr & Hp & Ht).
  { clear Hsafe Hsize Htotal. revert s Hin. unfold handlers.
    induction Hone as [|ms hs Hms _ IH]; intros s Hin; simpl; [auto|].
    destruct (handler_in_range s ms Hms Hin) as (H1 & H2 & H3).
    destruct (IH (handler s ms) H1) as (H4 & H5 & H6).
    rewrite H5, H6. auto. }
  destruct Hr as [Hlo Hhi].
  split; [exact Hlo|]. split; [exact Hhi|]. split; [|auto].
  destruct Hsafe as (_ & Hsp & Hst). unfold safe_integers.
  rewrite Hp, Ht. split; [|auto].
  destruct (totalPages (handlers hs s)) as [n| | |] eqn:E; simpl in Hhi;
    try discriminate.
  - apply Z.leb_le in Hhi.
    pose proof (finite_pages_bound (handlers hs s) n) as Hb.
    rewrite Hp, Ht in Hb. specialize (Hb Hsize Htotal E). lia.
  - exfalso. unfold totalPages in E. rewrite Hp in E.
    assert ((pageSize s =? 0)%Z = false) as Hz by (apply Z.eqb_neq; lia).
    rewrite Hz in E. discriminate.
Qed.

(** X27.  [nextPage] and [previousPage] undo each other when each is
    called from a render of its own, on page numbers that doubles hold
    exactly: with a next page and the page at least 1, forward then back
    returns to the same state; with a previous page and the page within
    the number of pages, back then forward does.  Called one after the
    other from the same render they do not: on page 1 with a next page,
    [nextPage(); previousPage()] ends on page 2, because the
    [hasPreviousPage] that [previousPage] tests is still the one of
    page 1. *)
Theorem next_previous_round_trip (s : State) (Hsafe : safe_integers s) :
  (hasNextPage s = true -> (1 <= page s)%Z ->
   handlers [[Next]; [Previous]] s = s)
  /\ (hasPreviousPage s = true -> le_pages (page s) (totalPages s) = true ->
      handlers [[Previous]; [Next]] s = s)
  /\ (hasNextPage s = true -> page s = 1%Z ->
      handler s [Next; Previous] = setPage 2 s).
Proof.
  clear Hsafe. destruct s as [p ps t]. unfold handlers. simpl fold_left.
  rewrite !handler_single. simpl move. split; [|split].
  - intros Hn Hlo. unfold nextPage. rewrite Hn.
    unfold previousPage, hasPreviousPage. simpl in *.
    assert ((1 <? p + 1)%Z = true) as -> by (apply Z.ltb_lt; lia).
    unfold setPage. simpl. f_equal. lia.
  - intros Hp Hhi. unfold previousPage. rewrite Hp.
    unfold nextPage, hasNextPage. simpl in *.
    assert (lt_pages (p - 1) (totalPages (setPage (p - 1) (mkState p ps t))) = true)
      as ->.
    { rewrite totalPages_setPage.
      destruct (totalPages (mkState p ps t)); simpl in *; try discriminate;
        [|reflexivity].
      apply Z.ltb_lt. apply Z.leb_le in Hhi. lia. }
    unfold setPage. simpl. f_equal. lia.
  - intros Hn H1. simpl in H1. subst p.
    unfold handler, render. simpl. rewrite Hn. reflexivity.
Qed.

(** X28.  With nothing to show ([total] is 0) and the page at 1, no navigation
    moves: [nextPage], [previousPage] and [goToPage] with any argument,
    [goToPage(1)] included, leave the state as it is. *)
Theorem empty_total_no_navigation (s : State) (ms : list Move)
    (Hempty : total s = 0%Z)
    (Hfirst : page s = 1%Z) :
  moves ms s = s.
Proof.
  assert (forall m, move s m = s) as Hmove.
  { assert (totalPages s = NotANumber \/ totalPages s = Finite 0) as Htp.
    { unfold totalPages. rewrite Hempty. simpl.
      destruct (pageSize s =? 0)%Z; [now left|right].
      reflexivity. }
    intros [| |n]; simpl.
    - unfold nextPage, hasNextPage. rewrite Hfirst.
      destruct Htp as [-> | ->]; reflexivity.
    - unfold previousPage, hasPreviousPage. now rewrite Hfirst.
    - unfold goToPage. destruct Htp as [-> | ->]; simpl.
      + now rewrite andb_false_r.
      + destruct (1 <=? n)%Z eqn:E1; [|reflexivity].
        destruct (n <=? 0)%Z eqn:E2; [|reflexivity].
        apply Z.leb_le in E1, E2. lia. }
  unfold moves. induction ms as [|m ms IH]; simpl; [reflexivity|].
  now rewrite Hmove.
Qed.

(** X29.  The number of pages is the least that holds every item: for a
    page size and a total that are integers doubles hold exactly (below
    2^53), the page size positive and the total not negative,
    [totalPages] is a number [n] with
    [(n - 1) * pageSize < total <= n * pageSize]; it is 0 exactly when
    there is nothing to show. *)
Theorem pages_cover_items (s : State)
    (Hsafe : safe_integers s)
    (Hsize : (0 < pageSize s)%Z)
    (Htotal : (0 <= total s)%Z) :
  exists n, totalPages s = Finite n
            /\ ((n - 1) * pageSize s < total s <= n * pageSize s)%Z
            /\ (n = 0%Z <-> total s = 0%Z).
Proof.
  clear Hsafe. unfold totalPages.
  assert ((pageSize s =? 0)%Z = false) as -> by (apply Z.eqb_neq; lia).
  set (n := (- (- total s / pageSize s))%Z).
  exists n. split; [reflexivity|].
  pose proof (Z.div_mod (- total s) (pageSize s) ltac:(lia)) as Hdm.
  pose proof (Z.mod_pos_bound (- total s) (pageSize s) Hsize) as Hmod.
  assert ((- total s / pageSize s)%Z = (- n)%Z) as Hq by (subst n; lia).
  rewrite Hq in Hdm. split; [nia|]. split; intros H; nia.
Qed.

End MorePagination.

Lemma navigation_stays_in_range_witness :
  (1 <= Pagination.page
          (Pagination.handlers
             [[Pagination.Next]; [Pagination.Next]; [Pagination.Next];
              [Pagination.GoTo 7]; []; [Pagination.Previous]] three_pages))%Z.
Proof.
  assert (Pagination.safe_integers three_pages) as Hsafe
    by (unfold Pagination.safe_integers; simpl; lia).
  assert (0 < Pagination.pageSize three_pages)%Z as Hsize by (simpl; lia).
  assert (0 <= Pagination.total three_pages)%Z as Htotal by (simpl; lia).
  assert (Forall (fun ms : list Pagination.Move => length ms <= 1)
            [[Pagination.Next]; [Pagination.Next]; [Pagination.Next];
             [Pagination.GoTo 7]; []; [Pagination.Previous]]) as Hone
    by (repeat constructor).
  assert (1 <= Pagination.page three_pages)%Z as Hlo by (simpl; lia).
  pose proof (navigation_stays_in_range three_pages _ Hsafe Hsize Htotal Hone Hlo eq_refl)
    as (H & _).
  exact H.
Defined.

(** Two calls of [nextPage] from the render of page 2 of 3: both pass
    the guard of that render, and the page is 4. *)
Example two_calls_overshoot :
  Pagination.totalPages second_of_three = Pagination.Finite 3
  /\ Pagination.page
       (Pagination.handler second_of_three [Pagination.Next; Pagination.Next]) = 4%Z.
Proof. split; reflexivity. Qed.

Lemma next_previous_round_trip_witness :
  Pagination.handlers [[Pagination.Next]; [Pagination.Previous]] three_pages
  = three_pages.
Proof.
  assert (Pagination.safe_integers three_pages) as Hsafe
    by (unfold Pagination.safe_integers; simpl; lia).
  pose proof (next_previous_round_trip three_pages Hsafe) as (H & _).
  apply H; [reflexivity|simpl; lia].
Defined.

Lemma empty_total_no_navigation_witness :
  Pagination.moves [Pagination.Next; Pagination.GoTo 1; Pagination.Previous]
    (Pagination.initial 1 20)
  = Pagination.initial 1 20.
Proof.
  apply empty_total_no_navigation; reflexivity.
Defined.

Lemma pages_cover_items_witness :
  exists n, Pagination.totalPages three_pages = Pagination.Finite n
            /\ ((n - 1) * Pagination.pageSize three_pages
                 < Pagination.total three_pages
                 <= n * Pagination.pageSize three_pages)%Z
            /\ (n = 0%Z <-> Pagination.total three_pages = 0%Z).
Proof.
  apply pages_cover_items;
    [unfold Pagination.safe_integers; simpl; lia|simpl; lia|simpl; lia].
Defined.

Section MoreForm.

Import Form.

Variable inherited : string -> bool.

#[local] Arguments truthy : simpl never.

Lemma set_error_lookup (field error : string) (newErrors : gmap string string) k :
  set_error field error newErrors !! k
  = if String.eqb field "__proto__" then newErrors !! k
    else if String.eqb field k then Some error else newErrors !! k.
Proof.
  unfold set_error. destruct (String.eqb field "__proto__"); [reflexivity|].
  destruct (String.eqb_spec field k) as [->|Hne].
  - apply lookup_insert_eq.
  - now apply lookup_insert_ne.
Qed.

Lemma collect_errors_spec (rules : list (string * option Rule))
    (values : gmap string JSON) :
  forall (acc : gmap string string),
    let step := fun (newErrors : gmap string string) (entry : string * option Rule) =>
       match entry.2 with
       | Some rule =>
           match rule (read inherited values entry.1) with
           | Some error =>
               if truthy (Some error) then set_error entry.1 error newErrors
               else newErrors
           | None => newErrors
           end
       | None => newErrors
       end in
    (forall k, is_Some (fold_left step rules acc !! k) <->
               is_Some (acc !! k)
               \/ (k <> "__proto__"
                   /\ exists entry, In entry rules /\ entry.1 = k
                                    /\ fails inherited values entry)).
Proof.
  induction rules as [|[field rule] rules IH]; intros acc step k; simpl.
  - split; [auto|]. intros [H|(_ & e & [] & _)]. exact H.
  - subst step. rewrite IH. clear IH. simpl.
    split.
    + intros [Hacc|(Hk & e & Hin & Hek & Hf)]; [|right; split; [exact Hk|exists e; auto]].
      destruct rule as [rule|]; [|auto].
      destruct (rule (read inherited values field)) as [error|] eqn:Er; [|auto].
      destruct (truthy (Some error)) eqn:Et; [|auto].
      rewrite set_error_lookup in Hacc.
      destruct (String.eqb_spec field "__proto__") as [Hp|Hp]; [auto|].
      destruct (String.eqb_spec field k) as [->|Hne]; [|auto].
      right. split; [exact Hp|].
      exists (k, Some rule). split; [now left|]. split; [reflexivity|].
      exists rule, error. simpl. repeat split; auto.
      unfold truthy in Et. now apply negb_true_iff, String.eqb_neq in Et.
    + intros [Hacc|(Hk & e & [<-|Hin] & Hek & Hf)].
      * left. destruct rule as [rule|]; [|auto].
        destruct (rule (read inherited values field)) as [error|]; [|auto].
        destruct (truthy (Some error)); [|auto].
        rewrite set_error_lookup.
        destruct (String.eqb field "__proto__"); [exact Hacc|].
        destruct (String.eqb field k); [eauto|exact Hacc].
      * left. destruct Hf as (r0 & error & Hr & Herr & Hne). simpl in *.
        subst k. rewrite Hr, Herr.
        assert (truthy (Some error) = true) as ->
          by (unfold truthy; now apply negb_true_iff, String.eqb_neq).
        rewrite set_error_lookup.
        apply String.eqb_neq in Hk. rewrite Hk, String.eqb_refl. eauto.
      * right. split; [exact Hk|]. exists e. auto.
Qed.

(** X30.  [validate] and the rules that report an error.  A rule reports
    an error when, given what [values[field]] reads (the field's own
    value, [undefined], or the member inherited from [Object.prototype]
    for a name like 'toString' that the values do not own), it returns a
    string that is not empty; an entry without a rule is skipped.  The
    fields of the [errors] that [validate] sets are exactly the fields
    whose rule reports an error, except the field named '__proto__', for
    which the assignment to the plain object records nothing; and
    [validate] returns [true] exactly when no rule reports an error on a
    field other than '__proto__'. *)
Theorem validate_true_iff (rules : list (string * option Rule))
    (values : gmap string JSON) :
  ((validate inherited rules values).2 = true <->
   forall entry, In entry rules -> fails inherited values entry ->
                 entry.1 = "__proto__")
  /\ (forall k, is_Some ((validate inherited rules values).1 !! k) <->
                k <> "__proto__"
                /\ exists entry, In entry rules /\ entry.1 = k
                                 /\ fails inherited values entry).
Proof.
  assert (forall k, is_Some ((validate inherited rules values).1 !! k) <->
                    k <> "__proto__"
                    /\ exists entry, In entry rules /\ entry.1 = k
                                     /\ fails inherited values entry)
    as Hdom.
  { intros k. unfold validate, collect_errors. simpl.
    rewrite (collect_errors_spec rules values ∅ k). rewrite lookup_empty.
    split; [intros [[? ?]|H]; [discriminate|exact H]|auto]. }
  split; [|exact Hdom].
  unfold validate in *. simpl in *. rewrite bool_decide_eq_true, map_size_empty_iff.
  split.
  - intros Hempty entry Hin Hf.
    destruct (String.eqb_spec entry.1 "__proto__") as [Hp|Hp]; [exact Hp|].
    assert (is_Some (collect_errors inherited rules values !! entry.1)) as [x Hx]
      by (apply Hdom; eauto).
    rewrite Hempty, lookup_empty in Hx. discriminate.
  - intros Hnone. apply map_eq. intros k. rewrite lookup_empty.
    destruct (collect_errors inherited rules values !! k) eqn:E; [|reflexivity].
    exfalso.
    assert (is_Some (collect_errors inherited rules values !! k)) as Hs by eauto.
    apply Hdom in Hs as (Hk & entry & Hin & Hek & Hf).
    apply Hk. rewrite <- Hek. exact (Hnone entry Hin Hf).
Qed.

End MoreForm.

Lemma validate_true_iff_witness :
  is_Some ((Form.validate sample_inherited [("email", Some required)] ∅).1 !! "email").
Proof.
  pose proof (validate_true_iff sample_inherited [("email", Some required)] ∅)
    as (_ & H).
  apply H. split; [discriminate|]. exists ("email", Some required).
  split; [now left|]. split; [reflexivity|].
  exists required, "Required". repeat split. discriminate.
Defined.

(** A required field named 'toString' with no value passes: the rule is
    given the inherited function, not [undefined]. *)
Example inherited_member_passes :
  Form.validate sample_inherited [("toString", Some required)] ∅ = (∅, true)
  /\ (Form.validate sample_inherited [("email", Some required)] ∅).2 = false.
Proof. split; reflexivity. Qed.
